(** * Logical optimizer of Mars: provenance records, subgraph replacement,
      collapsible predecessors, operand dispatch and the optimizer driver.

    Shallow embedding of [mars/optimization/logical/core.py] and, of
    [mars/optimization/logical/tileable/arithmetic_query.py], of the node
    replacement of the eval rewrite rules and of SeriesArithmeticToEval: the
    extraction of expressions, [match_operand] and [apply_to_operand]. *)

From stdpp Require Import gmap list strings pretty.

Set Default Proof Using "Type".

(** ** Python values

    An entity (tileable or chunk data) is an object with a stable identity; a
    variable that holds "an entity or [None]" is a [Val]. *)

Definition Node := nat.
Definition Key := nat.
Definition Op := nat.
Definition OpType := nat.
Abbreviation Val := (option Node).

(** Python's [x or y] on an entity-or-None value (entities are truthy). *)
Definition py_or (x : Val) (y : Node) : Node :=
  match x with Some n => n | None => y end.

(** ** Exceptions and results

    The payload of a [ValueError] tells which of the three checks of
    [_replace_subgraph] raised it. *)

Inductive ValueErrorMsg :=
| InRemovedSet (node : Node)
| UnknownResult (result : Node)
| MissingInput (inp : Node) (affected_successor : Node).

Inductive exn :=
| ValueError (msg : ValueErrorMsg)
| KeyError
| TypeError
| AssertionError.

(** [OutOfFuel] is not a Python outcome: it says that the bound given to a
    [while] loop was too small to reach its exit. *)
Inductive result (A : Type) :=
| Ok (a : A)
| Raise (e : exn)
| OutOfFuel.
Arguments Ok {A} a.
Arguments Raise {A} e.
Arguments OutOfFuel {A}.

Definition is_ValueError {A} (r : result A) : Prop :=
  match r with Raise (ValueError _) => True | _ => False end.

Definition rbind {A B} (r : result A) (k : A → result B) : result B :=
  match r with
  | Ok a => k a
  | Raise e => Raise e
  | OutOfFuel => OutOfFuel
  end.

(** ** Optimization records *)

Inductive OptimizationRecordType := replace | new | delete.

Global Instance OptimizationRecordType_eq_dec : EqDecision OptimizationRecordType.
Proof. solve_decision. Defined.

Record OptimizationRecord := mkRecord {
  original_entity : Val;
  new_entity : Val;
  record_type : OptimizationRecordType
}.

Global Instance OptimizationRecord_eq_dec : EqDecision OptimizationRecord.
Proof. solve_decision. Defined.

Record OptimizationRecords := mkRecords {
  _records : list OptimizationRecord;
  _original_entity_to_records : gmap Val OptimizationRecord;
  _optimized_entity_to_records : gmap Val OptimizationRecord
}.

(** [OptimizationRecords.__init__] *)
Definition empty_records : OptimizationRecords :=
  mkRecords [] ∅ ∅.

Definition append_record (self : OptimizationRecords) (record : OptimizationRecord)
  : OptimizationRecords :=
  let orig :=
    match record_type record with
    | replace | delete =>
        <[original_entity record := record]> (_original_entity_to_records self)
    | new => _original_entity_to_records self
    end in
  let opt :=
    match record_type record with
    | new | replace =>
        <[new_entity record := record]> (_optimized_entity_to_records self)
    | delete => _optimized_entity_to_records self
    end in
  mkRecords (_records self ++ [record]) orig opt.

(** The [while entity in self._original_entity_to_records] loop, with a bound
    on the number of iterations. *)
Fixpoint forward_loop (fuel : nat) (idx : gmap Val OptimizationRecord) (entity : Val)
  : result Val :=
  match fuel with
  | 0 => OutOfFuel
  | S fuel' =>
      match idx !! entity with
      | None => Ok entity
      | Some record =>
          match record_type record with
          | replace => forward_loop fuel' idx (new_entity record)
          | delete => Ok None
          | new => Raise AssertionError
          end
      end
  end.

Definition get_optimization_result (fuel : nat) (self : OptimizationRecords)
    (original_entity : Val) (default : Val) : result Val :=
  match _original_entity_to_records self !! original_entity with
  | None => Ok default
  | Some _ => forward_loop fuel (_original_entity_to_records self) original_entity
  end.

(** The [while entity in self._optimized_entity_to_records] loop. *)
Fixpoint backward_loop (fuel : nat) (idx : gmap Val OptimizationRecord) (entity : Val)
  : result Val :=
  match fuel with
  | 0 => OutOfFuel
  | S fuel' =>
      match idx !! entity with
      | None => Ok entity
      | Some record =>
          match record_type record with
          | replace => backward_loop fuel' idx (original_entity record)
          | new => Ok None
          | delete => Raise AssertionError
          end
      end
  end.

Definition get_original_entity (fuel : nat) (self : OptimizationRecords)
    (optimized_entity : Val) (default : Val) : result Val :=
  match _optimized_entity_to_records self !! optimized_entity with
  | None => Ok default
  | Some _ => backward_loop fuel (_optimized_entity_to_records self) optimized_entity
  end.

(** The store reached from the empty one by appending a log, in order. *)
Definition records_of_log (log : list OptimizationRecord) : OptimizationRecords :=
  foldl append_record empty_records log.

(** ** Entities and the graph *)

(** The attributes of an entity that the optimizer reads; [inputs] is also
    assigned by [Optimizer._replace_inputs]. *)
Record EntityData := mkEntity {
  key : Key;
  op : Op;
  inputs : list Node;
  outputs : list Node
}.

Definition Heap := Node → EntityData.

(** [succ.inputs = new_inputs] *)
Definition set_inputs (h : Heap) (n : Node) (new_inputs : list Node) : Heap :=
  λ m, if decide (m = n)
       then mkEntity (key (h n)) (op (h n)) new_inputs (outputs (h n))
       else h m.

(** Modelled from the spec: [EntityGraph] (mars/core/graph) is not among the
    sources. The spec gives it a node set, edges, an ordered results list,
    add/remove node, predecessor/successor queries and a membership test. The
    spec names no failure of these operations, so they are total here:
    adding a present node or edge and removing an absent node change
    nothing. [results] may hold [None] after [Optimizer.optimize] has
    resolved a deleted result. *)
Record EntityGraph := mkGraph {
  nodes : list Node;
  edges : list (Node * Node);
  results : list Val
}.

Definition iter_nodes (g : EntityGraph) : list Node := nodes g.

Definition add_node (g : EntityGraph) (n : Node) : EntityGraph :=
  if decide (n ∈ nodes g) then g
  else mkGraph (nodes g ++ [n]) (edges g) (results g).

Definition remove_node (g : EntityGraph) (n : Node) : EntityGraph :=
  mkGraph (filter (λ m, m ≠ n) (nodes g))
          (filter (λ e, e.1 ≠ n ∧ e.2 ≠ n) (edges g))
          (results g).

Definition add_edge (g : EntityGraph) (u v : Node) : EntityGraph :=
  if decide ((u, v) ∈ edges g) then g
  else mkGraph (nodes g) (edges g ++ [(u, v)]) (results g).

Definition successors (g : EntityGraph) (n : Node) : list Node :=
  (filter (λ e, e.1 = n) (edges g)).*2.

Definition predecessors (g : EntityGraph) (n : Node) : list Node :=
  (filter (λ e, e.2 = n) (edges g)).*1.

Definition set_results (g : EntityGraph) (rs : list Val) : EntityGraph :=
  mkGraph (nodes g) (edges g) rs.

(** A Python [set] is a list without a meaning for its order; [s.add(x)]. *)
Definition set_add {A} `{EqDecision A} (s : list A) (x : A) : list A :=
  if decide (x ∈ s) then s else s ++ [x].

(** ** The state a rule works on

    [w_graph] and [w_records] are the objects a rule instance holds in
    [self._graph] and [self._records]; [w_heap] holds the attributes of the
    entities; [w_preds_to_remove] is the class attribute
    [OptimizationRule._preds_to_remove], one dictionary for all rule
    instances. It is a [WeakKeyDictionary]: an entry lives as long as its key
    entity is referenced elsewhere, which is taken for granted here. *)
Record World := mkWorld {
  w_graph : EntityGraph;
  w_heap : Heap;
  w_records : OptimizationRecords;
  w_preds_to_remove : gmap Node (list Node)
}.

Definition with_graph (g : EntityGraph) (w : World) : World :=
  mkWorld g (w_heap w) (w_records w) (w_preds_to_remove w).
Definition with_heap (h : Heap) (w : World) : World :=
  mkWorld (w_graph w) h (w_records w) (w_preds_to_remove w).
Definition with_records (r : OptimizationRecords) (w : World) : World :=
  mkWorld (w_graph w) (w_heap w) r (w_preds_to_remove w).
Definition with_preds_to_remove (p : gmap Node (list Node)) (w : World) : World :=
  mkWorld (w_graph w) (w_heap w) (w_records w) p.

(** State and exception monad: the state at a [Raise] is the state the caller
    of the Python method observes when the exception reaches it. *)
Definition M (S A : Type) : Type := S → S * result A.

Definition ret {S A} (a : A) : M S A := λ s, (s, Ok a).
Definition raise {S A} (e : exn) : M S A := λ s, (s, Raise e).
Definition bind {S A B} (m : M S A) (k : A → M S B) : M S B :=
  λ s, match m s with
       | (s', Ok a) => k a s'
       | (s', Raise e) => (s', Raise e)
       | (s', OutOfFuel) => (s', OutOfFuel)
       end.
Definition get {S} : M S S := λ s, (s, Ok s).
Definition modify {S} (f : S → S) : M S unit := λ s, (f s, Ok tt).
Definition lift_result {S A} (r : result A) : M S A := λ s, (s, r).

Notation "'let*' x := m 'in' k" := (bind m (λ x, k))
  (at level 10, x name, m at level 200, k at level 200, only parsing).
Notation "m ;;; k" := (bind m (λ _, k))
  (at level 100, k at level 200, only parsing, right associativity).

(** [for x in xs: body x] *)
Fixpoint for_each {S A} (xs : list A) (body : A → M S unit) : M S unit :=
  match xs with
  | [] => ret tt
  | x :: xs' => body x ;;; for_each xs' body
  end.

Fixpoint map_result {A B} (f : A → result B) (xs : list A) : result (list B) :=
  match xs with
  | [] => Ok []
  | x :: xs' => rbind (f x) (λ y, rbind (map_result f xs') (λ ys, Ok (y :: ys)))
  end.

Definition modify_graph (f : EntityGraph → EntityGraph) : M World unit :=
  modify (λ w, with_graph (f (w_graph w)) w).

(** ** OptimizationRule._replace_subgraph *)

(** [for output in node.outputs: output_to_node[output.key] = node] *)
Definition add_outputs (h : Heap) (node : Node) (output_to_node : gmap Key Node)
  : gmap Key Node :=
  foldl (λ m output, <[key (h output) := node]> m) output_to_node (outputs (h node)).

(** Lines 176-180: the nodes of the input graph. *)
Fixpoint index_subgraph (h : Heap) (nodes_to_remove : list Node) (ns : list Node)
    (output_to_node : gmap Key Node) : result (gmap Key Node) :=
  match ns with
  | [] => Ok output_to_node
  | node :: ns' =>
      if decide (node ∈ nodes_to_remove)
      then Raise (ValueError (InRemovedSet node))
      else index_subgraph h nodes_to_remove ns' (add_outputs h node output_to_node)
  end.

(** Lines 183-186: the nodes of [self._graph] that stay. *)
Definition index_original (h : Heap) (nodes_to_remove : list Node) (ns : list Node)
    (output_to_node : gmap Key Node) : gmap Key Node :=
  foldl (λ m node, if decide (node ∈ nodes_to_remove) then m else add_outputs h node m)
        output_to_node ns.

(** Lines 188-190. *)
Fixpoint check_new_results (h : Heap) (output_to_node : gmap Key Node)
    (new_results : list Node) : result unit :=
  match new_results with
  | [] => Ok tt
  | r :: rs =>
      match output_to_node !! key (h r) with
      | None => Raise (ValueError (UnknownResult r))
      | Some _ => check_new_results h output_to_node rs
      end
  end.

(** Lines 193-196. *)
Definition collect_affected (g : EntityGraph) (nodes_to_remove : list Node) : list Node :=
  foldl (λ acc node,
           foldl (λ acc s, if decide (s ∈ nodes_to_remove) then acc else set_add acc s)
                 acc (successors g node))
        [] nodes_to_remove.

(** Lines 199-203, for one affected successor. *)
Fixpoint check_inputs (h : Heap) (output_to_node : gmap Key Node)
    (affected_successor : Node) (inps : list Node) : result unit :=
  match inps with
  | [] => Ok tt
  | inp :: rest =>
      match output_to_node !! key (h inp) with
      | None => Raise (ValueError (MissingInput inp affected_successor))
      | Some _ => check_inputs h output_to_node affected_successor rest
      end
  end.

(** Lines 198-203. *)
Fixpoint check_affected (h : Heap) (output_to_node : gmap Key Node)
    (affected_successors : list Node) : result unit :=
  match affected_successors with
  | [] => Ok tt
  | s :: rest =>
      rbind (check_inputs h output_to_node s (inputs (h s)))
            (λ _, check_affected h output_to_node rest)
  end.

(** Lines 215-217, for one node: [output_to_node[inp.key]] raises [KeyError]
    on a key that is not in the dictionary. *)
Definition connect_inputs (h : Heap) (output_to_node : gmap Key Node) (node : Node)
  : M World unit :=
  for_each (inputs (h node)) (λ inp,
    match output_to_node !! key (h inp) with
    | None => raise KeyError
    | Some pred_node => modify_graph (λ g, add_edge g pred_node node)
    end).

(** The merged output-key index of lines 166-186, without the membership
    check of line 177. *)
Definition merged_index (h : Heap) (self_graph : EntityGraph) (graph : option EntityGraph)
    (nodes_to_remove : list Node) : gmap Key Node :=
  index_original h nodes_to_remove (iter_nodes self_graph)
    (foldl (λ m node, add_outputs h node m) ∅
           (match graph with Some g => iter_nodes g | None => [] end)).

(** The sets [nodes_to_remove], [affected_successors] and [final_results] are
    iterated in list order; [list(final_results)] keeps the order of first
    insertion. Python leaves both orders open. *)
Definition _replace_subgraph (graph : option EntityGraph)
    (nodes_to_remove : option (list Node))
    (new_results results_to_remove : option (list Node)) : M World unit :=
  let* w := get in
  let h := w_heap w in
  let nodes_to_remove := default [] nodes_to_remove in
  let results_to_remove := default [] results_to_remove in
  let new_results := default [] new_results in
  let final_results :=
    remove_dups (filter (λ x, x ∉ (Some <$> results_to_remove)) (results (w_graph w))) in
  let* output_to_node := lift_result
    (match graph with
     | Some g => index_subgraph h nodes_to_remove (iter_nodes g) ∅
     | None => Ok ∅
     end) in
  let output_to_node :=
    index_original h nodes_to_remove (iter_nodes (w_graph w)) output_to_node in
  lift_result (check_new_results h output_to_node new_results) ;;;
  let final_results := remove_dups (final_results ++ (Some <$> new_results)) in
  let affected_successors := collect_affected (w_graph w) nodes_to_remove in
  lift_result (check_affected h output_to_node affected_successors) ;;;
  for_each nodes_to_remove (λ node, modify_graph (λ g, remove_node g node)) ;;;
  match graph with
  | None => ret tt
  | Some graph =>
      for_each (iter_nodes graph) (λ node, modify_graph (λ g, add_node g node)) ;;;
      for_each (iter_nodes graph ++ affected_successors) (connect_inputs h output_to_node) ;;;
      modify_graph (λ g, set_results g final_results)
  end.

(** ** Collapsible predecessors *)

(** [_preds_to_remove] is a [WeakKeyDictionary]: [None] cannot be a key, and
    storing or reading under it raises [TypeError], where [in] answers
    [False]. *)
Definition _add_collapsable_predecessor (fuel : nat) (node predecessor : Node)
  : M World unit :=
  let* w := get in
  let* pred_original := lift_result
    (get_original_entity fuel (w_records w) (Some predecessor) (Some predecessor)) in
  match w_preds_to_remove w !! predecessor with
  | None =>
      match pred_original with
      | None => raise TypeError
      | Some po => modify (with_preds_to_remove (<[po := [node]]> (w_preds_to_remove w)))
      end
  | Some _ =>
      match pred_original with
      | None => raise TypeError
      | Some po =>
          match w_preds_to_remove w !! po with
          | None => raise KeyError
          | Some s =>
              modify (with_preds_to_remove (<[po := set_add s node]> (w_preds_to_remove w)))
          end
      end
  end.

Definition remove_node_val (g : EntityGraph) (v : Val) : EntityGraph :=
  match v with Some n => remove_node g n | None => g end.

(** Lines 232-242 for one predecessor: the pair [(pred_original, pred_opt)]
    when it is to be removed. *)
Definition collapsable_pair (fuel : nat) (w : World) (pred : Node)
  : result (option (Val * Val)) :=
  rbind (get_original_entity fuel (w_records w) (Some pred) (Some pred)) (λ pred_original,
  rbind (get_optimization_result fuel (w_records w) (Some pred) (Some pred)) (λ pred_opt,
  if decide (pred_opt ∈ results (w_graph w) ∨ pred_original ∈ results (w_graph w))
  then Ok None
  else
    rbind (match pred_original with
           | None => Raise TypeError
           | Some po => Ok (default [] (w_preds_to_remove w !! po))
           end) (λ affect_succ,
    rbind (map_result (λ s, get_optimization_result fuel (w_records w) (Some s) (Some s))
                      affect_succ) (λ affect_succ_opt,
    if decide (Forall (λ s, Some s ∈ affect_succ_opt) (successors (w_graph w) pred))
    then Ok (Some (pred_original, pred_opt))
    else Ok None)))).

(** Lines 231-242. *)
Fixpoint collapsable_pairs (fuel : nat) (w : World) (preds : list Node)
  : result (list (Val * Val)) :=
  match preds with
  | [] => Ok []
  | pred :: rest =>
      rbind (collapsable_pair fuel w pred) (λ o,
      rbind (collapsable_pairs fuel w rest) (λ pairs,
      Ok (match o with Some p => p :: pairs | None => pairs end)))
  end.

Definition delete_pair (p : Val * Val) : M World unit :=
  modify_graph (λ g, remove_node_val g p.2) ;;;
  modify (λ w, with_records (append_record (w_records w) (mkRecord p.1 None delete)) w).

Definition _remove_collapsable_predecessors (fuel : nat) (node : Node) : M World unit :=
  let* w := get in
  let* r := lift_result (get_optimization_result fuel (w_records w) (Some node) None) in
  let node := py_or r node in
  let* preds_opt_to_remove := lift_result
    (collapsable_pairs fuel w (predecessors (w_graph w) node)) in
  for_each preds_opt_to_remove delete_pair.

(** ** OperandBasedOptimizationRule.apply *)

Definition lift_snd {T S A} (m : M S A) : M (T * S) A :=
  λ ts, let '(s', r) := m ts.2 in ((ts.1, s'), r).

(** The calls a run of [apply] makes to the methods of the concrete rule,
    and what [match_operand] answered when it returned. *)
Inductive Call :=
| MatchCall (o : Op)
| MatchReturn (o : Op) (m : bool)
| ApplyCall (o : Op).

Global Instance Call_eq_dec : EqDecision Call.
Proof. solve_decision. Defined.

Section OperandBasedOptimizationRule.
(** [Inst] holds the attributes a concrete rule class adds to the instance. *)
Context {Inst : Type}.

(** Modelled from the spec: the graph's deterministic topological iterator
    (mars/core/graph, not among the sources). *)
Variable topological_iter : EntityGraph → list Node.
(** [isinstance(op, tuple(self._rule_type_to_op_types[type(self)]))] *)
Variable isinstance_op_types : Op → bool.
Variable match_operand : Op → M (Inst * World) bool.
Variable apply_to_operand : Op → M (Inst * World) unit.

Definition log_call (c : Call) : M (list Call * (Inst * World)) unit :=
  modify (λ s, (s.1 ++ [c], s.2)).

(** The body of the [for] loop; the state carries the calls made so far. *)
Fixpoint apply_loop (entities : list Node) (visited : list Op) (optimized : bool)
  : M (list Call * (Inst * World)) bool :=
  match entities with
  | [] => ret optimized
  | entity :: rest =>
      let* s := get in
      let op := op (w_heap s.2.2 entity) in
      if decide (op ∈ visited) then apply_loop rest visited optimized
      else
        let visited := set_add visited op in
        if decide (entity ∈ nodes (w_graph s.2.2)) then
          if isinstance_op_types op then
            log_call (MatchCall op) ;;;
            let* m := lift_snd (match_operand op) in
            log_call (MatchReturn op m) ;;;
            if (m : bool) then
              log_call (ApplyCall op) ;;;
              lift_snd (apply_to_operand op) ;;;
              apply_loop rest visited true
            else apply_loop rest visited optimized
          else apply_loop rest visited optimized
        else apply_loop rest visited optimized
  end.

Definition apply_traced : M (list Call * (Inst * World)) bool :=
  let* s := get in
  apply_loop (topological_iter (w_graph s.2.2)) [] false.

Definition apply : M (Inst * World) bool :=
  λ s, let '(ts, r) := apply_traced ([], s) in (ts.2, r).
End OperandBasedOptimizationRule.

(** ** Optimizer *)

(** Lines 331-337: the resolved inputs and the flag [input_optimized]. *)
Fixpoint resolve_inputs (fuel : nat) (records : OptimizationRecords) (inps : list Node)
  : result (bool * list Node) :=
  match inps with
  | [] => Ok (false, [])
  | inp :: rest =>
      rbind (get_optimization_result fuel records (Some inp) None) (λ optimized,
      let optimized := py_or optimized inp in
      rbind (resolve_inputs fuel records rest) (λ r,
      Ok (bool_decide (optimized ≠ inp) || r.1, optimized :: r.2)))
  end.

(** Lines 329-339, for one successor. *)
Definition replace_inputs_of (fuel : nat) (succ : Node) : M World unit :=
  let* w := get in
  let* r := lift_result (resolve_inputs fuel (w_records w) (inputs (w_heap w succ))) in
  if r.1 then modify (λ w, with_heap (set_inputs (w_heap w) succ r.2) w)
  else ret tt.

Definition _replace_inputs (fuel : nat) : M World unit :=
  let* w := get in
  for_each (iter_nodes (w_graph w)) (λ node,
    for_each (successors (w_graph w) node) (replace_inputs_of fuel)).

Section Optimizer.
Context {RuleType Inst : Type} `{EqDecision RuleType}.

(** [_rule_type(graph, records, cls)]: the instance attributes beyond the
    graph and the records, which the instance shares with [optimize]. *)
Variable new_rule : RuleType → Inst.
Variable rule_apply : RuleType → M (Inst * World) bool.

(** Lines 366-371. *)
Definition recompute_results (fuel : nat) : M World unit :=
  let* w := get in
  let* new_results := lift_result
    (map_result (λ result, get_optimization_result fuel (w_records w) result result)
                (results (w_graph w))) in
  modify_graph (λ g, set_results g new_results).

(** The loop of lines 362-371; [cache] is the [lru_cache] of line 358. *)
Fixpoint optimize_loop (fuel : nat) (rule_types : list RuleType)
    (cache : RuleType → option Inst) : M World unit :=
  match rule_types with
  | [] => ret tt
  | rule_type :: rest =>
      let rule := default (new_rule rule_type) (cache rule_type) in
      λ w, match rule_apply rule_type (rule, w) with
           | ((rule', w'), Ok changed) =>
               ((if changed then _replace_inputs fuel ;;; recompute_results fuel
                 else ret tt) ;;;
                optimize_loop fuel rest
                  (λ t, if decide (t = rule_type) then Some rule' else cache t)) w'
           | ((_, w'), Raise e) => (w', Raise e)
           | ((_, w'), OutOfFuel) => (w', OutOfFuel)
           end
  end.

Definition optimize (fuel : nat) (rule_types : list RuleType)
  : M World OptimizationRecords :=
  modify (with_records empty_records) ;;;
  optimize_loop fuel rule_types (λ _, None) ;;;
  let* w := get in
  ret (w_records w).
End Optimizer.

(** ** _EvalRewriteOptimizationRule (arithmetic_query.py)

    The instance attribute is [_marked_nodes]. *)

Definition _mark_node (fuel : nat) (node : Node) : M (list Val * World) unit :=
  let* s := get in
  let* r := lift_result (get_optimization_result fuel (w_records s.2) (Some node) (Some node)) in
  modify (λ s, (set_add s.1 r, s.2)).

(** Lines 96-99: [all] stops at the first successor that is not marked. *)
Fixpoint all_marked (fuel : nat) (records : OptimizationRecords) (marked : list Val)
    (succs : list Node) : result bool :=
  match succs with
  | [] => Ok true
  | s :: rest =>
      rbind (get_optimization_result fuel records (Some s) (Some s)) (λ r,
      if decide (r ∈ marked) then all_marked fuel records marked rest else Ok false)
  end.

(** Lines 89-100. *)
Fixpoint removed_pairs (fuel : nat) (marked : list Val) (w : World) (preds : list Node)
  : result (list (Val * Val)) :=
  match preds with
  | [] => Ok []
  | pred :: rest =>
      rbind (get_original_entity fuel (w_records w) (Some pred) (Some pred)) (λ pred_original,
      rbind (get_optimization_result fuel (w_records w) (Some pred) (Some pred)) (λ pred_opt,
      rbind (if decide (pred_opt ∈ results (w_graph w) ∨ pred_original ∈ results (w_graph w))
             then Ok false
             else all_marked fuel (w_records w) marked (successors (w_graph w) pred)) (λ b,
      rbind (removed_pairs fuel marked w rest) (λ pairs,
      Ok (if (b : bool) then (pred_original, pred_opt) :: pairs else pairs)))))
  end.

Definition _find_nodes_to_remove (fuel : nat) (node : Node)
  : M (list Val * World) (list Val) :=
  let* s := get in
  let* r := lift_result (get_optimization_result fuel (w_records s.2) (Some node) None) in
  let node := py_or r node in
  let* pairs := lift_result (removed_pairs fuel s.1 s.2 (predecessors (w_graph s.2) node)) in
  for_each pairs (λ p,
    modify (λ s, (s.1, with_records (append_record (w_records s.2) (mkRecord p.1 None delete)) s.2))) ;;;
  ret (foldl set_add [Some node] (pairs.*2)).

(** * Vocabulary of the properties *)

(** ** The provenance store *)

(** The key under which [append_record] files a record in each index. *)
Definition fwd_key (r : OptimizationRecord) : option Val :=
  match record_type r with
  | replace | delete => Some (original_entity r)
  | new => None
  end.

Definition bwd_key (r : OptimizationRecord) : option Val :=
  match record_type r with
  | replace | new => Some (new_entity r)
  | delete => None
  end.

(** The forward chain of an entity meets a delete record, possibly after
    replace hops. *)
Inductive deleted_in_chain (idx : gmap Val OptimizationRecord) : Val → Prop :=
| chain_delete e r :
    idx !! e = Some r → record_type r = delete → deleted_in_chain idx e
| chain_replace e r :
    idx !! e = Some r → record_type r = replace →
    deleted_in_chain idx (new_entity r) → deleted_in_chain idx e.

(** Delete dominance as the spec words it: the deleted outcome is also
    distinct from the default. *)
Definition delete_dominance_distinct (s : OptimizationRecords) (A : Node) (d : Val) : Prop :=
  deleted_in_chain (_original_entity_to_records s) (Some A) →
  ∃ n, ∀ fuel, n ≤ fuel →
    get_optimization_result fuel s (Some A) d = Ok None ∧
    get_optimization_result fuel s (Some A) d ≠ Ok d.

(** Transitivity as the spec words it: the log holds a replace record from
    [A] to [B] and a later one from [B] to [C], and no record for [C] forward
    or for [A] backward. *)
Definition replace_transitive_as_worded (log : list OptimizationRecord) (A B C : Node)
    (d : Val) : Prop :=
  (∃ l1 l2 l3, log = l1 ++ mkRecord (Some A) (Some B) replace
                       :: l2 ++ mkRecord (Some B) (Some C) replace :: l3) →
  Forall (λ r, fwd_key r ≠ Some (Some C)) log →
  Forall (λ r, bwd_key r ≠ Some (Some A)) log →
  ∃ n, ∀ fuel, n ≤ fuel →
    get_optimization_result fuel (records_of_log log) (Some A) d = Ok (Some C) ∧
    get_original_entity fuel (records_of_log log) (Some C) d = Ok (Some A).

(** ** Subgraph replacement: checks, writes and preconditions *)

(** The checks of lines 174-203, which read the state and do not write it. *)
Definition validate (h : Heap) (self_graph : EntityGraph) (graph : option EntityGraph)
    (nodes_to_remove new_results : list Node) : result (gmap Key Node) :=
  rbind (match graph with
         | Some g => index_subgraph h nodes_to_remove (iter_nodes g) ∅
         | None => Ok ∅
         end) (λ m,
  let m := index_original h nodes_to_remove (iter_nodes self_graph) m in
  rbind (check_new_results h m new_results) (λ _,
  rbind (check_affected h m (collect_affected self_graph nodes_to_remove)) (λ _, Ok m))).

(** The writes of lines 205-219. *)
Definition commit (h : Heap) (graph : option EntityGraph) (nodes_to_remove : list Node)
    (final_results : list Val) (affected_successors : list Node)
    (output_to_node : gmap Key Node) : M World unit :=
  for_each nodes_to_remove (λ node, modify_graph (λ g, remove_node g node)) ;;;
  match graph with
  | None => ret tt
  | Some graph =>
      for_each (iter_nodes graph) (λ node, modify_graph (λ g, add_node g node)) ;;;
      for_each (iter_nodes graph ++ affected_successors) (connect_inputs h output_to_node) ;;;
      modify_graph (λ g, set_results g final_results)
  end.

Definition final_results_of (g : EntityGraph) (new_results results_to_remove : list Node)
  : list Val :=
  remove_dups
    (remove_dups (filter (λ x, x ∉ (Some <$> results_to_remove)) (results g))
     ++ (Some <$> new_results)).

(** An affected successor: a node that stays and consumes from a node that
    goes. *)
Definition affected_successor (g : EntityGraph) (nodes_to_remove : list Node) (s : Node) : Prop :=
  (s ∉ nodes_to_remove) ∧ ∃ n, n ∈ nodes_to_remove ∧ s ∈ successors g n.

(** The three preconditions of [_replace_subgraph], on the merged index. *)
Definition replacement_node_removed (graph : option EntityGraph) (nodes_to_remove : list Node)
  : Prop :=
  ∃ g node, graph = Some g ∧ node ∈ iter_nodes g ∧ node ∈ nodes_to_remove.

Definition new_result_without_producer (h : Heap) (idx : gmap Key Node)
    (new_results : list Node) : Prop :=
  ∃ result, result ∈ new_results ∧ idx !! key (h result) = None.

Definition affected_input_unresolved (h : Heap) (idx : gmap Key Node) (g : EntityGraph)
    (nodes_to_remove : list Node) : Prop :=
  ∃ s inp, affected_successor g nodes_to_remove s ∧ inp ∈ inputs (h s) ∧
           idx !! key (h inp) = None.

(** ** Concrete entities and graphs *)

(** In the examples entity [n] has key [n], operand [n] and the single output
    [n]; its inputs come from a table. *)
Definition heap_of (ins : list (Node * list Node)) : Heap :=
  λ n, mkEntity n n (default [] ((list_to_map ins : gmap Node (list Node)) !! n)) [n].

Definition world_of (g : EntityGraph) (ins : list (Node * list Node)) : World :=
  mkWorld g (heap_of ins) empty_records ∅.

(** P = 1 feeds Q = 2, a result; Q' = 3 reads P as well. *)
Definition w_PQ : World :=
  world_of (mkGraph [1; 2] [(1, 2)] [Some 2]) [(2, [1]); (3, [1])].

(** P = 1 feeds Q = 2; the successor Q of P has been accounted for. *)
Definition w_marked (rs : list Val) : World :=
  mkWorld (mkGraph [1; 2] [(1, 2)] rs) (heap_of [(2, [1])]) empty_records {[1 := [2]]}.

(** ** Calls made by [apply] *)

(** The operands [match_operand] and [apply_to_operand] were called on. *)
Definition match_ops (tr : list Call) : list Op :=
  omap (λ c, match c with MatchCall o => Some o | _ => None end) tr.

Definition apply_ops (tr : list Call) : list Op :=
  omap (λ c, match c with ApplyCall o => Some o | _ => None end) tr.




(** ** The repair of inputs and results *)

Definition is_Ok {A} (r : result A) : Prop :=
  match r with Ok _ => True | _ => False end.

(** What [_replace_inputs] puts in the place of an input: its forward
    resolution when that is an entity, the input itself when the resolution
    is [None] (no record for the input, or the input is deleted). *)
Definition fwd (fuel : nat) (records : OptimizationRecords) (inp : Node) : Node :=
  match get_optimization_result fuel records (Some inp) None with
  | Ok v => py_or v inp
  | _ => inp
  end.

(** What [optimize] puts in the place of a result. *)
Definition fwd_result (fuel : nat) (records : OptimizationRecords) (r : Val) : Val :=
  match get_optimization_result fuel records r r with
  | Ok v => v
  | _ => r
  end.

(** The nodes whose inputs [_replace_inputs] visits: the successors of the
    nodes of the graph. *)
Definition visited_successors (g : EntityGraph) : list Node :=
  iter_nodes g ≫= successors g.

(** Heap [h'] is heap [h] with the inputs of the nodes in [V] resolved. *)
Definition inputs_resolved (fuel : nat) (records : OptimizationRecords) (V : list Node)
    (h h' : Heap) : Prop :=
  ∀ s, key (h' s) = key (h s) ∧ op (h' s) = op (h s) ∧ outputs (h' s) = outputs (h s) ∧
       inputs (h' s) = if decide (s ∈ V) then fwd fuel records <$> inputs (h s)
                       else inputs (h s).

Definition same_but_heap (w w' : World) : Prop :=
  w_graph w' = w_graph w ∧ w_records w' = w_records w ∧
  w_preds_to_remove w' = w_preds_to_remove w.

(** The world after the repair of lines 365-371, in terms of the world the
    rule left. *)
Definition repaired (fuel : nat) (w w' : World) : Prop :=
  nodes (w_graph w') = nodes (w_graph w) ∧
  edges (w_graph w') = edges (w_graph w) ∧
  results (w_graph w') = fwd_result fuel (w_records w) <$> results (w_graph w) ∧
  w_records w' = w_records w ∧
  w_preds_to_remove w' = w_preds_to_remove w ∧
  inputs_resolved fuel (w_records w) (visited_successors (w_graph w)) (w_heap w) (w_heap w').

(** ** Rules for the examples, and state across calls *)

(** P = 1 and T = 3 feed Q = 2, the only result. The rule accounts for the
    consumer Q of P, prunes the collapsible predecessors of Q and reports a
    change: P is removed and recorded as deleted, Q stays and keeps P among
    its inputs. *)
Definition prune_rule (_ : unit) : M (unit * World) bool :=
  lift_snd (_add_collapsable_predecessor 3 2 1) ;;;
  lift_snd (_remove_collapsable_predecessors 3 2) ;;;
  ret true.

Definition w_PTQ : World :=
  world_of (mkGraph [1; 3; 2] [(1, 2); (3, 2)] [Some 2]) [(2, [1; 3])].

(** The rule prunes the collapsible predecessors of Q = 2 and then accounts
    for the consumer Q of P = 1. *)
Definition prune_then_mark_rule (_ : unit) : M (unit * World) bool :=
  lift_snd (_remove_collapsable_predecessors 3 2) ;;;
  lift_snd (_add_collapsable_predecessor 3 2 1) ;;;
  ret false.

(** A rule that takes node 1 out of the graph and puts node 5 in, records
    the replacement and reports a change. It adds no edge: a consumer of 1
    stays in the graph without a predecessor. *)
Definition unlink_rule (_ : unit) : M (unit * World) bool :=
  modify (λ s, (s.1, with_records (append_record (w_records s.2)
                                     (mkRecord (Some 1) (Some 5) replace))
                       (with_graph (add_node (remove_node (w_graph s.2) 1) 5) s.2))) ;;;
  ret true.

(** A rule that records 1 as replaced by 5 and 5 as replaced by 1, and
    reports a change. *)
Definition cycle_rule (_ : unit) : M (unit * World) bool :=
  modify (λ s, (s.1, with_records
                       (append_record
                          (append_record (w_records s.2) (mkRecord (Some 1) (Some 5) replace))
                          (mkRecord (Some 5) (Some 1) replace)) s.2)) ;;;
  ret true.

(** A computation that neither reads nor writes [_preds_to_remove]: run with
    another dictionary, it does the same and leaves that dictionary. *)
Definition frames {A} (p : gmap Node (list Node)) (m : M World A) : Prop :=
  ∀ w, m (with_preds_to_remove p w) = (with_preds_to_remove p (m w).1, (m w).2).

Definition ignores_preds_to_remove {RuleType Inst}
    (rule_apply : RuleType → M (Inst * World) bool) : Prop :=
  ∀ rule_type rule w p,
    rule_apply rule_type (rule, with_preds_to_remove p w) =
    let r := rule_apply rule_type (rule, w) in
    ((r.1.1, with_preds_to_remove p r.1.2), r.2).

(** A rule that removes node 1 from the graph, records the deletion and
    reports a change, without a look at [_preds_to_remove]. *)
Definition remove_rule (_ : unit) : M (unit * World) bool :=
  modify (λ s, (s.1, with_records (append_record (w_records s.2) (mkRecord (Some 1) None delete))
                       (with_graph (remove_node (w_graph s.2) 1) s.2))) ;;;
  ret true.

(** * More of the code *)

(** ** OptimizationRule._replace_node *)

(** [predecessors] and [successors] are read before the node is removed. *)
Definition _replace_node (original_node new_node : Node) : M World unit :=
  let* w := get in
  let preds := predecessors (w_graph w) original_node in
  let succs := successors (w_graph w) original_node in
  modify_graph (λ g, remove_node g original_node) ;;;
  modify_graph (λ g, add_node g new_node) ;;;
  for_each preds (λ pred, modify_graph (λ g, add_edge g pred new_node)) ;;;
  for_each succs (λ succ, modify_graph (λ g, add_edge g new_node succ)).

(** ** _EvalRewriteOptimizationRule._replace_with_new_node (arithmetic_query.py)

    Modelled from the spec: [TileableGraph()] makes an empty graph. The set
    that [_find_nodes_to_remove] returns can hold [None] (the optimized form
    of a predecessor that the store has as deleted); [None] is no node of the
    graph, so the entities of the set are what is handed on as nodes to
    remove. *)
Definition _replace_with_new_node (fuel : nat) (original_node new_node : Node)
  : M (list Val * World) unit :=
  let subgraph := add_node (mkGraph [] [] []) new_node in
  _mark_node fuel original_node ;;;
  let* nodes_to_remove := _find_nodes_to_remove fuel original_node in
  let* s := get in
  let in_results := bool_decide (Some original_node ∈ results (w_graph s.2)) in
  let results_to_remove := if in_results then [original_node] else [] in
  let new_results := if in_results then [new_node] else [] in
  lift_snd (_replace_subgraph (Some subgraph) (Some (omap id nodes_to_remove))
                              (Some new_results) (Some results_to_remove)) ;;;
  modify (λ s, (s.1, with_records
                       (append_record (w_records s.2)
                          (mkRecord (Some original_node) (Some new_node) replace)) s.2)).

(** ** OperandBasedOptimizationRule.register_operand

    [_rule_type_to_op_types] is a [defaultdict(set)] from rule classes to
    sets of operand classes. The two Python builtins that the registration
    and the test of [apply] use are parameters: [op_type.__subclasses__()],
    the direct subclasses of a class, and the method resolution order of a
    class, which holds the class and all its ancestors and which
    [isinstance] searches. *)

Section OperandRegistration.
Context {RuleType OpClass : Type} `{Countable RuleType} `{EqDecision OpClass}.
Variable subclasses : OpClass → list OpClass.
Variable mro : OpClass → list OpClass.

(** [cls._rule_type_to_op_types[cls].add(op_type)] *)
Definition add_op_type (cls : RuleType) (d : gmap RuleType (list OpClass))
    (op_type : OpClass) : gmap RuleType (list OpClass) :=
  <[cls := set_add (default [] (d !! cls)) op_type]> d.

(** Lines 310-313. *)
Definition register_operand (cls : RuleType) (op_type : OpClass)
    (d : gmap RuleType (list OpClass)) : gmap RuleType (list OpClass) :=
  foldl (add_op_type cls) (add_op_type cls d op_type) (subclasses op_type).

(** [isinstance(op, tuple(op_types))] for an operand of class [c]. *)
Definition isinstance (c : OpClass) (op_types : list OpClass) : bool :=
  existsb (λ t, bool_decide (t ∈ mro c)) op_types.

(** Line 273-274: the test [apply] makes for a rule of class [cls]. *)
Definition of_interest (d : gmap RuleType (list OpClass)) (cls : RuleType) (c : OpClass)
  : bool :=
  isinstance c (default [] (d !! cls)).
End OperandRegistration.

(** ** SeriesArithmeticToEval: the extraction of an expression (arithmetic_query.py)

    The objects that [_extract_eval_expression] is called on, told apart by
    the tests of lines 185-194: a scalar of one of the types whose [repr] is
    put into the expression, any other scalar, an object that is neither a
    scalar nor an entity, and an entity. *)

Inductive PyObj :=
| Literal (repr : string)
| Scalar (v : nat)
| NotEntity
| Tileable (n : Node).

Record EvalExtractRecord := mkExtractRecord {
  tileable : option Node;
  expr : option string;
  variables : option (gmap string nat)
}.

(** [EvalExtractRecord()] *)
Definition no_record : EvalExtractRecord := mkExtractRecord None None None.

(** The exceptions of the extraction beside those of core.py. *)
Inductive xexn :=
| StopIteration
| IndexError
| PyExn (e : exn).

Inductive xresult (A : Type) :=
| XOk (a : A)
| XRaise (e : xexn)
| XOutOfFuel.
Arguments XOk {A} a.
Arguments XRaise {A} e.
Arguments XOutOfFuel {A}.

Definition XM (S A : Type) : Type := S → S * xresult A.

Definition xret {S A} (a : A) : XM S A := λ s, (s, XOk a).
Definition xraise {S A} (e : xexn) : XM S A := λ s, (s, XRaise e).
Definition xbind {S A B} (m : XM S A) (k : A → XM S B) : XM S B :=
  λ s, match m s with
       | (s', XOk a) => k a s'
       | (s', XRaise e) => (s', XRaise e)
       | (s', XOutOfFuel) => (s', XOutOfFuel)
       end.
Definition xget {S} : XM S S := λ s, (s, XOk s).
Definition xmodify {S} (f : S → S) : XM S unit := λ s, (f s, XOk tt).

Notation "'let+' x := m 'in' k" := (xbind m (λ x, k))
  (at level 10, x name, m at level 200, k at level 200, only parsing).
Notation "m ;;+ k" := (xbind m (λ _, k))
  (at level 100, k at level 200, only parsing, right associativity).

(** The state of an extraction: the module's [_extract_result_cache], the
    class attribute [_var_counter], and the rule instance ([_marked_nodes]
    with the graph, the entities and the records). *)
Record ExtractState := mkExtractState {
  _extract_result_cache : gmap Node EvalExtractRecord;
  _var_counter : nat;
  x_rule : list Val * World
}.

Definition with_cache (c : gmap Node EvalExtractRecord) (s : ExtractState) : ExtractState :=
  mkExtractState c (_var_counter s) (x_rule s).
Definition with_rule (i : list Val * World) (s : ExtractState) : ExtractState :=
  mkExtractState (_extract_result_cache s) (_var_counter s) i.

(** A method of the rule instance, run inside an extraction. *)
Definition of_rule {A} (m : M (list Val * World) A) : XM ExtractState A :=
  λ s, let '(i, r) := m (x_rule s) in
       (with_rule i s,
        match r with
        | Ok a => XOk a
        | Raise e => XRaise (PyExn e)
        | OutOfFuel => XOutOfFuel
        end).

(** Lines 42-67: the builders. [Binop op_str] is [_get_binop_builder(op_str)],
    [Unop prefix] one of the two lambdas. *)
Inductive Builder :=
| Binop (op_str : string)
| Unop (prefix : string).

Definition _func_name_to_builder : gmap string Builder :=
  list_to_map
    [("add", Binop "+"); ("sub", Binop "-"); ("mul", Binop "*");
     ("floordiv", Binop "//"); ("truediv", Binop "/"); ("pow", Binop "**");
     ("eq", Binop "=="); ("ne", Binop "!="); ("lt", Binop "<"); ("le", Binop "<=");
     ("gt", Binop ">"); ("ge", Binop ">="); ("__and__", Binop "&");
     ("__or__", Binop "|"); ("__xor__", Binop "^");
     ("negative", Unop "-"); ("__invert__", Unop "~")]%string.

(** [builder(expr)]: a builder made by [_get_binop_builder] takes two
    arguments. *)
Definition call_builder1 (b : Builder) (e : string) : result string :=
  match b with
  | Unop prefix => Ok (prefix +:+ "(" +:+ e +:+ ")")
  | Binop _ => Raise TypeError
  end.

(** [builder(lhs_expr, rhs_expr)]: the two lambdas take one argument. *)
Definition call_builder2 (b : Builder) (l r : string) : result string :=
  match b with
  | Binop op_str => Ok ("(" +:+ l +:+ ") " +:+ op_str +:+ " (" +:+ r +:+ ")")
  | Unop _ => Raise TypeError
  end.

Definition of_result {S A} (r : result A) : XM S A :=
  λ s, (s, match r with
           | Ok a => XOk a
           | Raise e => XRaise (PyExn e)
           | OutOfFuel => XOutOfFuel
           end).

(** [str(expr)] inside an f-string, for an expression that may be [None]. *)
Definition py_str (e : option string) : string := default "None"%string e.

Section SeriesArithmeticToEval.
(** What the extraction reads of an entity and its operand through classes
    that are not among the sources: the static test of lines 159-182, the
    [isinstance] tests of lines 201 and 203, and attributes of the operand. *)
Variable _is_select_dataframe_column : Node → bool.
Variable col_names : Node → string.
Variable isinstance_DataFrameUnaryUfunc : Node → bool.
Variable isinstance_DataFrameBinopUfunc : Node → bool.
Variable fill_value_or_level : Node → bool.
Variable func_name : Node → string.
Variable lhs rhs : Node → PyObj.
Variable gpu : Op → bool.
Variable op_outputs : Op → list Node.

(** Lines 147-150. *)
Definition _next_var_id : XM ExtractState nat :=
  xmodify (λ s, mkExtractState (_extract_result_cache s) (S (_var_counter s)) (x_rule s)) ;;+
  let+ s := xget in
  xret (_var_counter s).

(** [x.inputs[0]]; the inputs of an entity are those of its operand. *)
Definition first_input (n : Node) : XM ExtractState Node :=
  let+ s := xget in
  match inputs (w_heap (x_rule s).2 n) with
  | [] => xraise IndexError
  | inp :: _ => xret inp
  end.

(** Lines 214-216. *)
Definition _extract_column_select (n : Node) : XM ExtractState EvalExtractRecord :=
  let+ input_df := first_input n in
  xret (mkExtractRecord (Some input_df) (Some ("`" +:+ col_names n +:+ "`")%string) None).

(** [self._mark_node(x)] for an object [x]. An object that is no entity is
    never marked: lines 225-228 and 240-244 mark an operand only when its
    extraction has given a tileable, which no scalar has. *)
Definition mark (rfuel : nat) (x : PyObj) : XM ExtractState unit :=
  match x with
  | Tileable n => of_rule (_mark_node rfuel n)
  | _ => xret tt
  end.

(** Lines 218-231; [extract] is the recursive call of
    [_extract_eval_expression]. *)
Definition _extract_unary (rfuel : nat)
    (extract : PyObj → XM ExtractState EvalExtractRecord) (n : Node)
  : XM ExtractState EvalExtractRecord :=
  match _func_name_to_builder !! func_name n with
  | None => xret no_record
  | Some builder =>
      let+ input := first_input n in
      let+ r := extract (Tileable input) in
      match tileable r with
      | None => xret no_record
      | Some in_tileable =>
          mark rfuel (Tileable input) ;;+
          let+ e := of_result (call_builder1 builder (py_str (expr r))) in
          xret (mkExtractRecord (Some in_tileable) (Some e) (variables r))
      end
  end.

(** Lines 233-260. *)
Definition _extract_binary (rfuel : nat)
    (extract : PyObj → XM ExtractState EvalExtractRecord) (n : Node)
  : XM ExtractState EvalExtractRecord :=
  match _func_name_to_builder !! func_name n with
  | None => xret no_record
  | Some builder =>
      let+ l := extract (lhs n) in
      (if tileable l is Some _ then mark rfuel (lhs n) else xret tt) ;;+
      let+ r := extract (rhs n) in
      (if tileable r is Some _ then mark rfuel (rhs n) else xret tt) ;;+
      let+ s := xget in
      let h := w_heap (x_rule s).2 in
      match expr l, expr r with
      | Some lhs_expr, Some rhs_expr =>
          if match tileable l, tileable r with
             | Some lt, Some rt => bool_decide (key (h lt) ≠ key (h rt))
             | _, _ => false
             end
          then xret no_record
          else
            let vars := default ∅ (variables r) ∪ default ∅ (variables l) in
            let+ in_tileable :=
              match tileable l, tileable r with
              | Some t, _ => xret t
              | None, Some t => xret t
              | None, None => xraise StopIteration
              end in
            let+ e := of_result (call_builder2 builder lhs_expr rhs_expr) in
            xret (mkExtractRecord (Some in_tileable) (Some e) (Some vars))
      | _, _ => xret no_record
      end
  end.

(** Lines 184-212. [fuel] bounds the depth of the recursion, [rfuel] the
    loops of the resolutions that [_mark_node] asks for. *)
Fixpoint _extract_eval_expression (rfuel fuel : nat) (x : PyObj)
  : XM ExtractState EvalExtractRecord :=
  match fuel with
  | 0 => λ s, (s, XOutOfFuel)
  | S fuel' =>
      match x with
      | Literal repr => xret (mkExtractRecord None (Some repr) None)
      | Scalar v =>
          let+ id := _next_var_id in
          let var_name := ("__eval_scalar_var" +:+ pretty id)%string in
          xret (mkExtractRecord None (Some ("@" +:+ var_name)%string)
                                (Some {[var_name := v]}))
      | NotEntity => xret no_record
      | Tileable n =>
          let+ s := xget in
          match _extract_result_cache s !! n with
          | Some r => xret r
          | None =>
              let+ result :=
                if _is_select_dataframe_column n then _extract_column_select n
                else if isinstance_DataFrameUnaryUfunc n then
                  _extract_unary rfuel (_extract_eval_expression rfuel fuel') n
                else if isinstance_DataFrameBinopUfunc n then
                  if fill_value_or_level n then xret no_record
                  else _extract_binary rfuel (_extract_eval_expression rfuel fuel') n
                else xret no_record in
              xmodify (λ s, with_cache (<[n := result]> (_extract_result_cache s)) s) ;;+
              xret result
          end
      end
  end.

(** Lines 152-157. *)
Definition match_operand (rfuel fuel : nat) (o : Op) : XM ExtractState bool :=
  if gpu o then xret false
  else
    match op_outputs o with
    | [] => xraise IndexError
    | output :: _ =>
        let+ r := _extract_eval_expression rfuel fuel (Tileable output) in
        xret (bool_decide (expr r ≠ None))
    end.

(** Modelled from the spec: [DataFrameEval(...).new_tileable(...).data]
    (mars/dataframe, not among the sources) makes the node that stands for
    the expression; which entity it is, for a node, an expression with its
    variables and an input, is a parameter. *)
Variable new_tileable : Node → option string → option (gmap string nat) → Val → Node.

(** Lines 262-282. *)
Definition apply_to_operand (rfuel fuel : nat) (o : Op) : XM ExtractState unit :=
  match op_outputs o with
  | [] => xraise IndexError
  | node :: _ =>
      let+ r := _extract_eval_expression rfuel fuel (Tileable node) in
      let+ s := xget in
      let+ opt_in_tileable :=
        of_result (get_optimization_result rfuel (w_records (x_rule s).2)
                                           (tileable r) (tileable r)) in
      let new_node := new_tileable node (expr r) (variables r) opt_in_tileable in
      of_rule (_replace_with_new_node rfuel node new_node)
  end.
End SeriesArithmeticToEval.

(** ** More vocabulary for the provenance store *)

(** What [append_record] keeps true of the two indices: a record is filed
    under its own key. *)
Definition index_wf (s : OptimizationRecords) : Prop :=
  (∀ k r, _original_entity_to_records s !! k = Some r → fwd_key r = Some k) ∧
  (∀ k r, _optimized_entity_to_records s !! k = Some r → bwd_key r = Some k).

(** One replace hop of the forward walk. *)
Definition replaced_by (idx : gmap Val OptimizationRecord) (e e' : Val) : Prop :=
  ∃ r, idx !! e = Some r ∧ record_type r = replace ∧ new_entity r = e'.

(** Every replace record of the log names a replacement that no record up to
    and including it is filed under as original: a rule replaces by an entity
    it has just made. *)
Definition fresh_replacements (log : list OptimizationRecord) : Prop :=
  ∀ l1 r l2, log = l1 ++ r :: l2 → record_type r = replace →
    Forall (λ r', fwd_key r' ≠ Some (new_entity r)) (l1 ++ [r]).

(** ** More vocabulary for subgraph replacement *)

(** A node of the replacement graph reads a key that the merged index does
    not hold. *)
Definition replacement_input_unresolved (h : Heap) (idx : gmap Key Node)
    (graph : option EntityGraph) : Prop :=
  ∃ g node inp, graph = Some g ∧ node ∈ iter_nodes g ∧ inp ∈ inputs (h node) ∧
                idx !! key (h inp) = None.

(** The edges that lines 214-217 ask for: from the producer of each input
    key to the node that reads it. *)
Definition input_edges (h : Heap) (idx : gmap Key Node) (ns : list Node)
  : list (Node * Node) :=
  ns ≫= λ node, omap (λ inp, (λ p, (p, node)) <$> idx !! key (h inp)) (inputs (h node)).

(** ** More vocabulary for collapsible predecessors *)

(** What lines 232-242 have found true of a predecessor they put on the
    removal list. *)
Definition collapsable (fuel : nat) (w : World) (pred : Node) (p : Val * Val) : Prop :=
  get_original_entity fuel (w_records w) (Some pred) (Some pred) = Ok p.1 ∧
  get_optimization_result fuel (w_records w) (Some pred) (Some pred) = Ok p.2 ∧
  (p.1 ∉ results (w_graph w)) ∧ (p.2 ∉ results (w_graph w)) ∧
  ∃ po, p.1 = Some po ∧
    Forall (λ s, ∃ a, a ∈ default [] (w_preds_to_remove w !! po) ∧
                      get_optimization_result fuel (w_records w) (Some a) (Some a)
                        = Ok (Some s))
           (successors (w_graph w) pred).

(** What lines 90-100 of arithmetic_query.py have found true of a
    predecessor whose optimized form they add to the nodes to remove. *)
Definition removable (fuel : nat) (marked : list Val) (w : World) (pred : Node)
    (p : Val * Val) : Prop :=
  get_original_entity fuel (w_records w) (Some pred) (Some pred) = Ok p.1 ∧
  get_optimization_result fuel (w_records w) (Some pred) (Some pred) = Ok p.2 ∧
  (p.1 ∉ results (w_graph w)) ∧ (p.2 ∉ results (w_graph w)) ∧
  all_marked fuel (w_records w) marked (successors (w_graph w) pred) = Ok true.

(** ** More vocabulary for operand dispatch *)

(** What holds of the calls made so far: [apply_to_operand] only after
    [match_operand] on the same operand, and [match_operand] only on operands
    of a registered type. *)
Definition calls_ok (isinstance_op_types : Op → bool) (tr : list Call) : Prop :=
  (∀ o, o ∈ apply_ops tr → o ∈ match_ops tr) ∧
  (∀ o, o ∈ match_ops tr → isinstance_op_types o = true).

(** ** A dataframe pipeline for the examples *)

(** D = 1 feeds the column P = 2, P feeds the sum Q = 3, Q feeds R = 5, the
    result. Q' = 4 is to stand for Q: it has the key of Q and reads D. *)
Definition w_pipeline (key_of_new : Key) : World :=
  mkWorld (mkGraph [1; 2; 3; 5] [(1, 2); (2, 3); (3, 5)] [Some 5])
          (λ n, mkEntity (if decide (n = 4) then key_of_new else n) n
                         (default [] (({[2 := [1]; 3 := [2]; 5 := [3]; 4 := [1]]}
                                        : gmap Node (list Node)) !! n))
                         [n])
          empty_records ∅.

(** ** More vocabulary for the optimizer *)

(** A rule that writes the store with [append_record] keeps what
    [append_record] keeps true of the indices. *)
Definition keeps_index_wf {RuleType Inst}
    (rule_apply : RuleType → M (Inst * World) bool) : Prop :=
  ∀ rule_type rule w, index_wf (w_records w) →
    index_wf (w_records (rule_apply rule_type (rule, w)).1.2).



(** ** Operand classes for the examples *)

(** [BinopUfunc] is a direct subclass of [Ufunc], [AddUfunc] one of
    [BinopUfunc]; [IndexOp] stands alone. *)
Inductive ExampleClass := Ufunc | BinopUfunc | AddUfunc | IndexOp.

#[global] Instance ExampleClass_eq_dec : EqDecision ExampleClass.
Proof. solve_decision. Defined.

Definition example_subclasses (c : ExampleClass) : list ExampleClass :=
  match c with
  | Ufunc => [BinopUfunc]
  | BinopUfunc => [AddUfunc]
  | _ => []
  end.

Definition example_mro (c : ExampleClass) : list ExampleClass :=
  match c with
  | Ufunc => [Ufunc]
  | BinopUfunc => [BinopUfunc; Ufunc]
  | AddUfunc => [AddUfunc; BinopUfunc; Ufunc]
  | IndexOp => [IndexOp]
  end.

(** ** Vocabulary for the extraction of expressions *)

(** An extraction record of an entity has an expression exactly if it has a
    tileable. *)
Definition record_ok (r : EvalExtractRecord) : Prop :=
  tileable r = None ↔ expr r = None.

Definition cache_ok (c : gmap Node EvalExtractRecord) : Prop :=
  ∀ n r, c !! n = Some r → record_ok r.

(** What an extraction leaves as it was: the world of the rule, the marks
    and the cache entries that were there, and the counter does not go
    back. *)
Definition extends (s s' : ExtractState) : Prop :=
  (x_rule s').2 = (x_rule s).2 ∧
  (∀ m, m ∈ (x_rule s).1 → m ∈ (x_rule s').1) ∧
  _var_counter s ≤ _var_counter s' ∧
  (∀ k rk, _extract_result_cache s !! k = Some rk →
           _extract_result_cache s' !! k = Some rk).

(** The record of an entity is in the cache. *)
Definition cached_of (x : PyObj) (s : ExtractState) (r : EvalExtractRecord) : Prop :=
  match x with
  | Tileable n => _extract_result_cache s !! n = Some r
  | _ => True
  end.

Section ExtractionVocabulary.
Variable _is_select_dataframe_column : Node → bool.
Variable isinstance_DataFrameUnaryUfunc : Node → bool.
Variable isinstance_DataFrameBinopUfunc : Node → bool.
Variable lhs rhs : Node → PyObj.

(** [column_of h n df]: the expression of the entity [n] selects a column of
    the dataframe [df], at [n] itself or below one of its operands. *)
Inductive column_of (h : Heap) : Node → Node → Prop :=
| column_here n df rest :
    _is_select_dataframe_column n = true →
    inputs (h n) = df :: rest →
    column_of h n df
| column_unary n a rest df :
    _is_select_dataframe_column n = false →
    isinstance_DataFrameUnaryUfunc n = true →
    inputs (h n) = a :: rest →
    column_of h a df →
    column_of h n df
| column_lhs n a df :
    _is_select_dataframe_column n = false →
    isinstance_DataFrameUnaryUfunc n = false →
    isinstance_DataFrameBinopUfunc n = true →
    lhs n = Tileable a →
    column_of h a df →
    column_of h n df
| column_rhs n a df :
    _is_select_dataframe_column n = false →
    isinstance_DataFrameUnaryUfunc n = false →
    isinstance_DataFrameBinopUfunc n = true →
    rhs n = Tileable a →
    column_of h a df →
    column_of h n df.

(** The tileable of a record has the key of every dataframe that the
    expression of the entity selects a column of. *)
Definition one_source (h : Heap) (n : Node) (r : EvalExtractRecord) : Prop :=
  ∀ t df, tileable r = Some t → column_of h n df → key (h df) = key (h t).

Definition cache_sourced (h : Heap) (c : gmap Node EvalExtractRecord) : Prop :=
  ∀ n r, c !! n = Some r → one_source h n r.

(** What a returned record is like, by the object that was extracted. *)
Definition record_of (x : PyObj) (r : EvalExtractRecord) : Prop :=
  match x with
  | Tileable _ => record_ok r
  | NotEntity => r = no_record
  | Literal _ | Scalar _ => tileable r = None ∧ is_Some (expr r)
  end.

Definition sourced_of (h : Heap) (x : PyObj) (r : EvalExtractRecord) : Prop :=
  match x with
  | Tileable n => one_source h n r
  | _ => True
  end.

(** What a returning extraction of [x] from the state [s] has done. *)
Definition extract_post (x : PyObj) (s s' : ExtractState) (r : EvalExtractRecord)
  : Prop :=
  let h := w_heap (x_rule s).2 in
  extends s s' ∧ cached_of x s' r ∧
  (cache_ok (_extract_result_cache s) →
   cache_ok (_extract_result_cache s') ∧ record_of x r ∧
   (cache_sourced h (_extract_result_cache s) →
    cache_sourced h (_extract_result_cache s') ∧ sourced_of h x r)).
End ExtractionVocabulary.

(** The scalars: the objects whose extraction gives an expression and no
    tileable. *)
Definition is_scalar (x : PyObj) : Prop :=
  match x with
  | Literal _ | Scalar _ => True
  | _ => False
  end.

(** ** A dataframe with two columns for the examples *)

(** The dataframes 1 and 5; 2 and 3 select the columns a and b of 1, 6
    selects a column of 5; 4 = 2 + 3, 7 = 2 + 6, 8 = -4, 9 = 4 * x for a
    scalar x, 10 = 1 + x. *)
Definition x_heap : Heap :=
  λ n, mkEntity n n
         (default [] (({[2 := [1]; 3 := [1]; 4 := [2; 3]; 6 := [5]; 7 := [2; 6]; 8 := [4];
                         9 := [4]]} : gmap Node (list Node)) !! n))
         [n].

Definition x_state : ExtractState :=
  mkExtractState ∅ 0
    ([], mkWorld (mkGraph [1; 2; 3; 4] [(1, 2); (1, 3); (2, 4); (3, 4)] [Some 4])
                 x_heap empty_records ∅).

Definition x_is_select (n : Node) : bool := bool_decide (n ∈ [2; 3; 6]).
Definition x_col_names (n : Node) : string := if decide (n = 2) then "a" else "b".
Definition x_is_unary (n : Node) : bool := bool_decide (n = 8).
Definition x_is_binop (n : Node) : bool := bool_decide (n ∈ [4; 7; 9; 10]).
Definition x_func_name (n : Node) : string :=
  if decide (n = 8) then "negative" else if decide (n = 9) then "mul" else "add".
Definition x_lhs (n : Node) : PyObj :=
  if decide (n = 4) then Tileable 2 else if decide (n = 7) then Tileable 2
  else if decide (n = 9) then Tileable 4 else Literal "1".
Definition x_rhs (n : Node) : PyObj :=
  if decide (n = 4) then Tileable 3 else if decide (n = 7) then Tileable 6 else Scalar 42.

Definition x_extract : nat → nat → PyObj → XM ExtractState EvalExtractRecord :=
  _extract_eval_expression x_is_select x_col_names x_is_unary x_is_binop (λ _, false)
                           x_func_name x_lhs x_rhs.

(** The same entities when the dataframes 1 and 5 are two objects with one
    key: 7 = 2 + 6 then adds columns of two dataframes that agree in their
    keys. *)
Definition x_heap_twins : Heap :=
  λ n, mkEntity (if decide (n = 5) then key (x_heap 1) else key (x_heap n))
                (op (x_heap n)) (inputs (x_heap n)) (outputs (x_heap n)).

Definition x_state_twins : ExtractState :=
  mkExtractState ∅ 0
    ([], mkWorld (mkGraph [1; 5; 2; 6; 7] [(1, 2); (5, 6); (2, 7); (6, 7)] [Some 7])
                 x_heap_twins empty_records ∅).

(** ** Optimizer.optimize and the state that outlives a call

    What is there before a call of [optimize] and after it, beside the
    graph and the entities: the class attribute [_preds_to_remove] of
    core.py, which the world holds, and the module-level and class-level
    variables of the modules of the rules, of type [G] here (in
    arithmetic_query.py the module-level [_extract_result_cache] and the
    class attribute [_var_counter]). [optimize_in_process] is [optimize]
    for rules whose methods read and write such variables and raise the
    exceptions of their modules. *)

Definition of_core {G A} (m : M World A) : XM (G * World) A :=
  λ s, let '(w, r) := m s.2 in
       ((s.1, w),
        match r with
        | Ok a => XOk a
        | Raise e => XRaise (PyExn e)
        | OutOfFuel => XOutOfFuel
        end).

(** A rule of core.py, which knows the world only, as a rule of the
    process. *)
Definition rule_of_core {G Inst} (m : M (Inst * World) bool) : XM (Inst * (G * World)) bool :=
  λ s, let '(iw, r) := m (s.1, s.2.2) in
       ((iw.1, (s.2.1, iw.2)),
        match r with
        | Ok a => XOk a
        | Raise e => XRaise (PyExn e)
        | OutOfFuel => XOutOfFuel
        end).

Section OptimizerInProcess.
Context {RuleType Inst G : Type} `{EqDecision RuleType}.
Variable new_rule : RuleType → Inst.
Variable rule_apply : RuleType → XM (Inst * (G * World)) bool.

(** The loop of lines 362-371. *)
Fixpoint optimize_loop_in_process (fuel : nat) (rule_types : list RuleType)
    (cache : RuleType → option Inst) : XM (G * World) unit :=
  match rule_types with
  | [] => xret tt
  | rule_type :: rest =>
      let rule := default (new_rule rule_type) (cache rule_type) in
      λ s, match rule_apply rule_type (rule, s) with
           | ((rule', s'), XOk changed) =>
               ((if changed then of_core (_replace_inputs fuel ;;; recompute_results fuel)
                 else xret tt) ;;+
                optimize_loop_in_process fuel rest
                  (λ t, if decide (t = rule_type) then Some rule' else cache t)) s'
           | ((_, s'), XRaise e) => (s', XRaise e)
           | ((_, s'), XOutOfFuel) => (s', XOutOfFuel)
           end
  end.

(** Lines 341-373. *)
Definition optimize_in_process (fuel : nat) (rule_types : list RuleType)
  : XM (G * World) OptimizationRecords :=
  of_core (modify (with_records empty_records)) ;;+
  optimize_loop_in_process fuel rule_types (λ _, None) ;;+
  let+ s := xget in
  xret (w_records s.2).
End OptimizerInProcess.

(** A rule whose methods neither read nor write what outlives a call: run
    with other module variables and another [_preds_to_remove], it does the
    same and leaves them as they are. *)
Definition ignores_surviving_state {RuleType Inst G}
    (rule_apply : RuleType → XM (Inst * (G * World)) bool) : Prop :=
  ∀ rule_type rule g w g' p,
    rule_apply rule_type (rule, (g', with_preds_to_remove p w)) =
    let r := rule_apply rule_type (rule, (g, w)) in
    ((r.1.1, (g', with_preds_to_remove p r.1.2.2)), r.2).

(** The same of a computation of the driver. *)
Definition frames_process {G A} (g' : G) (p : gmap Node (list Node)) (m : XM (G * World) A)
  : Prop :=
  ∀ g w, m (g', with_preds_to_remove p w) =
         ((g', with_preds_to_remove p (m (g, w)).1.2), (m (g, w)).2).

(** *** A rule in the manner of SeriesArithmeticToEval

    The module variables of arithmetic_query.py, and an instance of an eval
    rule (its [_marked_nodes]) with the process as the state of an
    extraction. *)
Definition ModuleState : Type := gmap Node EvalExtractRecord * nat.

Definition to_extract (s : list Val * (ModuleState * World)) : ExtractState :=
  mkExtractState s.2.1.1 s.2.1.2 (s.1, s.2.2).

Definition of_extract (x : ExtractState) : list Val * (ModuleState * World) :=
  ((x_rule x).1, ((_extract_result_cache x, _var_counter x), (x_rule x).2)).

Definition as_rule {A} (m : XM ExtractState A) : XM (list Val * (ModuleState * World)) A :=
  λ s, let '(x, r) := m (to_extract s) in (of_extract x, r).

(** The dataframe 1; 2 selects its column a; 5 = -2, an operand on a GPU;
    7 = 2 + 5, the result. 9 is the node that stands for the expression of
    7: it has the key of 7 and reads the dataframe. *)
Definition e_heap : Heap :=
  λ n, mkEntity (if decide (n = 9) then 7 else n) n
         (default [] (({[2 := [1]; 5 := [2]; 7 := [2; 5]; 9 := [1]]}
                         : gmap Node (list Node)) !! n))
         [n].

Definition e_world : World :=
  mkWorld (mkGraph [1; 2; 5; 7] [(1, 2); (2, 5); (2, 7); (5, 7)] [Some 7])
          e_heap empty_records ∅.

Definition e_match_operand : Op → XM ExtractState bool :=
  match_operand (λ n, bool_decide (n = 2)) (λ _, "a") (λ n, bool_decide (n = 5))
    (λ n, bool_decide (n = 7)) (λ _, false)
    (λ n, if decide (n = 5) then "negative" else "add")
    (λ _, Tileable 2) (λ _, Tileable 5) (λ o, bool_decide (o = 5)) (λ o, [o]) 3 5.

Definition e_apply_to_operand : Op → XM ExtractState unit :=
  apply_to_operand (λ n, bool_decide (n = 2)) (λ _, "a") (λ n, bool_decide (n = 5))
    (λ n, bool_decide (n = 7)) (λ _, false)
    (λ n, if decide (n = 5) then "negative" else "add")
    (λ _, Tileable 2) (λ _, Tileable 5) (λ o, [o]) (λ _ _ _ _, 9) 3 5.

(** The rounds of [apply] for the two operands of a registered type, in the
    topological order: that of 5, then that of 7. *)
Definition e_round (o : Op) : XM ExtractState bool :=
  let+ m := e_match_operand o in
  if (m : bool) then e_apply_to_operand o ;;+ xret true else xret false.

Definition eval_rule (_ : unit) : XM (list Val * (ModuleState * World)) bool :=
  as_rule (let+ m5 := e_round 5 in
           let+ m7 := e_round 7 in
           xret (m5 || m7)).

(** Two graphs whose entities are alike: the dataframe 1, its column 2 and
    7 = 2 + 3, the result; the dataframe 11, its column 12 and 17 = 12 + 3,
    the result. The node made for the expression of 17 is 19; the node made
    for the expression of 7 is 9 when the expression names the scalar
    [__eval_scalar_var1] and 10 when it has another name for it: the
    expression is an attribute of the operand of the node. Each of the three
    has the key of the entity it stands for and reads the dataframe. *)
Definition s_heap : Heap :=
  λ n, mkEntity (if decide (n ∈ [9; 10]) then 7 else if decide (n = 19) then 17 else n) n
         (default [] (({[2 := [1]; 7 := [2]; 9 := [1]; 10 := [1];
                         12 := [11]; 17 := [12]; 19 := [11]]}
                         : gmap Node (list Node)) !! n))
         [n].

Definition s_world : World :=
  mkWorld (mkGraph [1; 2; 7] [(1, 2); (2, 7)] [Some 7]) s_heap empty_records ∅.

Definition t_world : World :=
  mkWorld (mkGraph [11; 12; 17] [(11, 12); (12, 17)] [Some 17]) s_heap empty_records ∅.

Definition s_match_operand : Op → XM ExtractState bool :=
  match_operand (λ n, bool_decide (n ∈ [2; 12])) (λ _, "a") (λ _, false)
    (λ n, bool_decide (n ∈ [7; 17])) (λ _, false) (λ _, "add")
    (λ n, Tileable (n - 5)) (λ _, Scalar 3) (λ _, false) (λ o, [o]) 3 5.

Definition s_apply_to_operand : Op → XM ExtractState unit :=
  apply_to_operand (λ n, bool_decide (n ∈ [2; 12])) (λ _, "a") (λ _, false)
    (λ n, bool_decide (n ∈ [7; 17])) (λ _, false) (λ _, "add")
    (λ n, Tileable (n - 5)) (λ _, Scalar 3) (λ o, [o])
    (λ node e _ _, if decide (node = 17) then 19
                   else if decide (e = Some "(`a`) + (@__eval_scalar_var1)") then 9
                        else 10) 3 5.

Definition s_round (o : Op) : XM ExtractState bool :=
  let+ m := s_match_operand o in
  if (m : bool) then s_apply_to_operand o ;;+ xret true else xret false.

(** The round of [apply] for the one operand of a registered type in the
    graph: that of 7 in the first graph, that of 17 in the second. *)
Definition scalar_rule (_ : unit) : XM (list Val * (ModuleState * World)) bool :=
  as_rule (let+ s := xget in
           if decide (7 ∈ nodes (w_graph (x_rule s).2)) then s_round 7 else s_round 17).

(** * Properties *)

(** ** The provenance store *)

Lemma append_record_orig s r k :
  _original_entity_to_records (append_record s r) !! k =
  if decide (fwd_key r = Some k) then Some r else _original_entity_to_records s !! k.
Proof.
  unfold append_record, fwd_key. destruct (record_type r); simpl.
  - rewrite lookup_insert. repeat case_decide; congruence.
  - repeat case_decide; congruence.
  - rewrite lookup_insert. repeat case_decide; congruence.
Qed.

Lemma append_record_opt s r k :
  _optimized_entity_to_records (append_record s r) !! k =
  if decide (bwd_key r = Some k) then Some r else _optimized_entity_to_records s !! k.
Proof.
  unfold append_record, bwd_key. destruct (record_type r); simpl.
  - rewrite lookup_insert. repeat case_decide; congruence.
  - rewrite lookup_insert. repeat case_decide; congruence.
  - repeat case_decide; congruence.
Qed.

Lemma foldl_append_orig_miss l : ∀ s k,
  Forall (λ r, fwd_key r ≠ Some k) l →
  _original_entity_to_records (foldl append_record s l) !! k =
  _original_entity_to_records s !! k.
Proof.
  induction l as [|r l IH]; intros s k Hl; simpl; [done|].
  inversion Hl; subst. rewrite IH by done.
  rewrite append_record_orig. by case_decide.
Qed.

Lemma foldl_append_opt_miss l : ∀ s k,
  Forall (λ r, bwd_key r ≠ Some k) l →
  _optimized_entity_to_records (foldl append_record s l) !! k =
  _optimized_entity_to_records s !! k.
Proof.
  induction l as [|r l IH]; intros s k Hl; simpl; [done|].
  inversion Hl; subst. rewrite IH by done.
  rewrite append_record_opt. by case_decide.
Qed.

(** Last write wins: the index answers with the last record filed under a key. *)
Lemma foldl_append_orig_hit s l1 r l2 k :
  fwd_key r = Some k →
  Forall (λ r, fwd_key r ≠ Some k) l2 →
  _original_entity_to_records (foldl append_record s (l1 ++ r :: l2)) !! k = Some r.
Proof.
  intros Hr Hl2. rewrite foldl_app. simpl.
  rewrite foldl_append_orig_miss by done.
  rewrite append_record_orig. by case_decide.
Qed.

Lemma foldl_append_opt_hit s l1 r l2 k :
  bwd_key r = Some k →
  Forall (λ r, bwd_key r ≠ Some k) l2 →
  _optimized_entity_to_records (foldl append_record s (l1 ++ r :: l2)) !! k = Some r.
Proof.
  intros Hr Hl2. rewrite foldl_app. simpl.
  rewrite foldl_append_opt_miss by done.
  rewrite append_record_opt. by case_decide.
Qed.

Lemma forward_loop_deleted idx e :
  deleted_in_chain idx e → ∃ n, ∀ fuel, n ≤ fuel → forward_loop fuel idx e = Ok None.
Proof.
  induction 1 as [e r Hr Ht | e r Hr Ht _ [n IH]].
  - exists 1. intros [|fuel] ?; [lia|]. simpl. by rewrite Hr, Ht.
  - exists (S n). intros [|fuel] ?; [lia|]. simpl. rewrite Hr, Ht. apply IH. lia.
Qed.

(** More fuel does not change an outcome that was reached. *)
Lemma forward_loop_mono fuel idx : ∀ e fuel',
  forward_loop fuel idx e ≠ OutOfFuel → fuel ≤ fuel' →
  forward_loop fuel' idx e = forward_loop fuel idx e.
Proof.
  induction fuel as [|fuel IH]; intros e [|fuel'] Hne Hle; simpl in *; try done; [lia|].
  destruct (idx !! e) as [r|]; [|done].
  destruct (record_type r); [|done..]. apply IH; [done|lia].
Qed.

Lemma backward_loop_mono fuel idx : ∀ e fuel',
  backward_loop fuel idx e ≠ OutOfFuel → fuel ≤ fuel' →
  backward_loop fuel' idx e = backward_loop fuel idx e.
Proof.
  induction fuel as [|fuel IH]; intros e [|fuel'] Hne Hle; simpl in *; try done; [lia|].
  destruct (idx !! e) as [r|]; [|done].
  destruct (record_type r); [|done..]. apply IH; [done|lia].
Qed.

(** An entity without a record resolves to the default, whatever the fuel. *)
Lemma get_optimization_result_untouched fuel s e d :
  _original_entity_to_records s !! e = None →
  get_optimization_result fuel s e d = Ok d.
Proof. intros H. unfold get_optimization_result. by rewrite H. Qed.

(** C4, as stated, fails: with the default left at [None] (the default of the
    parameter) the outcome for a deleted entity is the default itself. *)
Lemma delete_dominance_default_None :
  ¬ delete_dominance_distinct (records_of_log [mkRecord (Some 1) None delete]) 1 None.
Proof.
  intros H. destruct H as [n Hn].
  - eapply chain_delete; [by vm_compute|done].
  - destruct (Hn n) as [H1 H2]; [lia|]. by rewrite H1 in H2.
Qed.

(** C4, amended: if the forward chain of [A] meets a delete record at any hop,
    [get_optimization_result] returns [None] for every default, and that
    outcome differs from the default whenever the default is an entity. *)
Theorem delete_dominance (s : OptimizationRecords) (A : Node) (d : Val) :
  deleted_in_chain (_original_entity_to_records s) (Some A) →
  ∃ n, ∀ fuel, n ≤ fuel →
    get_optimization_result fuel s (Some A) d = Ok None ∧
    (is_Some d → get_optimization_result fuel s (Some A) d ≠ Ok d).
Proof.
  intros Hc. destruct (forward_loop_deleted _ _ Hc) as [n Hn].
  exists n. intros fuel Hf.
  assert (get_optimization_result fuel s (Some A) d = Ok None) as Hr.
  { unfold get_optimization_result.
    destruct (_ !! Some A) eqn:E; [by apply Hn|].
    inversion Hc; congruence. }
  split; [done|]. rewrite Hr. intros [x ->]. congruence.
Qed.

Lemma delete_dominance_witness :
  let s := records_of_log [mkRecord (Some 1) (Some 2) replace; mkRecord (Some 2) None delete] in
  ∃ n, ∀ fuel, n ≤ fuel →
    get_optimization_result fuel s (Some 1) (Some 1) = Ok None ∧
    (is_Some (Some 1) → get_optimization_result fuel s (Some 1) (Some 1) ≠ Ok (Some 1)).
Proof.
  apply (delete_dominance
           (records_of_log [mkRecord (Some 1) (Some 2) replace; mkRecord (Some 2) None delete])
           1 (Some 1)).
  eapply chain_replace; [by vm_compute|done|].
  eapply chain_delete; [by vm_compute|done].
Defined.

Lemma get_optimization_result_mono fuel fuel' s e d :
  get_optimization_result fuel s e d ≠ OutOfFuel → fuel ≤ fuel' →
  get_optimization_result fuel' s e d = get_optimization_result fuel s e d.
Proof.
  unfold get_optimization_result. destruct (_ !! e); [apply forward_loop_mono|done].
Qed.

Lemma get_original_entity_mono fuel fuel' s e d :
  get_original_entity fuel s e d ≠ OutOfFuel → fuel ≤ fuel' →
  get_original_entity fuel' s e d = get_original_entity fuel s e d.
Proof.
  unfold get_original_entity. destruct (_ !! e); [apply backward_loop_mono|done].
Qed.

(** C6, as stated, fails: the indices keep the last record filed under a
    key, so a record that comes after the two replace records and is filed
    under [A] or [B] forward, or under [B] or [C] backward, takes the place
    of one of them. In each of the four logs [A = 1] is replaced by [B = 2],
    [B] is later replaced by [C = 3], and there is no record for [C] forward
    or for [A] backward. After a later delete of [A] (the record that
    [_remove_collapsable_predecessors] appends for a pruned predecessor) or
    of [B], [A] resolves forward to [None]; after a later new record for [B]
    or for [C], [C] resolves backward to [None]. *)
Lemma replace_transitive_as_worded_fails :
  let rAB := mkRecord (Some 1) (Some 2) replace in
  let rBC := mkRecord (Some 2) (Some 3) replace in
  ¬ replace_transitive_as_worded [rAB; rBC; mkRecord (Some 1) None delete] 1 2 3 None ∧
  ¬ replace_transitive_as_worded [rAB; rBC; mkRecord (Some 2) None delete] 1 2 3 None ∧
  ¬ replace_transitive_as_worded [rAB; rBC; mkRecord None (Some 2) new] 1 2 3 None ∧
  ¬ replace_transitive_as_worded [rAB; rBC; mkRecord None (Some 3) new] 1 2 3 None.
Proof.
  intros rAB rBC.
  assert (∀ x, (∃ l1 l2 l3, [rAB; rBC; x] = l1 ++ rAB :: l2 ++ rBC :: l3)) as Hlog
    by (intros x; by exists [], [], [x]).
  assert (∀ P : OptimizationRecord → Prop, P rAB → P rBC → ∀ x, P x →
            Forall P [rAB; rBC; x]) as Hall
    by (intros P ? ? x ?; by repeat first [apply Forall_nil_2 | apply Forall_cons_2]).
  split_and!; intros H.
  - destruct H as [n Hn]; [apply Hlog|by apply Hall..|].
    destruct (Hn (n + 3)) as [H1 _]; [lia|].
    rewrite (get_optimization_result_mono 3) in H1; [by vm_compute in H1|by vm_compute|lia].
  - destruct H as [n Hn]; [apply Hlog|by apply Hall..|].
    destruct (Hn (n + 3)) as [H1 _]; [lia|].
    rewrite (get_optimization_result_mono 3) in H1; [by vm_compute in H1|by vm_compute|lia].
  - destruct H as [n Hn]; [apply Hlog|by apply Hall..|].
    destruct (Hn (n + 3)) as [_ H2]; [lia|].
    rewrite (get_original_entity_mono 3) in H2; [by vm_compute in H2|by vm_compute|lia].
  - destruct H as [n Hn]; [apply Hlog|by apply Hall..|].
    destruct (Hn (n + 3)) as [_ H2]; [lia|].
    rewrite (get_original_entity_mono 3) in H2; [by vm_compute in H2|by vm_compute|lia].
Qed.

(** C6, amended: in a log where [A] is replaced by [B] and [B] is later
    replaced by [C], with no record for [C] forward or [A] backward and no
    later record filed over the index entries of the two (none after the
    first under [A] forward or [B] backward, none after the second under [B]
    forward or [C] backward), forward resolution of [A] gives [C] and
    backward resolution of [C] gives [A], for every default. *)
Theorem replace_transitive (A B C : Node) (l1 l2 l3 : list OptimizationRecord) (d : Val) :
  let rAB := mkRecord (Some A) (Some B) replace in
  let rBC := mkRecord (Some B) (Some C) replace in
  let log := l1 ++ rAB :: l2 ++ rBC :: l3 in
  Forall (λ r, fwd_key r ≠ Some (Some C)) log →
  Forall (λ r, bwd_key r ≠ Some (Some A)) log →
  Forall (λ r, fwd_key r ≠ Some (Some A) ∧ bwd_key r ≠ Some (Some B)) (l2 ++ l3) →
  Forall (λ r, fwd_key r ≠ Some (Some B) ∧ bwd_key r ≠ Some (Some C)) l3 →
  ∀ fuel, 3 ≤ fuel →
    get_optimization_result fuel (records_of_log log) (Some A) d = Ok (Some C) ∧
    get_original_entity fuel (records_of_log log) (Some C) d = Ok (Some A).
Proof.
  intros rAB rBC log HC HA H23 H3 fuel Hfuel.
  assert (A ≠ B) as HAB.
  { intros ->. apply Forall_app in HA as [_ HA]. inversion HA as [|?? Hx _]. by apply Hx. }
  assert (B ≠ C) as HBC.
  { intros ->. apply Forall_app in HC as [_ HC]. inversion HC as [|?? _ HC'].
    apply Forall_app in HC' as [_ HC']. inversion HC' as [|?? Hx _]. by apply Hx. }
  apply Forall_app in H23 as [H2 H3'].
  assert (log = (l1 ++ rAB :: l2) ++ rBC :: l3) as Hlog
    by (unfold log; by rewrite <- app_assoc).
  assert (_original_entity_to_records (records_of_log log) !! Some A = Some rAB) as EA.
  { apply foldl_append_orig_hit; [done|].
    apply Forall_app. split; [by eapply Forall_impl; [exact H2|intros ? []]|].
    constructor; [unfold fwd_key, rBC; simpl; congruence
                 |by eapply Forall_impl; [exact H3'|intros ? []]]. }
  assert (_original_entity_to_records (records_of_log log) !! Some B = Some rBC) as EB.
  { rewrite Hlog.
    apply foldl_append_orig_hit; [done|]. by eapply Forall_impl; [exact H3|intros ? []]. }
  assert (_original_entity_to_records (records_of_log log) !! Some C = None) as EC.
  { unfold records_of_log. by rewrite foldl_append_orig_miss. }
  assert (_optimized_entity_to_records (records_of_log log) !! Some C = Some rBC) as FC.
  { rewrite Hlog.
    apply foldl_append_opt_hit; [done|]. by eapply Forall_impl; [exact H3|intros ? []]. }
  assert (_optimized_entity_to_records (records_of_log log) !! Some B = Some rAB) as FB.
  { apply foldl_append_opt_hit; [done|].
    apply Forall_app. split; [by eapply Forall_impl; [exact H2|intros ? []]|].
    constructor; [unfold bwd_key, rBC; simpl; congruence
                 |by eapply Forall_impl; [exact H3'|intros ? []]]. }
  assert (_optimized_entity_to_records (records_of_log log) !! Some A = None) as FA.
  { unfold records_of_log. by rewrite foldl_append_opt_miss. }
  destruct fuel as [|[|[|fuel]]]; try lia.
  unfold get_optimization_result, get_original_entity.
  rewrite EA, FC. simpl. rewrite EA, FC. simpl. rewrite EB, FB. simpl.
  by rewrite EC, FA.
Qed.

Lemma replace_transitive_witness :
  let log := [mkRecord (Some 1) (Some 2) replace; mkRecord None (Some 7) new;
              mkRecord (Some 2) (Some 3) replace; mkRecord (Some 8) None delete] in
  get_optimization_result 3 (records_of_log log) (Some 1) None = Ok (Some 3) ∧
  get_original_entity 3 (records_of_log log) (Some 3) None = Ok (Some 1).
Proof.
  apply (replace_transitive 1 2 3 [] [mkRecord None (Some 7) new]
           [mkRecord (Some 8) None delete] None); simpl.
  - repeat first [apply Forall_nil_2 | apply Forall_cons_2]; vm_compute; congruence.
  - repeat first [apply Forall_nil_2 | apply Forall_cons_2]; vm_compute; congruence.
  - repeat first [apply Forall_nil_2 | apply Forall_cons_2]; split; vm_compute; congruence.
  - repeat first [apply Forall_nil_2 | apply Forall_cons_2]; split; vm_compute; congruence.
  - lia.
Defined.

(** ** Subgraph replacement *)

Lemma for_each_modify {S A} (f : A → S → S) (xs : list A) (s : S) :
  for_each xs (λ x, modify (f x)) s = (foldl (λ s x, f x s) s xs, Ok tt).
Proof.
  revert s. induction xs as [|x xs IH]; intros s; [done|].
  simpl. unfold bind at 1. unfold modify at 1. apply IH.
Qed.

Lemma for_each_modify_graph (f : Node → EntityGraph → EntityGraph) (xs : list Node) (w : World) :
  for_each xs (λ x, modify_graph (λ g, f x g)) w =
  (with_graph (foldl (λ g x, f x g) (w_graph w) xs) w, Ok tt).
Proof.
  unfold modify_graph. rewrite (for_each_modify (λ x w, with_graph (f x (w_graph w)) w)).
  f_equal. revert w. induction xs as [|x xs IH]; intros w; [by destruct w|].
  simpl. rewrite IH. by destruct w.
Qed.

Lemma replace_subgraph_unfold graph ntr nr rtr w :
  _replace_subgraph graph ntr nr rtr w =
  match validate (w_heap w) (w_graph w) graph (default [] ntr) (default [] nr) with
  | Ok m =>
      commit (w_heap w) graph (default [] ntr)
             (final_results_of (w_graph w) (default [] nr) (default [] rtr))
             (collect_affected (w_graph w) (default [] ntr)) m w
  | Raise e => (w, Raise e)
  | OutOfFuel => (w, OutOfFuel)
  end.
Proof.
  unfold _replace_subgraph, validate, commit, final_results_of.
  unfold bind at 1. unfold get at 1. unfold bind at 1. unfold lift_result at 1.
  destruct (match graph with Some g => _ | None => _ end) as [m| |]; simpl; [|done..].
  unfold bind at 1. unfold lift_result at 1.
  destruct (check_new_results _ _ _) as [[]| |]; simpl; [|done..].
  unfold bind at 1. unfold lift_result at 1.
  destruct (check_affected _ _ _) as [[]| |]; simpl; done.
Qed.

Lemma index_subgraph_cases h ntr ns m :
  (Forall (λ n, n ∉ ntr) ns ∧
   index_subgraph h ntr ns m = Ok (foldl (λ m node, add_outputs h node m) m ns)) ∨
  (∃ node, node ∈ ns ∧ node ∈ ntr ∧
           index_subgraph h ntr ns m = Raise (ValueError (InRemovedSet node))).
Proof.
  revert m. induction ns as [|n ns IH]; intros m; simpl.
  - left. by split.
  - case_decide as Hn.
    + right. exists n. split; [left|done].
    + destruct (IH (add_outputs h n m)) as [[HF E]|(node & H1 & H2 & E)].
      * left. split; [by constructor|done].
      * right. exists node. split; [by right|done].
Qed.

Lemma check_new_results_cases h m nr :
  (Forall (λ r, is_Some (m !! key (h r))) nr ∧ check_new_results h m nr = Ok tt) ∨
  (∃ r, r ∈ nr ∧ m !! key (h r) = None ∧
        check_new_results h m nr = Raise (ValueError (UnknownResult r))).
Proof.
  induction nr as [|r nr IH]; simpl.
  - left. by split.
  - destruct (m !! key (h r)) eqn:E.
    + destruct IH as [[HF E']|(r' & H1 & H2 & E')].
      * left. split; [by constructor; [rewrite E|]|done].
      * right. exists r'. split; [by right|done].
    + right. exists r. split; [left|done].
Qed.

Lemma check_inputs_cases h m s inps :
  (Forall (λ inp, is_Some (m !! key (h inp))) inps ∧ check_inputs h m s inps = Ok tt) ∨
  (∃ inp, inp ∈ inps ∧ m !! key (h inp) = None ∧
          check_inputs h m s inps = Raise (ValueError (MissingInput inp s))).
Proof.
  induction inps as [|r nr IH]; simpl.
  - left. by split.
  - destruct (m !! key (h r)) eqn:E.
    + destruct IH as [[HF E']|(r' & H1 & H2 & E')].
      * left. split; [by constructor; [rewrite E|]|done].
      * right. exists r'. split; [by right|done].
    + right. exists r. split; [left|done].
Qed.

Lemma check_affected_cases h m ss :
  (Forall (λ s, Forall (λ inp, is_Some (m !! key (h inp))) (inputs (h s))) ss ∧
   check_affected h m ss = Ok tt) ∨
  (∃ s inp, s ∈ ss ∧ inp ∈ inputs (h s) ∧ m !! key (h inp) = None ∧
            check_affected h m ss = Raise (ValueError (MissingInput inp s))).
Proof.
  induction ss as [|s ss IH]; simpl.
  - left. by split.
  - destruct (check_inputs_cases h m s (inputs (h s))) as [[HF E]|(inp & H1 & H2 & E)];
      rewrite E; simpl.
    + destruct IH as [[HF' E']|(s' & inp & H1 & H2 & H3 & E')].
      * left. split; [by constructor|done].
      * right. exists s', inp. split; [by right|done].
    + right. exists s, inp. split; [left|done].
Qed.

Lemma elem_of_set_add {A} `{EqDecision A} (s : list A) (x y : A) :
  y ∈ set_add s x ↔ y ∈ s ∨ y = x.
Proof.
  unfold set_add. case_decide.
  - split; [by left|]. intros [?| ->]; done.
  - rewrite elem_of_app, list_elem_of_singleton. done.
Qed.

Lemma elem_of_collect_affected g ntr s :
  s ∈ collect_affected g ntr ↔ affected_successor g ntr s.
Proof.
  unfold collect_affected, affected_successor.
  assert (∀ succs acc,
    s ∈ foldl (λ acc s, if decide (s ∈ ntr) then acc else set_add acc s) acc succs ↔
    s ∈ acc ∨ ((s ∉ ntr) ∧ s ∈ succs)) as Hin.
  { induction succs as [|x succs IH]; intros acc; simpl.
    - split; [by left|]. intros [?|[_ H]]; [done|]. by apply elem_of_nil in H.
    - rewrite IH. case_decide as Hx.
      + rewrite elem_of_cons. split; [|intuition (subst; tauto)].
        intros [?|[? ?]]; [by left|]. right. split; [done|by right].
      + rewrite elem_of_set_add, elem_of_cons. intuition (subst; tauto). }
  assert (∀ ns acc,
    s ∈ foldl (λ acc node,
                 foldl (λ acc s, if decide (s ∈ ntr) then acc else set_add acc s)
                       acc (successors g node)) acc ns ↔
    s ∈ acc ∨ ((s ∉ ntr) ∧ ∃ n, n ∈ ns ∧ s ∈ successors g n)) as Hout.
  { induction ns as [|x ns IH]; intros acc; simpl.
    - split; [by left|]. intros [?|[_ (n & H & _)]]; [done|]. by apply elem_of_nil in H.
    - rewrite IH, Hin. setoid_rewrite elem_of_cons. split.
      + intros [[?|[? ?]]|(? & n & ? & ?)]; eauto 8.
      + intros [?|(? & n & [->|?] & ?)]; eauto 8. }
  rewrite Hout. split; [|by right].
  intros [H|H]; [by apply elem_of_nil in H|done].
Qed.

Lemma index_subgraph_merged h g graph ntr m :
  match graph with
  | Some g' => index_subgraph h ntr (iter_nodes g') ∅
  | None => Ok ∅
  end = Ok m →
  index_original h ntr (iter_nodes g) m = merged_index h g graph ntr.
Proof.
  unfold merged_index. destruct graph as [g'|]; [|by intros [= <-]].
  destruct (index_subgraph_cases h ntr (iter_nodes g') ∅) as [[_ E]|(n & _ & _ & E)];
    rewrite E; [by intros [= <-]|done].
Qed.

(** The connection of inputs never raises a [ValueError]. *)
Lemma for_each_connect_inputs h m ns w :
  ¬ is_ValueError (for_each ns (connect_inputs h m) w).2.
Proof.
  assert (∀ node inps w, ¬ is_ValueError
    (for_each inps (λ inp,
       match m !! key (h inp) with
       | None => raise KeyError
       | Some pred_node => modify_graph (λ g, add_edge g pred_node node)
       end) w).2) as Hin.
  { intros node inps. induction inps as [|inp inps IH]; intros w'; simpl; [tauto|].
    unfold bind. destruct (m !! key (h inp)); simpl; [apply IH|tauto]. }
  revert w. induction ns as [|n ns IH]; intros w; simpl; [tauto|].
  unfold bind. unfold connect_inputs at 1.
  specialize (Hin n (inputs (h n)) w).
  destruct (for_each (inputs (h n)) _ w) as [w' [[]|e|]]; simpl in *; [apply IH|done|tauto].
Qed.

Lemma commit_no_ValueError h graph ntr fr aff m w :
  ¬ is_ValueError (commit h graph ntr fr aff m w).2.
Proof.
  unfold commit, bind. rewrite for_each_modify_graph.
  destruct graph as [g'|]; simpl; [|tauto].
  rewrite for_each_modify_graph.
  pose proof (for_each_connect_inputs h m (iter_nodes g' ++ aff)
    (with_graph (foldl (λ g x, add_node g x)
       (w_graph (with_graph (foldl (λ g x, remove_node g x) (w_graph w) ntr) w))
       (iter_nodes g'))
       (with_graph (foldl (λ g x, remove_node g x) (w_graph w) ntr) w))) as Hc.
  destruct (for_each (iter_nodes g' ++ aff) _ _) as [w' [[]|e|]]; simpl in *; tauto.
Qed.

Lemma validate_cases h g graph ntr nr :
  let idx := merged_index h g graph ntr in
  (validate h g graph ntr nr = Ok idx ∧
   ¬ replacement_node_removed graph ntr ∧
   ¬ new_result_without_producer h idx nr ∧
   ¬ affected_input_unresolved h idx g ntr) ∨
  ((∃ msg, validate h g graph ntr nr = Raise (ValueError msg)) ∧
   (replacement_node_removed graph ntr ∨
    new_result_without_producer h idx nr ∨
    affected_input_unresolved h idx g ntr)).
Proof.
  intros idx. unfold validate.
  assert ((∃ m0, match graph with
                 | Some g' => index_subgraph h ntr (iter_nodes g') ∅
                 | None => Ok ∅
                 end = Ok m0 ∧ index_original h ntr (iter_nodes g) m0 = idx ∧
                 ¬ replacement_node_removed graph ntr) ∨
          ((∃ msg, match graph with
                   | Some g' => index_subgraph h ntr (iter_nodes g') ∅
                   | None => Ok ∅
                   end = Raise (ValueError msg)) ∧
           replacement_node_removed graph ntr)) as [(m0 & E & Em & Hn)|[[msg E] Hc]].
  { destruct graph as [g'|].
    - destruct (index_subgraph_cases h ntr (iter_nodes g') ∅) as [[HF E]|(n & H1 & H2 & E)].
      + left. eexists. split; [exact E|]. split; [done|].
        intros (g'' & n & [= <-] & H1 & H2).
        by eapply (proj1 (Forall_forall _ _) HF).
      + right. split; [by eexists|]. by exists g', n.
    - left. exists ∅. split; [done|]. split; [done|]. by intros (? & ? & ? & _). }
  2: { right. rewrite E. split; [by eexists|by left]. }
  rewrite E. simpl. rewrite Em.
  destruct (check_new_results_cases h idx nr) as [[HF1 E1]|(r & H1 & H2 & E1)];
    rewrite E1; simpl.
  2: { right. split; [by eexists|]. right. left. by exists r. }
  destruct (check_affected_cases h idx (collect_affected g ntr))
    as [[HF2 E2]|(s & inp & H1 & H2 & H3 & E2)]; rewrite E2; simpl.
  2: { right. split; [by eexists|]. right. right. exists s, inp.
       split; [by apply elem_of_collect_affected|done]. }
  left. split; [done|]. split; [done|]. split.
  - intros (r & H1 & H2).
    apply (proj1 (Forall_forall _ _) HF1) in H1. rewrite H2 in H1. by destruct H1.
  - intros (s & inp & H1 & H2 & H3).
    apply elem_of_collect_affected in H1.
    apply (proj1 (Forall_forall _ _) HF2) in H1.
    apply (proj1 (Forall_forall _ _) H1) in H2. rewrite H3 in H2. by destruct H2.
Qed.

(** A call that raises [ValueError] has written nothing: the three checks
    run before the first removal. *)
Lemma replace_subgraph_ValueError_unchanged graph ntr nr rtr w :
  is_ValueError (_replace_subgraph graph ntr nr rtr w).2 →
  (_replace_subgraph graph ntr nr rtr w).1 = w.
Proof.
  rewrite replace_subgraph_unfold.
  destruct (validate _ _ _ _ _) as [m|e|]; [|done..].
  intros H. by apply commit_no_ValueError in H.
Qed.

(** C5: [_replace_subgraph] raises [ValueError] exactly when a node of the
    replacement graph is also to be removed, or a new result has no producer
    in the merged output-key index, or an affected successor has an input that
    the merged index does not resolve; the error is the outcome of the call
    (no handler turns it into a normal return). *)
Theorem replace_subgraph_raises_iff graph ntr nr rtr w :
  let nodes_to_remove := default [] ntr in
  let idx := merged_index (w_heap w) (w_graph w) graph nodes_to_remove in
  is_ValueError (_replace_subgraph graph ntr nr rtr w).2 ↔
    replacement_node_removed graph nodes_to_remove ∨
    new_result_without_producer (w_heap w) idx (default [] nr) ∨
    affected_input_unresolved (w_heap w) idx (w_graph w) nodes_to_remove.
Proof.
  intros nodes_to_remove idx. rewrite replace_subgraph_unfold.
  destruct (validate_cases (w_heap w) (w_graph w) graph nodes_to_remove (default [] nr))
    as [(E & H1 & H2 & H3)|[[msg E] Hc]]; fold nodes_to_remove; rewrite E.
  - split; [|tauto]. intros H. by apply commit_no_ValueError in H.
  - simpl. tauto.
Qed.

Example replace_subgraph_ok :
  let r := _replace_subgraph (Some (mkGraph [3] [] [])) (Some [2]) (Some [3]) (Some [2]) w_PQ in
  r.2 = Ok tt ∧ w_graph r.1 = mkGraph [1; 3] [(1, 3)] [Some 3].
Proof. by vm_compute. Qed.

Example replace_subgraph_in_removed_set :
  let r := _replace_subgraph (Some (mkGraph [2] [] [])) (Some [2]) None None w_PQ in
  r.2 = Raise (ValueError (InRemovedSet 2)) ∧ w_graph r.1 = w_graph w_PQ.
Proof. by vm_compute. Qed.

Example replace_subgraph_unknown_result :
  let r := _replace_subgraph None (Some [2]) (Some [2]) None w_PQ in
  r.2 = Raise (ValueError (UnknownResult 2)) ∧ w_graph r.1 = w_graph w_PQ.
Proof. by vm_compute. Qed.

Example replace_subgraph_missing_input :
  let r := _replace_subgraph None (Some [1]) None None w_PQ in
  r.2 = Raise (ValueError (MissingInput 1 2)) ∧ w_graph r.1 = w_graph w_PQ.
Proof. by vm_compute. Qed.

(** C1 fails on the code: the replacement node Q' = 3 reads P = 1, which is
    removed together with Q = 2. Every check passes (only the inputs of
    affected successors are checked, not those of replacement nodes), P and Q
    are removed, Q' is added, and line 216 then raises [KeyError]: the caller
    sees an error and a graph that has lost P and Q and gained Q'. *)
Theorem replace_subgraph_raise_after_removal :
  let r := _replace_subgraph (Some (mkGraph [3] [] [])) (Some [2; 1]) (Some [3]) (Some [2]) w_PQ in
  r.2 = Raise KeyError ∧
  w_graph r.1 = mkGraph [3] [] [Some 2] ∧
  w_graph r.1 ≠ w_graph w_PQ.
Proof. by vm_compute. Qed.

Lemma filter_all {A} (P : A → Prop) `{∀ x, Decision (P x)} (l : list A) :
  (∀ x, P x) → filter P l = l.
Proof.
  intros HP. induction l as [|x l IH]; [done|].
  rewrite filter_cons_True by done. by rewrite IH.
Qed.

(** Without a replacement graph the call returns at line 209: the nodes and
    their incident edges are removed, nothing is added, and [results] is left
    as it was. *)
Lemma replace_subgraph_None ntr nr rtr w :
  (_replace_subgraph None ntr nr rtr w).2 = Ok tt →
  let g' := w_graph (_replace_subgraph None ntr nr rtr w).1 in
  nodes g' = filter (λ n, n ∉ default [] ntr) (nodes (w_graph w)) ∧
  edges g' = filter (λ e, (e.1 ∉ default [] ntr) ∧ (e.2 ∉ default [] ntr))
                     (edges (w_graph w)) ∧
  results g' = results (w_graph w).
Proof.
  rewrite replace_subgraph_unfold.
  destruct (validate _ _ _ _ _) as [m|e|]; [|done..].
  unfold commit, bind. rewrite for_each_modify_graph. simpl. intros _.
  generalize (w_graph w). induction (default [] ntr) as [|n l IH]; intros g; simpl.
  - split_and!; [| |done]; symmetry; apply filter_all; intros;
      repeat split; apply not_elem_of_nil.
  - destruct (IH (remove_node g n)) as (H1 & H2 & H3). rewrite H1, H2, H3.
    unfold remove_node. simpl. rewrite !list_filter_filter. split_and!; [| |done].
    + apply list_filter_iff. intros x. rewrite not_elem_of_cons. tauto.
    + apply list_filter_iff. intros x. rewrite !not_elem_of_cons. tauto.
Qed.

(** C2 fails on the code: deleting the result node 1 with
    [results_to_remove = [1]] removes the node and leaves it in [results]. *)
Theorem replace_subgraph_pure_deletion_keeps_result :
  let w := world_of (mkGraph [1; 2] [(2, 1)] [Some 1; Some 2]) [(1, [2])] in
  let r := _replace_subgraph None (Some [1]) (Some []) (Some [1]) w in
  r.2 = Ok tt ∧
  w_graph r.1 = mkGraph [2] [] [Some 1; Some 2] ∧
  Some 1 ∈ results (w_graph r.1) ∧ 1 ∉ nodes (w_graph r.1).
Proof. vm_compute. split_and!; [done|done|left|]. by intros [= ->]%list_elem_of_singleton. Qed.

(** ** Collapsible predecessors *)

Lemma for_each_delete_pair ps w :
  for_each ps delete_pair w =
  (foldl (λ w p, with_records (append_record (w_records w) (mkRecord p.1 None delete))
                   (with_graph (remove_node_val (w_graph w) p.2) w)) w ps, Ok tt).
Proof.
  revert w. induction ps as [|p ps IH]; intros w; [done|].
  simpl. unfold bind at 1. unfold delete_pair at 1. unfold bind, modify_graph, modify.
  apply IH.
Qed.

Lemma collapsable_pair_not_result fuel w pred p :
  collapsable_pair fuel w pred = Ok (Some p) → p.2 ∉ results (w_graph w).
Proof.
  unfold collapsable_pair.
  destruct (get_original_entity _ _ _ _) as [po| |]; simpl; [|done..].
  destruct (get_optimization_result _ _ _ _) as [popt| |]; simpl; [|done..].
  case_decide as Hres; [done|].
  destruct po as [po|]; simpl; [|done].
  destruct (map_result _ _) as [l| |]; simpl; [|done..].
  case_decide; [|done]. intros [= <-]. simpl. tauto.
Qed.

Lemma collapsable_pairs_not_result fuel w preds pairs :
  collapsable_pairs fuel w preds = Ok pairs →
  Forall (λ p, p.2 ∉ results (w_graph w)) pairs.
Proof.
  revert pairs. induction preds as [|pred preds IH]; intros pairs; simpl.
  - intros [= <-]. constructor.
  - destruct (collapsable_pair fuel w pred) as [o| |] eqn:E; simpl; [|done..].
    destruct (collapsable_pairs fuel w preds) as [ps| |]; simpl; [|done..].
    intros [= <-]. destruct o as [p|]; [|by apply IH].
    constructor; [by eapply collapsable_pair_not_result|by apply IH].
Qed.

Lemma delete_pairs_keep ps : ∀ w n,
  Forall (λ p, p.2 ≠ Some n) ps →
  let w' := foldl (λ w p, with_records (append_record (w_records w) (mkRecord p.1 None delete))
                            (with_graph (remove_node_val (w_graph w) p.2) w)) w ps in
  (n ∈ nodes (w_graph w) → n ∈ nodes (w_graph w')) ∧
  results (w_graph w') = results (w_graph w).
Proof.
  induction ps as [|p ps IH]; intros w n Hps; simpl; [done|].
  inversion Hps as [|?? Hp Hps']; subst.
  edestruct (IH (with_records (append_record (w_records w) (mkRecord p.1 None delete))
                   (with_graph (remove_node_val (w_graph w) p.2) w)) n Hps') as [H1 H2].
  simpl in *. split.
  - intros Hn. apply H1. destruct p as [po [m|]]; simpl in *; [|done].
    apply list_elem_of_filter. split; [congruence|done].
  - rewrite H2. by destruct p as [po [m|]].
Qed.

Lemma remove_collapsable_predecessors_unfold fuel node w :
  _remove_collapsable_predecessors fuel node w =
  match get_optimization_result fuel (w_records w) (Some node) None with
  | Ok r =>
      match collapsable_pairs fuel w (predecessors (w_graph w) (py_or r node)) with
      | Ok pairs => for_each pairs delete_pair w
      | Raise e => (w, Raise e)
      | OutOfFuel => (w, OutOfFuel)
      end
  | Raise e => (w, Raise e)
  | OutOfFuel => (w, OutOfFuel)
  end.
Proof.
  unfold _remove_collapsable_predecessors, bind, get, lift_result.
  destruct (get_optimization_result _ _ _ _); [|done..].
  by destruct (collapsable_pairs _ _ _).
Qed.

(** C7: [_remove_collapsable_predecessors] never removes a node that is in
    [graph.results], whatever the store, the accounted-for sets and the
    outcome of the call; [results] itself is left as it was. *)
Theorem remove_collapsable_predecessors_keeps_results fuel node w n :
  Some n ∈ results (w_graph w) →
  n ∈ nodes (w_graph w) →
  let w' := (_remove_collapsable_predecessors fuel node w).1 in
  n ∈ nodes (w_graph w') ∧ results (w_graph w') = results (w_graph w).
Proof.
  intros Hres Hn. rewrite remove_collapsable_predecessors_unfold.
  destruct (get_optimization_result fuel (w_records w) (Some node) None) as [r| |];
    simpl; [|done..].
  destruct (collapsable_pairs _ _ _) as [pairs| |] eqn:E; simpl; [|done..].
  rewrite for_each_delete_pair. simpl.
  apply collapsable_pairs_not_result in E.
  edestruct (delete_pairs_keep pairs w n) as [H1 H2]; [|split; [by apply H1|done]].
  eapply Forall_impl; [exact E|]. simpl. intros p Hp Heq. by rewrite Heq in Hp.
Qed.

Lemma remove_collapsable_predecessors_keeps_results_witness :
  let w' := (_remove_collapsable_predecessors 3 2 (w_marked [Some 1; Some 2])).1 in
  1 ∈ nodes (w_graph w') ∧ results (w_graph w') = [Some 1; Some 2].
Proof.
  apply (remove_collapsable_predecessors_keeps_results 3 2 (w_marked [Some 1; Some 2]) 1).
  - vm_compute. left.
  - vm_compute. left.
Defined.

(** The same call removes P and records the deletion when P is not a result. *)
Example remove_collapsable_predecessors_prunes :
  let r := _remove_collapsable_predecessors 3 2 (w_marked [Some 2]) in
  r.2 = Ok tt ∧ w_graph r.1 = mkGraph [2] [] [Some 2] ∧
  _records (w_records r.1) = [mkRecord (Some 1) None delete].
Proof. by vm_compute. Qed.

(** [_find_nodes_to_remove] spares results in the same way: apart from the
    node itself, no returned node is in [graph.results]. *)
Lemma removed_pairs_not_result fuel marked w preds pairs :
  removed_pairs fuel marked w preds = Ok pairs →
  Forall (λ p, p.2 ∉ results (w_graph w)) pairs.
Proof.
  revert pairs. induction preds as [|pred preds IH]; intros pairs; simpl.
  - intros [= <-]. constructor.
  - destruct (get_original_entity _ _ _ _) as [po| |]; simpl; [|done..].
    destruct (get_optimization_result _ _ _ _) as [popt| |]; simpl; [|done..].
    case_decide as Hres; simpl.
    + destruct (removed_pairs fuel marked w preds) as [ps| |]; simpl; [|done..].
      intros [= <-]. by apply IH.
    + destruct (all_marked _ _ _ _) as [b| |]; simpl; [|done..].
      destruct (removed_pairs fuel marked w preds) as [ps| |]; simpl; [|done..].
      intros [= <-]. destruct b; [|by apply IH].
      constructor; [simpl; tauto|by apply IH].
Qed.

Lemma elem_of_foldl_set_add {A} `{EqDecision A} (l : list A) : ∀ (acc : list A) (x : A),
  x ∈ foldl set_add acc l ↔ x ∈ acc ∨ x ∈ l.
Proof.
  induction l as [|y l IH]; intros acc x; simpl.
  - split; [by left|]. intros [?|?%elem_of_nil]; done.
  - rewrite IH, elem_of_set_add, elem_of_cons. tauto.
Qed.

Lemma find_nodes_to_remove_spares_results fuel node s s' removed :
  _find_nodes_to_remove fuel node s = (s', Ok removed) →
  ∀ v, v ∈ removed →
    v ∉ results (w_graph s.2) ∨
    ∃ r, get_optimization_result fuel (w_records s.2) (Some node) None = Ok r ∧
         v = Some (py_or r node).
Proof.
  unfold _find_nodes_to_remove, bind, get, lift_result.
  destruct (get_optimization_result fuel (w_records s.2) (Some node) None) as [r| |];
    simpl; [|done..].
  destruct (removed_pairs _ _ _ _) as [pairs| |] eqn:E; simpl; [|done..].
  apply removed_pairs_not_result in E.
  destruct (for_each pairs _ s) as [s'' [[]| |]]; simpl; [|done..].
  intros [= _ <-] v [Hv|Hv]%elem_of_foldl_set_add.
  - apply list_elem_of_singleton in Hv as ->. right. by exists r.
  - left. apply list_elem_of_fmap in Hv as (p & -> & Hp).
    by apply (proj1 (Forall_forall _ _) E).
Qed.

(** Q = 2 is marked and is the only consumer of P = 1: P goes with Q unless
    P is a result. *)
Example find_nodes_to_remove_marked :
  let run rs := (let* _ := _mark_node 3 2 in _find_nodes_to_remove 3 2)
                  ([], world_of (mkGraph [1; 2] [(1, 2)] rs) [(2, [1])]) in
  (run [Some 2]).2 = Ok [Some 2; Some 1] ∧
  _records (w_records (run [Some 2]).1.2) = [mkRecord (Some 1) None delete] ∧
  (run [Some 1; Some 2]).2 = Ok [Some 2].
Proof. by vm_compute. Qed.

(** C9 fails on the code: the successor 2 is accounted for under the original
    predecessor 1; 1 is then replaced by 5; accounting for the successor 3
    under the predecessor 5 tests [5 not in self._preds_to_remove], finds it
    absent and assigns [{3}] under the resolved original 1, so 2 is lost. *)
Theorem add_collapsable_predecessor_overwrites :
  let w0 := world_of (mkGraph [1; 2; 3] [(1, 2); (1, 3)] []) [(2, [1]); (3, [1])] in
  let r1 := _add_collapsable_predecessor 3 2 1 w0 in
  let w1 := with_records
              (append_record (w_records r1.1) (mkRecord (Some 1) (Some 5) replace)) r1.1 in
  let r2 := _add_collapsable_predecessor 3 3 5 w1 in
  r1.2 = Ok tt ∧ w_preds_to_remove r1.1 !! 1 = Some [2] ∧
  get_original_entity 3 (w_records w1) (Some 5) (Some 5) = Ok (Some 1) ∧
  r2.2 = Ok tt ∧ w_preds_to_remove r2.1 !! 1 = Some [3].
Proof. by vm_compute. Qed.

(** The other branch of the same test: the predecessor 1 is a key, its
    resolved original 9 is not, and [self._preds_to_remove[pred_original]]
    raises [KeyError]. *)
Example add_collapsable_predecessor_key_error :
  let w := mkWorld (mkGraph [1; 2] [(1, 2)] []) (heap_of [(2, [1])])
             (records_of_log [mkRecord (Some 9) (Some 1) replace]) {[1 := [2]]} in
  (_add_collapsable_predecessor 3 2 1 w).2 = Raise KeyError.
Proof. by vm_compute. Qed.

(** When the predecessor is its own resolved original, the set under it
    gains the node and keeps its members. *)
Lemma add_collapsable_predecessor_unreplaced fuel node predecessor w :
  get_original_entity fuel (w_records w) (Some predecessor) (Some predecessor)
    = Ok (Some predecessor) →
  let r := _add_collapsable_predecessor fuel node predecessor w in
  r.2 = Ok tt ∧
  ∃ s', w_preds_to_remove r.1 !! predecessor = Some s' ∧ node ∈ s' ∧
        ∀ s x, w_preds_to_remove w !! predecessor = Some s → x ∈ s → x ∈ s'.
Proof.
  intros E. unfold _add_collapsable_predecessor, bind, get, lift_result. rewrite E.
  destruct (w_preds_to_remove w !! predecessor) as [s|] eqn:Es; simpl.
  - split; [done|]. exists (set_add s node). rewrite lookup_insert_eq.
    split; [done|]. split; [apply elem_of_set_add; by right|].
    intros s0 x [= <-] Hx. apply elem_of_set_add. by left.
  - split; [done|]. exists [node]. rewrite lookup_insert_eq.
    split; [done|]. split; [left|done].
Qed.

(** ** Operand dispatch *)

Lemma lift_snd_trace {T S A} (m : M S A) (ts : T * S) : (lift_snd m ts).1.1 = ts.1.
Proof. unfold lift_snd. by destruct (m ts.2). Qed.


Section OperandDispatchFacts.
Context {Inst : Type}.
Variable topological_iter : EntityGraph → list Node.
Variable isinstance_op_types : Op → bool.
Variable match_operand : Op → M (Inst * World) bool.
Variable apply_to_operand : Op → M (Inst * World) unit.









End OperandDispatchFacts.

Example apply_multi_output_operand :
  let h : Heap := λ n, mkEntity n (if decide (n = 3) then 8 else 7) [] [n] in
  let w := mkWorld (mkGraph [1; 2; 3] [] []) h empty_records ∅ in
  let r := apply_traced (Inst:=unit) nodes (λ _, true)
             (λ o, ret (bool_decide (o = 7))) (λ _, ret tt) ([], (tt, w)) in
  r.2 = Ok true ∧
  r.1.1 = [MatchCall 7; MatchReturn 7 true; ApplyCall 7; MatchCall 8; MatchReturn 8 false].
Proof. by vm_compute. Qed.


(** ** The optimizer driver *)

Lemma forward_loop_Ok_Some fuel idx : ∀ e y,
  forward_loop fuel idx e = Ok (Some y) → idx !! Some y = None.
Proof.
  induction fuel as [|fuel IH]; intros e y; simpl; [done|].
  destruct (idx !! e) as [r|] eqn:E.
  - destruct (record_type r); [apply IH|done..].
  - by intros [= ->].
Qed.

Lemma fwd_resolved fuel records inp :
  is_Ok (get_optimization_result fuel records (Some inp) None) →
  get_optimization_result fuel records (Some (fwd fuel records inp)) None = Ok None ∨
  fwd fuel records inp = inp.
Proof.
  unfold fwd. destruct (get_optimization_result fuel records (Some inp) None)
    as [[y|]| |] eqn:E; simpl; [|by right..].
  intros _. left. unfold get_optimization_result in *.
  destruct (_ !! Some inp); [|done].
  by rewrite (forward_loop_Ok_Some _ _ _ _ E).
Qed.

Lemma fwd_idemp fuel records inp :
  is_Ok (get_optimization_result fuel records (Some inp) None) →
  is_Ok (get_optimization_result fuel records (Some (fwd fuel records inp)) None) ∧
  fwd fuel records (fwd fuel records inp) = fwd fuel records inp.
Proof.
  intros H. destruct (fwd_resolved _ _ _ H) as [E|E].
  - split; [by rewrite E|]. unfold fwd at 1. by rewrite E.
  - by rewrite !E.
Qed.

Lemma resolve_inputs_Ok fuel records inps :
  Forall (λ inp, is_Ok (get_optimization_result fuel records (Some inp) None)) inps →
  ∃ b, resolve_inputs fuel records inps = Ok (b, fwd fuel records <$> inps) ∧
       (b = false → fwd fuel records <$> inps = inps).
Proof.
  induction 1 as [|inp inps Hinp _ (b & E & Hb)]; simpl; [by exists false|].
  unfold fwd at 1 3. destruct (get_optimization_result fuel records (Some inp) None)
    as [v| |]; [|done..]. simpl. rewrite E. simpl.
  eexists. split; [done|]. intros [Hd ->]%orb_false_iff.
  apply bool_decide_eq_false in Hd. specialize (Hb eq_refl).
  change (list_fmap Node Node (fwd fuel records) inps) with (fwd fuel records <$> inps).
  rewrite Hb. f_equal. by destruct (decide (py_or v inp = inp)).
Qed.

Lemma map_result_Ok {A B} (f : A → result B) (g : A → B) (xs : list A) :
  Forall (λ x, f x = Ok (g x)) xs → map_result f xs = Ok (g <$> xs).
Proof. induction 1 as [|x xs Hx _ IH]; simpl; [done|]. by rewrite Hx, IH. Qed.

Lemma for_each_inv {S A} (Inv : list A → S → Prop) (body : A → M S unit) (xs : list A) :
  ∀ done_ s,
  Inv done_ s →
  (∀ d x s, Inv d s → x ∈ xs → ∃ s', body x s = (s', Ok tt) ∧ Inv (d ++ [x]) s') →
  ∃ s', for_each xs body s = (s', Ok tt) ∧ Inv (done_ ++ xs) s'.
Proof.
  induction xs as [|x xs IH]; intros d s Hs Hbody; simpl.
  - exists s. by rewrite app_nil_r.
  - destruct (Hbody d x s Hs) as (s1 & E1 & H1); [left|].
    unfold bind. rewrite E1.
    destruct (IH (d ++ [x]) s1 H1) as (s2 & E2 & H2).
    { intros d' y s' Hd Hy. apply Hbody; [done|by right]. }
    exists s2. split; [done|]. by rewrite <- app_assoc in H2.
Qed.

Global Arguments set_inputs : simpl never.

Lemma set_inputs_eq h n l :
  set_inputs h n l n = mkEntity (key (h n)) (op (h n)) l (outputs (h n)).
Proof. unfold set_inputs. by case_decide. Qed.

Lemma set_inputs_ne h n l m : m ≠ n → set_inputs h n l m = h m.
Proof. intros. unfold set_inputs. by case_decide. Qed.

Lemma replace_inputs_of_spec fuel w wc V s :
  same_but_heap w wc →
  inputs_resolved fuel (w_records w) V (w_heap w) (w_heap wc) →
  Forall (λ inp, is_Ok (get_optimization_result fuel (w_records w) (Some inp) None))
         (inputs (w_heap w s)) →
  ∃ wc', replace_inputs_of fuel s wc = (wc', Ok tt) ∧ same_but_heap w wc' ∧
         inputs_resolved fuel (w_records w) (V ++ [s]) (w_heap w) (w_heap wc').
Proof.
  intros (Hg & Hr & Hp) Hres Hok.
  unfold replace_inputs_of, bind, get, lift_result. rewrite Hr.
  set (recs := w_records w) in *.
  assert (Forall (λ inp, is_Ok (get_optimization_result fuel recs (Some inp) None))
                 (inputs (w_heap wc s)) ∧
          fwd fuel recs <$> inputs (w_heap wc s) = fwd fuel recs <$> inputs (w_heap w s))
    as [Hok' Hsame].
  { destruct (Hres s) as (_ & _ & _ & ->). case_decide; [|done]. split.
    - apply Forall_fmap. eapply Forall_impl; [exact Hok|].
      intros inp Hinp. simpl. by apply fwd_idemp.
    - rewrite <- list_fmap_compose. apply Forall_fmap_ext_1.
      eapply Forall_impl; [exact Hok|]. intros inp Hinp. simpl. by apply fwd_idemp. }
  destruct (resolve_inputs_Ok fuel recs _ Hok') as (b & -> & Hb). simpl.
  rewrite Hsame in *. destruct b; simpl.
  - eexists. split; [done|]. split; [done|]. intros s'.
    destruct (Hres s') as (H1 & H2 & H3 & H4). unfold with_heap. simpl.
    destruct (decide (s' = s)) as [->|Hs'].
    + rewrite set_inputs_eq. simpl.
      split_and!; [done..|]. rewrite decide_True; [done|].
      apply elem_of_app. right. left.
    + rewrite set_inputs_ne by done.
      split_and!; [done..|]. rewrite H4.
      destruct (decide (s' ∈ V)); [rewrite decide_True|rewrite decide_False]; try done.
      * apply elem_of_app. by left.
      * intros [?|?%list_elem_of_singleton]%elem_of_app; done.
  - exists wc. split; [done|]. split; [done|]. intros s'.
    destruct (Hres s') as (H1 & H2 & H3 & H4). split_and!; [done..|].
    destruct (decide (s' = s)) as [->|Hs'].
    + rewrite decide_True by (apply elem_of_app; right; left).
      by rewrite <- (Hb eq_refl).
    + rewrite H4.
      destruct (decide (s' ∈ V)); [rewrite decide_True|rewrite decide_False]; try done.
      * apply elem_of_app. by left.
      * intros [?|?%list_elem_of_singleton]%elem_of_app; done.
Qed.

Lemma replace_inputs_spec fuel w :
  Forall (λ s, Forall (λ inp, is_Ok (get_optimization_result fuel (w_records w)
                                                             (Some inp) None))
                      (inputs (w_heap w s)))
         (visited_successors (w_graph w)) →
  ∃ w', _replace_inputs fuel w = (w', Ok tt) ∧ same_but_heap w w' ∧
        inputs_resolved fuel (w_records w) (visited_successors (w_graph w))
                        (w_heap w) (w_heap w').
Proof.
  intros Hok. unfold _replace_inputs, bind, get, visited_successors in *.
  set (g := w_graph w) in *. set (recs := w_records w) in *.
  destruct (for_each_inv
    (λ d wc, same_but_heap w wc ∧
             inputs_resolved fuel recs (d ≫= successors g) (w_heap w) (w_heap wc))
    (λ node, for_each (successors g node) (replace_inputs_of fuel))
    (iter_nodes g) [] w) as (w' & E & Hs & Hr).
  - split; [done|]. intros s. split_and!; try done.
  - intros d x wc [Hs Hr] Hx.
    destruct (for_each_inv
      (λ d' wc', same_but_heap w wc' ∧
                 inputs_resolved fuel recs ((d ≫= successors g) ++ d') (w_heap w) (w_heap wc'))
      (replace_inputs_of fuel) (successors g x) [] wc) as (wc' & E' & Hs' & Hr').
    + split; [done|]. by rewrite app_nil_r.
    + intros d' s wc1 [Hs1 Hr1] Hsin.
      destruct (replace_inputs_of_spec fuel w wc1 ((d ≫= successors g) ++ d') s Hs1 Hr1)
        as (wc2 & E2 & Hs2 & Hr2).
      { apply (proj1 (Forall_forall _ _) Hok). apply list_elem_of_bind. by exists x. }
      exists wc2. by rewrite <- app_assoc in Hr2.
    + exists wc'. split; [done|]. split; [done|].
      by rewrite bind_app, bind_singleton.
  - by exists w'.
Qed.

Lemma recompute_results_spec fuel w :
  Forall (λ r, is_Ok (get_optimization_result fuel (w_records w) r r)) (results (w_graph w)) →
  recompute_results fuel w =
  (with_graph (set_results (w_graph w) (fwd_result fuel (w_records w) <$> results (w_graph w))) w,
   Ok tt).
Proof.
  intros Hok. unfold recompute_results, bind, get, lift_result.
  rewrite (map_result_Ok _ (fwd_result fuel (w_records w))); [done|].
  eapply Forall_impl; [exact Hok|]. intros r Hr. simpl in *. unfold fwd_result.
  by destruct (get_optimization_result fuel (w_records w) r r).
Qed.

Section OptimizerFacts.
Context {RuleType Inst : Type} `{EqDecision RuleType}.
Variable new_rule : RuleType → Inst.
Variable rule_apply : RuleType → M (Inst * World) bool.

(** C3, amended: when a rule's [apply] returns [True] and the forward
    resolutions that [optimize] asks for return (those of the inputs of the
    successors of the nodes of the graph, and those of the results), the
    pass goes on: nothing is raised, also for an input whose resolution is
    the deleted outcome. It goes on in a world where every successor of a
    node of the graph has each input replaced by its forward resolution if
    that is an entity and kept if it is [None], where every other entity has
    the inputs it had, and where [results] holds each result resolved with
    itself as fallback. *)
Theorem optimize_repairs_after_change fuel rule_type rest cache w rule' w1 :
  rule_apply rule_type (default (new_rule rule_type) (cache rule_type), w)
    = ((rule', w1), Ok true) →
  Forall (λ s, Forall (λ inp, is_Ok (get_optimization_result fuel (w_records w1)
                                                             (Some inp) None))
                      (inputs (w_heap w1 s)))
         (visited_successors (w_graph w1)) →
  Forall (λ r, is_Ok (get_optimization_result fuel (w_records w1) r r))
         (results (w_graph w1)) →
  ∃ w2, repaired fuel w1 w2 ∧
        optimize_loop new_rule rule_apply fuel (rule_type :: rest) cache w =
        optimize_loop new_rule rule_apply fuel rest
          (λ t, if decide (t = rule_type) then Some rule' else cache t) w2.
Proof.
  intros Happly Hin Hres. simpl. rewrite Happly.
  destruct (replace_inputs_spec fuel w1 Hin) as (wi & Ei & (Hg & Hr & Hp) & Hh).
  unfold bind at 1. unfold bind at 1. rewrite Ei.
  rewrite recompute_results_spec by (by rewrite Hg, Hr).
  eexists. split; [|done]. unfold repaired. simpl. rewrite Hg, Hr, Hp. done.
Qed.

(** An exception of a rule's [apply] ends the pass: [optimize] has no handler. *)
Lemma optimize_loop_raise fuel rule_type rest cache w s' e :
  rule_apply rule_type (default (new_rule rule_type) (cache rule_type), w) = (s', Raise e) →
  optimize_loop new_rule rule_apply fuel (rule_type :: rest) cache w = (s'.2, Raise e).
Proof. intros H. simpl. rewrite H. by destruct s'. Qed.

(** Nothing of the store that [optimize] is entered with is used: line 357
    makes a new one, and line 358 a new instance cache. *)
Lemma optimize_fresh_records fuel rule_types w records :
  optimize new_rule rule_apply fuel rule_types (with_records records w) =
  optimize new_rule rule_apply fuel rule_types w.
Proof. unfold optimize. unfold bind at 1 5. done. Qed.
End OptimizerFacts.

Lemma forward_loop_cycle_1_5 fuel :
  let idx := _original_entity_to_records
               (records_of_log [mkRecord (Some 1) (Some 5) replace;
                                mkRecord (Some 5) (Some 1) replace]) in
  forward_loop fuel idx (Some 1) = OutOfFuel ∧ forward_loop fuel idx (Some 5) = OutOfFuel.
Proof.
  intros idx.
  assert (idx !! (Some 1 : Val) = Some (mkRecord (Some 1) (Some 5) replace)) as E1 by done.
  assert (idx !! (Some 5 : Val) = Some (mkRecord (Some 5) (Some 1) replace)) as E5 by done.
  clearbody idx. induction fuel as [|fuel [IH1 IH5]]; [done|].
  cbn [forward_loop]. rewrite E1, E5. done.
Qed.

Lemma replace_inputs_cycle_1_5 fuel :
  let w1 := mkWorld (w_graph w_PQ) (w_heap w_PQ)
              (records_of_log [mkRecord (Some 1) (Some 5) replace;
                               mkRecord (Some 5) (Some 1) replace]) ∅ in
  _replace_inputs fuel w1 = (w1, OutOfFuel).
Proof.
  intros w1. destruct (forward_loop_cycle_1_5 fuel) as [H1 _].
  assert (get_optimization_result fuel (w_records w1) (Some 1) None = OutOfFuel) as Hg.
  { unfold get_optimization_result.
    destruct (_original_entity_to_records (w_records w1) !! (Some 1 : Val)) eqn:E;
      [exact H1|by vm_compute in E]. }
  unfold _replace_inputs. unfold bind at 1. unfold get at 1.
  change (iter_nodes (w_graph w1)) with [1; 2]. cbn [for_each].
  change (successors (w_graph w1) 1) with [2]. cbn [for_each].
  unfold bind at 1. unfold bind at 1. unfold replace_inputs_of at 1.
  unfold bind at 1. unfold get at 1. unfold bind at 1. unfold lift_result at 1.
  change (inputs (w_heap w1 2)) with [1]. cbn [resolve_inputs].
  match goal with
  | |- context [rbind ?x _] => replace x with (@OutOfFuel Val) by (symmetry; exact Hg)
  end.
  done.
Qed.

(** C3, as stated, fails, in three ways. (a) The rule's [apply] returns
    [True], the surviving node Q = 2 has the input P = 1 whose forward
    resolution is the deleted outcome, and [optimize] returns its records:
    the input is kept (lines 333-334) and nothing is raised. (b) The rule's
    [apply] returns [True] and leaves the surviving node 2 without a
    predecessor; its input 1 resolves forward to 5 and is not rewritten:
    lines 327-328 visit the successors of the nodes of the graph. (c) The
    rule's [apply] returns [True] and leaves a replace cycle on the input of
    a successor: no bound on the loop of lines 69-75 lets the repair, and so
    [optimize], return. *)
Lemma optimize_repair_as_stated_fails :
  (let r := optimize (λ _, tt) prune_rule 3 [tt] w_PTQ in
   (prune_rule tt (tt, w_PTQ)).2 = Ok true ∧
   r.2 = Ok (records_of_log [mkRecord (Some 1) None delete]) ∧
   w_graph r.1 = mkGraph [3; 2] [(3, 2)] [Some 2] ∧
   inputs (w_heap r.1 2) = [1; 3] ∧
   get_optimization_result 3 (w_records r.1) (Some 1) None = Ok None) ∧
  (let r := optimize (λ _, tt) unlink_rule 3 [tt] w_PQ in
   (unlink_rule tt (tt, w_PQ)).2 = Ok true ∧
   r.2 = Ok (records_of_log [mkRecord (Some 1) (Some 5) replace]) ∧
   w_graph r.1 = mkGraph [2; 5] [] [Some 2] ∧
   inputs (w_heap r.1 2) = [1] ∧
   get_optimization_result 3 (w_records r.1) (Some 1) None = Ok (Some 5)) ∧
  ((cycle_rule tt (tt, w_PQ)).2 = Ok true ∧
   2 ∈ visited_successors (w_graph (cycle_rule tt (tt, w_PQ)).1.2) ∧
   inputs (w_heap (cycle_rule tt (tt, w_PQ)).1.2 2) = [1] ∧
   ∀ fuel, (optimize (λ _, tt) cycle_rule fuel [tt] w_PQ).2 = OutOfFuel).
Proof.
  split_and!; try by vm_compute.
  - vm_compute. left.
  - intros fuel.
    set (w1 := mkWorld (w_graph w_PQ) (w_heap w_PQ)
                 (records_of_log [mkRecord (Some 1) (Some 5) replace;
                                  mkRecord (Some 5) (Some 1) replace]) ∅).
    assert (cycle_rule tt (tt, with_records empty_records w_PQ) = ((tt, w1), Ok true)) as E
      by reflexivity.
    unfold optimize. unfold bind at 1. unfold modify at 1. unfold bind at 1.
    cbn [optimize_loop default]. rewrite E.
    unfold bind at 1. unfold bind at 1. unfold bind at 1.
    destruct (_replace_inputs fuel w1) as [w2 r2] eqn:Er.
    pose proof (eq_trans (eq_sym Er) (replace_inputs_cycle_1_5 fuel)) as Hr.
    by injection Hr as -> ->.
Qed.

Lemma optimize_repairs_after_change_witness :
  let w1 := (prune_rule tt (tt, w_PTQ)).1.2 in
  ∃ w2, repaired 3 w1 w2 ∧
        optimize_loop (λ _, tt) prune_rule 3 [tt] (λ _, None) w_PTQ =
        optimize_loop (λ _, tt) prune_rule 3 []
          (λ t, if decide (t = tt) then Some tt else None) w2.
Proof.
  apply (optimize_repairs_after_change (λ _, tt) prune_rule 3 tt [] (λ _, None) w_PTQ tt
           (prune_rule tt (tt, w_PTQ)).1.2).
  - reflexivity.
  - vm_compute. repeat first [apply Forall_nil_2 | apply Forall_cons_2]; exact I.
  - vm_compute. repeat first [apply Forall_nil_2 | apply Forall_cons_2]; exact I.
Defined.

(** A replaced input is rewritten: Q = 2 reads A = 1, which a rule replaced
    by B = 5. *)
Example replace_inputs_rewrites :
  let w := mkWorld (mkGraph [5; 2] [(5, 2)] [Some 2]) (heap_of [(2, [1])])
             (records_of_log [mkRecord (Some 1) (Some 5) replace]) ∅ in
  let r := _replace_inputs 3 w in
  r.2 = Ok tt ∧ inputs (w_heap r.1 2) = [5].
Proof. by vm_compute. Qed.

Lemma frames_bind {A B} p (m : M World A) (k : A → M World B) :
  frames p m → (∀ a, frames p (k a)) → frames p (bind m k).
Proof.
  intros Hm Hk w. unfold bind. rewrite Hm.
  destruct (m w) as [w' [a|e|]]; simpl; [apply Hk|done..].
Qed.

Lemma frames_for_each {A} p (xs : list A) (body : A → M World unit) :
  (∀ x, frames p (body x)) → frames p (for_each xs body).
Proof.
  intros Hb. induction xs as [|x xs IH]; [done|].
  simpl. apply frames_bind; [apply Hb|done].
Qed.

Lemma frames_replace_inputs_of p fuel succ : frames p (replace_inputs_of fuel succ).
Proof.
  intros w. unfold replace_inputs_of, bind, get, lift_result. simpl.
  destruct (resolve_inputs _ _ _) as [[[] l]| |]; done.
Qed.

Lemma frames_replace_inputs p fuel : frames p (_replace_inputs fuel).
Proof.
  intros w. unfold _replace_inputs. unfold bind at 1 3. unfold get at 1 3. simpl.
  apply frames_for_each. intros node. apply frames_for_each. intros succ.
  apply frames_replace_inputs_of.
Qed.

Section StateAcrossCalls.
Context {RuleType Inst : Type} `{EqDecision RuleType}.
Variable new_rule : RuleType → Inst.
Variable rule_apply : RuleType → M (Inst * World) bool.

Lemma frames_recompute_results p fuel :
  frames p (recompute_results fuel).
Proof.
  intros w. unfold recompute_results, bind, get, lift_result. simpl.
  by destruct (map_result _ _).
Qed.

Lemma frames_optimize_loop p fuel rule_types :
  ignores_preds_to_remove rule_apply →
  ∀ cache, frames p (optimize_loop new_rule rule_apply fuel rule_types cache).
Proof.
  intros Hrule. induction rule_types as [|rule_type rest IH]; intros cache w; [done|].
  simpl. rewrite Hrule. simpl.
  destruct (rule_apply rule_type _) as [[rule' w'] [changed| |]]; simpl; [|done..].
  apply frames_bind; [|intros; apply IH].
  destruct changed; [|done].
  apply frames_bind; [apply frames_replace_inputs|intros; apply frames_recompute_results].
Qed.

Lemma frames_optimize fuel rule_types p :
  ignores_preds_to_remove rule_apply →
  frames p (optimize new_rule rule_apply fuel rule_types).
Proof.
  intros Hrule. unfold optimize.
  apply frames_bind; [done|]. intros _.
  apply frames_bind; [by apply frames_optimize_loop|]. intros _. done.
Qed.
End StateAcrossCalls.

Lemma frames_process_of_core {G A} (g' : G) p (m : M World A) :
  frames p m → frames_process g' p (of_core m).
Proof. intros Hm g w. unfold of_core. simpl. rewrite Hm. by destruct (m w). Qed.

Lemma frames_process_xbind {G A B} (g' : G) p (m : XM (G * World) A)
    (k : A → XM (G * World) B) :
  frames_process g' p m → (∀ a, frames_process g' p (k a)) → frames_process g' p (xbind m k).
Proof.
  intros Hm Hk g w. unfold xbind. rewrite (Hm g w).
  destruct (m (g, w)) as [[g1 w1] [a|e|]]; simpl; [|done..].
  rewrite (Hk a g1 w1). done.
Qed.

Lemma frames_process_xret {G A} (g' : G) p (a : A) : frames_process g' p (xret a).
Proof. by intros g w. Qed.

Section StateOfTheProcess.
Context {RuleType Inst G : Type} `{EqDecision RuleType}.
Variable new_rule : RuleType → Inst.
Variable rule_apply : RuleType → XM (Inst * (G * World)) bool.

Lemma frames_process_loop (g' : G) p fuel rule_types :
  ignores_surviving_state rule_apply →
  ∀ cache, frames_process g' p
             (optimize_loop_in_process new_rule rule_apply fuel rule_types cache).
Proof.
  intros Hrule. induction rule_types as [|rule_type rest IH]; intros cache g w; [done|].
  simpl. rewrite (Hrule _ _ g w g' p). simpl.
  destruct (rule_apply rule_type _) as [[rule' [g1 w1]] [changed| |]]; simpl; [|done..].
  apply frames_process_xbind; [|intros; apply IH].
  destruct changed; [|apply frames_process_xret].
  apply frames_process_of_core.
  apply frames_bind; [apply frames_replace_inputs|intros; apply frames_recompute_results].
Qed.

(** C8, amended: the store and the rule instances are made anew in each
    call of [optimize], so nothing of an earlier store or instance reaches a
    later call. What lives outside the instances does reach it: the class
    attribute [_preds_to_remove] and the module-level and class-level
    variables of the modules of the rules ([_extract_result_cache] and
    [_var_counter] in arithmetic_query.py). When no rule reads or writes
    any of these, a call on the same graph and entities has the same
    outcome (result, graph, entity attributes and records) whatever store,
    dictionary and module variables earlier calls have left. *)
Theorem optimize_independent_of_earlier_calls fuel rule_types (g g' : G) (w : World)
    records p :
  ignores_surviving_state rule_apply →
  let r := optimize_in_process new_rule rule_apply fuel rule_types (g, w) in
  let r' := optimize_in_process new_rule rule_apply fuel rule_types
              (g', with_preds_to_remove p (with_records records w)) in
  r'.2 = r.2 ∧ w_graph r'.1.2 = w_graph r.1.2 ∧ w_heap r'.1.2 = w_heap r.1.2 ∧
  w_records r'.1.2 = w_records r.1.2.
Proof.
  intros Hrule r r'.
  assert (frames_process g' p (optimize_in_process new_rule rule_apply fuel rule_types))
    as Hf.
  { unfold optimize_in_process.
    apply frames_process_xbind; [by apply frames_process_of_core|]. intros _.
    apply frames_process_xbind; [by apply frames_process_loop|]. intros _.
    by intros g0 w0. }
  assert (optimize_in_process new_rule rule_apply fuel rule_types (g, with_records records w)
          = r) as Hfresh.
  { subst r. unfold optimize_in_process. unfold xbind at 1 4. unfold of_core at 1 2. done. }
  assert (r' = ((g', with_preds_to_remove p r.1.2), r.2)) as ->; [|done].
  subst r'. rewrite (Hf g (with_records records w)). by rewrite Hfresh.
Qed.

(** The driver with the process in view is the driver: for rules that know
    the world only, [optimize_in_process] does what [optimize] does and
    leaves the module variables as they are. *)
Lemma optimize_loop_in_process_of_core (core_apply : RuleType → M (Inst * World) bool)
    fuel rule_types : ∀ cache (g : G) w,
  optimize_loop_in_process new_rule (λ t, rule_of_core (core_apply t)) fuel rule_types
    cache (g, w)
  = of_core (optimize_loop new_rule core_apply fuel rule_types cache) (g, w).
Proof.
  induction rule_types as [|rule_type rest IH]; intros cache g w; [done|].
  simpl. unfold rule_of_core at 1. unfold of_core at 2. simpl.
  destruct (core_apply rule_type _) as [[rule' w1] [changed| |]]; simpl; [|done..].
  unfold xbind at 1. unfold bind at 1.
  destruct changed; simpl.
  - unfold of_core at 1. unfold bind. simpl.
    destruct (_replace_inputs fuel w1) as [w2 [[]| |]]; simpl; [|done..].
    destruct (recompute_results fuel w2) as [w3 [[]| |]]; simpl; [|done..].
    rewrite IH. done.
  - rewrite IH. done.
Qed.

Lemma optimize_in_process_of_core (core_apply : RuleType → M (Inst * World) bool)
    fuel rule_types (g : G) w :
  optimize_in_process new_rule (λ t, rule_of_core (core_apply t)) fuel rule_types (g, w)
  = of_core (optimize new_rule core_apply fuel rule_types) (g, w).
Proof.
  unfold optimize_in_process, optimize.
  unfold xbind at 1. unfold of_core at 1. unfold modify at 1. simpl.
  unfold xbind at 1. rewrite optimize_loop_in_process_of_core.
  unfold of_core. simpl. unfold bind at 1. unfold modify at 1. unfold bind at 1.
  destruct (optimize_loop _ _ _ _ _ _) as [w1 [[]| |]]; done.
Qed.
End StateOfTheProcess.

(** C8, as stated, fails, through each of the three variables that outlive
    a call. (a) [_preds_to_remove]: the first call leaves the graph P -> Q
    as it is and returns an empty store; it also leaves [{P: {Q}}] in the
    class attribute, and with it a second call on the same graph and
    entities removes P. (b) [_extract_result_cache]: in the first call the
    extraction of 7 = 2 + 5 marks the operands 2 and 5, so that 2 and 5 are
    removed with 7; it also leaves the records of 2, 5 and 7 in the module's
    cache, and in a second call on the same graph and entities the
    extraction of 7 is answered from the cache, no operand is marked, and 2
    stays in the graph, with no delete record. (c) [_var_counter]: a call on
    the graph of 7 = 2 + 3 alone names the scalar [__eval_scalar_var1] and
    replaces 7 by the node 9 of that expression; after a call on another
    graph, of other entities, the counter is 1, the cache has no record of
    1, 2 or 7, and the same call names the scalar [__eval_scalar_var2] and
    replaces 7 by the node 10 of that expression. *)
Lemma optimize_outcome_depends_on_earlier_call :
  let fresh : ModuleState := (∅, 0) in
  (let run := optimize_in_process (λ _, tt) (λ t, rule_of_core (prune_then_mark_rule t))
                                  3 [tt] in
   let first := run (fresh, w_PQ) in
   let again := run (first.1.1,
                     with_graph (w_graph w_PQ) (with_heap (w_heap w_PQ) first.1.2)) in
   first.2 = XOk empty_records ∧
   w_graph first.1.2 = w_graph w_PQ ∧
   w_preds_to_remove first.1.2 = {[1 := [2]]} ∧
   again.2 = XOk (records_of_log [mkRecord (Some 1) None delete]) ∧
   w_graph again.1.2 = mkGraph [2] [] [Some 2]) ∧
  (let run := optimize_in_process (λ _, []) eval_rule 3 [tt] in
   let first := run (fresh, e_world) in
   let again := run (first.1.1,
                     with_graph (w_graph e_world) (with_heap (w_heap e_world) first.1.2)) in
   first.2 = XOk (records_of_log [mkRecord (Some 2) None delete;
                                  mkRecord (Some 5) None delete;
                                  mkRecord (Some 7) (Some 9) replace]) ∧
   w_graph first.1.2 = mkGraph [1; 9] [(1, 9)] [Some 9] ∧
   w_preds_to_remove first.1.2 = ∅ ∧
   is_Some (first.1.1.1 !! 7) ∧
   again.2 = XOk (records_of_log [mkRecord (Some 5) None delete;
                                  mkRecord (Some 7) (Some 9) replace]) ∧
   w_graph again.1.2 = mkGraph [1; 2; 9] [(1, 2); (1, 9)] [Some 9]) ∧
  (let run := optimize_in_process (λ _, []) scalar_rule 3 [tt] in
   let alone := run (fresh, s_world) in
   let earlier := run (fresh, t_world) in
   let again := run (earlier.1.1,
                     with_preds_to_remove (w_preds_to_remove earlier.1.2) s_world) in
   alone.2 = XOk (records_of_log [mkRecord (Some 2) None delete;
                                  mkRecord (Some 7) (Some 9) replace]) ∧
   w_graph alone.1.2 = mkGraph [1; 9] [(1, 9)] [Some 9] ∧
   earlier.2 = XOk (records_of_log [mkRecord (Some 12) None delete;
                                    mkRecord (Some 17) (Some 19) replace]) ∧
   earlier.1.1.2 = 1 ∧
   earlier.1.1.1 !! 1 = None ∧ earlier.1.1.1 !! 2 = None ∧ earlier.1.1.1 !! 7 = None ∧
   w_preds_to_remove earlier.1.2 = ∅ ∧
   again.2 = XOk (records_of_log [mkRecord (Some 2) None delete;
                                  mkRecord (Some 7) (Some 10) replace]) ∧
   w_graph again.1.2 = mkGraph [1; 10] [(1, 10)] [Some 10]).
Proof. split_and!; vm_compute; split_and!; by eauto. Qed.

Lemma optimize_independent_of_earlier_calls_witness :
  let run := optimize_in_process (λ _, tt) (λ t, rule_of_core (remove_rule t)) 3 [tt] in
  let r := run ((∅, 0) : ModuleState, w_PTQ) in
  let r' := run (({[7 := no_record]}, 4) : ModuleState,
                 with_preds_to_remove {[1 := [2]]}
                   (with_records (records_of_log [mkRecord (Some 9) (Some 1) replace])
                                 w_PTQ)) in
  r'.2 = r.2 ∧ w_graph r'.1.2 = w_graph r.1.2 ∧ w_heap r'.1.2 = w_heap r.1.2 ∧
  w_records r'.1.2 = w_records r.1.2.
Proof.
  apply (optimize_independent_of_earlier_calls (λ _, tt)
           (λ t, rule_of_core (remove_rule t)) 3 [tt]
           ((∅, 0) : ModuleState) (({[7 := no_record]}, 4) : ModuleState) w_PTQ
           (records_of_log [mkRecord (Some 9) (Some 1) replace]) {[1 := [2]]}).
  intros rule_type rule g w g' p. reflexivity.
Defined.

(** * Further properties *)

(** ** The provenance store *)

Lemma index_wf_append s r : index_wf s → index_wf (append_record s r).
Proof.
  intros [H1 H2]. split; intros k r'.
  - rewrite append_record_orig. case_decide; [by intros [= <-]|apply H1].
  - rewrite append_record_opt. case_decide; [by intros [= <-]|apply H2].
Qed.

Lemma index_wf_foldl l : ∀ s, index_wf s → index_wf (foldl append_record s l).
Proof.
  induction l as [|r l IH]; intros s Hs; [done|]. simpl. by apply IH, index_wf_append.
Qed.

Lemma index_wf_log log : index_wf (records_of_log log).
Proof. apply index_wf_foldl. split; intros k r; simpl; by rewrite lookup_empty. Qed.

Lemma forward_loop_no_raise fuel idx :
  (∀ k r, idx !! k = Some r → fwd_key r = Some k) →
  ∀ e ex, forward_loop fuel idx e ≠ Raise ex.
Proof.
  intros Hwf. induction fuel as [|fuel IH]; intros e ex; simpl; [done|].
  destruct (idx !! e) as [r|] eqn:E; [|done].
  apply Hwf in E. unfold fwd_key in E.
  destruct (record_type r); [apply IH|done..].
Qed.

Lemma backward_loop_no_raise fuel idx :
  (∀ k r, idx !! k = Some r → bwd_key r = Some k) →
  ∀ e ex, backward_loop fuel idx e ≠ Raise ex.
Proof.
  intros Hwf. induction fuel as [|fuel IH]; intros e ex; simpl; [done|].
  destruct (idx !! e) as [r|] eqn:E; [|done].
  apply Hwf in E. unfold bwd_key in E.
  destruct (record_type r); [apply IH|done..].
Qed.

(** X1: on a store that [append_record] has built from the empty one, the
    assertions of lines 74 and 89 never fail: neither resolution raises,
    whatever entity, default and log. *)
Theorem resolution_never_raises (log : list OptimizationRecord) (fuel : nat)
    (e d : Val) (ex : exn) :
  get_optimization_result fuel (records_of_log log) e d ≠ Raise ex ∧
  get_original_entity fuel (records_of_log log) e d ≠ Raise ex.
Proof.
  destruct (index_wf_log log) as [H1 H2].
  unfold get_optimization_result, get_original_entity. split.
  - destruct (_ !! e); [by apply forward_loop_no_raise|done].
  - destruct (_ !! e); [by apply backward_loop_no_raise|done].
Qed.

(** X2: last write wins in both indices. After any log, the original index
    answers a key with the last replace or delete record filed under it, and
    the optimized index with the last new or replace record filed under it;
    earlier records for the key stay in the log and are out of reach of the
    lookups. *)
Theorem index_last_write_wins (s : OptimizationRecords)
    (l1 l2 : list OptimizationRecord) (r : OptimizationRecord) (k : Val) :
  let s' := foldl append_record s (l1 ++ r :: l2) in
  _records s' = _records s ++ l1 ++ r :: l2 ∧
  (fwd_key r = Some k → Forall (λ r', fwd_key r' ≠ Some k) l2 →
   _original_entity_to_records s' !! k = Some r) ∧
  (bwd_key r = Some k → Forall (λ r', bwd_key r' ≠ Some k) l2 →
   _optimized_entity_to_records s' !! k = Some r).
Proof.
  split_and!.
  - generalize (l1 ++ r :: l2). intros l. revert s.
    induction l as [|x l IH]; intros s; simpl; [by rewrite app_nil_r|].
    rewrite IH. simpl. by rewrite <- app_assoc.
  - apply foldl_append_orig_hit.
  - apply foldl_append_opt_hit.
Qed.

Lemma index_last_write_wins_witness :
  let s' := foldl append_record empty_records
              ([mkRecord (Some 1) (Some 2) replace] ++
               mkRecord (Some 1) (Some 3) replace :: [mkRecord (Some 4) None delete]) in
  _original_entity_to_records s' !! Some 1 = Some (mkRecord (Some 1) (Some 3) replace).
Proof.
  apply (index_last_write_wins empty_records [mkRecord (Some 1) (Some 2) replace]
           [mkRecord (Some 4) None delete] (mkRecord (Some 1) (Some 3) replace) (Some 1)).
  - reflexivity.
  - repeat first [apply Forall_nil_2 | apply Forall_cons_2]; vm_compute; congruence.
Defined.

(** X3: what forward resolution returns is final. If an entity with a record
    resolves to an entity [y], then [y] has no record as original, and
    resolving [y] gives back whatever default is passed. *)
Theorem resolved_entity_is_final (s : OptimizationRecords) (fuel : nat) (a y : Node)
    (d : Val) :
  is_Some (_original_entity_to_records s !! Some a) →
  get_optimization_result fuel s (Some a) d = Ok (Some y) →
  _original_entity_to_records s !! Some y = None ∧
  ∀ fuel' d', get_optimization_result fuel' s (Some y) d' = Ok d'.
Proof.
  intros [r Hr] H. unfold get_optimization_result in H. rewrite Hr in H.
  apply forward_loop_Ok_Some in H. split; [done|].
  intros fuel' d'. by apply get_optimization_result_untouched.
Qed.

Lemma resolved_entity_is_final_witness :
  let s := records_of_log [mkRecord (Some 1) (Some 2) replace;
                           mkRecord (Some 2) (Some 3) replace] in
  _original_entity_to_records s !! Some 3 = None ∧
  ∀ fuel' d', get_optimization_result fuel' s (Some 3) d' = Ok d'.
Proof.
  apply (resolved_entity_is_final
           (records_of_log [mkRecord (Some 1) (Some 2) replace;
                            mkRecord (Some 2) (Some 3) replace]) 3 1 3 None).
  - vm_compute. eauto.
  - reflexivity.
Defined.

Lemma replaced_by_first idx e e' :
  tc (replaced_by idx) e e' → ∃ e1, replaced_by idx e e1.
Proof. intros [x y H|x y z H _]; by eexists. Qed.

Lemma replaced_by_cycle idx e e1 :
  tc (replaced_by idx) e e → replaced_by idx e e1 → tc (replaced_by idx) e1 e1.
Proof.
  intros Hc (r & Hr & Ht & <-).
  assert (∀ x y, tc (replaced_by idx) x y → x = e → rtc (replaced_by idx) (new_entity r) y) as H.
  { intros x y Hxy. destruct Hxy as [x y (r' & Hr' & _ & <-)|x y z (r' & Hr' & _ & <-) Hyz];
      intros ->; rewrite Hr in Hr'; injection Hr' as <-.
    - done.
    - by apply tc_rtc. }
  eapply tc_rtc_l; [by apply (H e e Hc)|]. apply tc_once. by exists r.
Qed.

(** X4: a replace chain that comes back to where it started makes forward
    resolution loop for ever: whatever the bound on the iterations of the
    [while] loop of lines 69-75, the loop has not reached its exit. *)
Theorem cyclic_replacement_diverges (s : OptimizationRecords) (e d : Val) :
  tc (replaced_by (_original_entity_to_records s)) e e →
  ∀ fuel, get_optimization_result fuel s e d = OutOfFuel.
Proof.
  intros Hc fuel. unfold get_optimization_result.
  assert (is_Some (_original_entity_to_records s !! e)) as [r0 ->].
  { destruct (replaced_by_first _ _ _ Hc) as (e1 & r & Hr & _). by rewrite Hr. }
  revert e Hc. induction fuel as [|fuel IH]; intros e Hc; simpl; [done|].
  destruct (replaced_by_first _ _ _ Hc) as [e1 He1].
  pose proof (replaced_by_cycle _ _ _ Hc He1) as Hc1.
  destruct He1 as (r & -> & -> & <-). by apply IH.
Qed.

Lemma cyclic_replacement_diverges_witness :
  get_optimization_result 1000
    (records_of_log [mkRecord (Some 1) (Some 2) replace;
                     mkRecord (Some 2) (Some 1) replace]) (Some 1) (Some 1)
  = OutOfFuel.
Proof.
  apply (cyclic_replacement_diverges
           (records_of_log [mkRecord (Some 1) (Some 2) replace;
                            mkRecord (Some 2) (Some 1) replace]) (Some 1) (Some 1)).
  eapply tc_l; [|apply tc_once].
  - exists (mkRecord (Some 1) (Some 2) replace). by vm_compute.
  - exists (mkRecord (Some 2) (Some 1) replace). by vm_compute.
Defined.

Lemma foldl_append_orig_mem l : ∀ s k r,
  _original_entity_to_records (foldl append_record s l) !! k = Some r →
  r ∈ l ∨ _original_entity_to_records s !! k = Some r.
Proof.
  induction l as [|x l IH]; intros s k r; simpl; [by right|].
  intros [H|H]%IH; [left; by right|].
  rewrite append_record_orig in H. case_decide; [|by right].
  injection H as <-. left. left.
Qed.

Lemma foldl_append_opt_mem l : ∀ s k r,
  _optimized_entity_to_records (foldl append_record s l) !! k = Some r →
  r ∈ l ∨ _optimized_entity_to_records s !! k = Some r.
Proof.
  induction l as [|x l IH]; intros s k r; simpl; [by right|].
  intros [H|H]%IH; [left; by right|].
  rewrite append_record_opt in H. case_decide; [|by right].
  injection H as <-. left. left.
Qed.

Lemma forward_loop_snoc fuel idx k r :
  (record_type r = replace → <[k:=r]> idx !! new_entity r = None) →
  ∀ e, forward_loop fuel idx e ≠ OutOfFuel →
       forward_loop (S fuel) (<[k:=r]> idx) e ≠ OutOfFuel.
Proof.
  intros Hnew. induction fuel as [|fuel IH]; intros e H; [done|].
  change (match <[k:=r]> idx !! e with
          | None => Ok e
          | Some record =>
              match record_type record with
              | replace => forward_loop (S fuel) (<[k:=r]> idx) (new_entity record)
              | delete => Ok None
              | new => Raise AssertionError
              end
          end ≠ OutOfFuel).
  destruct (decide (k = e)) as [->|Hk].
  - rewrite lookup_insert_eq. destruct (record_type r) eqn:Ht; [|done..].
    simpl. by rewrite Hnew.
  - rewrite lookup_insert_ne by done. simpl in H.
    destruct (idx !! e) as [r'|]; [|done].
    destruct (record_type r'); [by apply IH|done..].
Qed.

Lemma backward_loop_insert_ne fuel idx C r :
  (∀ k r', idx !! k = Some r' → record_type r' = replace → original_entity r' ≠ C) →
  ∀ e, e ≠ C → backward_loop fuel (<[C:=r]> idx) e = backward_loop fuel idx e.
Proof.
  intros Hidx. induction fuel as [|fuel IH]; intros e He; [done|].
  simpl. rewrite lookup_insert_ne by done.
  destruct (idx !! e) as [r'|] eqn:E; [|done].
  destruct (record_type r') eqn:Ht; [|done..]. apply IH. by eapply Hidx.
Qed.

Lemma backward_loop_snoc_new fuel idx C r :
  record_type r = new →
  ∀ e, backward_loop fuel idx e ≠ OutOfFuel →
       backward_loop fuel (<[C:=r]> idx) e ≠ OutOfFuel.
Proof.
  intros Ht. induction fuel as [|fuel IH]; intros e H; [done|].
  simpl in *. destruct (decide (C = e)) as [->|HC].
  - rewrite lookup_insert_eq. by rewrite Ht.
  - rewrite lookup_insert_ne by done.
    destruct (idx !! e) as [r'|]; [|done].
    destruct (record_type r'); [by apply IH|done..].
Qed.

Lemma records_of_log_snoc l r :
  records_of_log (l ++ [r]) = append_record (records_of_log l) r.
Proof. unfold records_of_log. by rewrite foldl_app. Qed.

Lemma append_record_orig_eq s r :
  _original_entity_to_records (append_record s r) =
  match record_type r with
  | replace | delete => <[original_entity r := r]> (_original_entity_to_records s)
  | new => _original_entity_to_records s
  end.
Proof. done. Qed.

Lemma append_record_opt_eq s r :
  _optimized_entity_to_records (append_record s r) =
  match record_type r with
  | new | replace => <[new_entity r := r]> (_optimized_entity_to_records s)
  | delete => _optimized_entity_to_records s
  end.
Proof. done. Qed.

Lemma terminates_forward log :
  fresh_replacements log →
  ∀ e, forward_loop (S (length log)) (_original_entity_to_records (records_of_log log)) e
       ≠ OutOfFuel.
Proof.
  induction log as [|r l IH] using rev_ind; intros Hfresh e.
  { simpl. by rewrite lookup_empty. }
  assert (fresh_replacements l) as Hl.
  { intros l1 r' l2 -> Hr'. apply (Hfresh l1 r' (l2 ++ [r])); [|done].
    by rewrite <- app_assoc. }
  specialize (IH Hl). rewrite length_app, Nat.add_1_r, records_of_log_snoc.
  rewrite append_record_orig_eq.
  destruct (record_type r) eqn:Ht.
  - apply forward_loop_snoc; [|done]. intros _.
    specialize (Hfresh l r [] eq_refl Ht).
    apply Forall_app in Hfresh as [Hl' Hr]. inversion Hr as [|?? Hrr _]; subst.
    unfold fwd_key in Hrr. rewrite Ht in Hrr.
    rewrite lookup_insert_ne by congruence.
    unfold records_of_log. rewrite foldl_append_orig_miss by done. apply lookup_empty.
  - rewrite forward_loop_mono with (fuel := S (length l)); [done..|lia].
  - apply forward_loop_snoc; [by rewrite Ht|done].
Qed.

Lemma terminates_backward log :
  fresh_replacements log →
  ∀ e, backward_loop (S (length log)) (_optimized_entity_to_records (records_of_log log)) e
       ≠ OutOfFuel.
Proof.
  induction log as [|r l IH] using rev_ind; intros Hfresh e.
  { simpl. by rewrite lookup_empty. }
  assert (fresh_replacements l) as Hl.
  { intros l1 r' l2 -> Hr'. apply (Hfresh l1 r' (l2 ++ [r])); [|done].
    by rewrite <- app_assoc. }
  specialize (IH Hl). rewrite length_app, Nat.add_1_r, records_of_log_snoc.
  rewrite append_record_opt_eq.
  set (s := records_of_log l) in *.
  assert (∀ fuel e, S (length l) ≤ fuel →
            backward_loop fuel (_optimized_entity_to_records s) e ≠ OutOfFuel) as IH'.
  { intros fuel e' Hf. rewrite backward_loop_mono with (fuel := S (length l)); done. }
  destruct (record_type r) eqn:Ht.
  - specialize (Hfresh l r [] eq_refl Ht).
    apply Forall_app in Hfresh as [Hl' Hr]. inversion Hr as [|?? Hrr _]; subst.
    unfold fwd_key in Hrr. rewrite Ht in Hrr.
    assert (∀ k r', _optimized_entity_to_records s !! k = Some r' →
              record_type r' = replace → original_entity r' ≠ new_entity r) as Hidx.
    { intros k r' [Hin|Hemp]%foldl_append_opt_mem Hr'.
      - apply (proj1 (Forall_forall _ _) Hl') in Hin.
        unfold fwd_key in Hin. rewrite Hr' in Hin. congruence.
      - simpl in Hemp. by rewrite lookup_empty in Hemp. }
    clearbody s.
    destruct (decide (e = new_entity r)) as [->|He].
    + change (match <[new_entity r:=r]> (_optimized_entity_to_records s) !! new_entity r with
              | None => Ok (new_entity r)
              | Some record =>
                  match record_type record with
                  | replace => backward_loop (S (length l))
                                 (<[new_entity r:=r]> (_optimized_entity_to_records s))
                                 (original_entity record)
                  | new => Ok None
                  | delete => Raise AssertionError
                  end
              end ≠ OutOfFuel).
      rewrite lookup_insert_eq, Ht.
      rewrite backward_loop_insert_ne by (done || congruence). apply IH.
    + rewrite backward_loop_insert_ne by done. apply IH'. lia.
  - apply backward_loop_snoc_new; [done|]. apply IH'. lia.
  - apply IH'. lia.
Qed.

(** X5: resolution terminates on the logs rules write. If every replace
    record names a replacement that no record up to and including it is
    filed under as original, then both walks return within one iteration
    more than the log has records, for every entity and default, and
    without raising. *)
Theorem resolution_terminates (log : list OptimizationRecord) (fuel : nat) (e d : Val) :
  fresh_replacements log →
  length log < fuel →
  is_Ok (get_optimization_result fuel (records_of_log log) e d) ∧
  is_Ok (get_original_entity fuel (records_of_log log) e d).
Proof.
  intros Hfresh Hfuel. destruct (index_wf_log log) as [W1 W2].
  unfold get_optimization_result, get_original_entity. split.
  - destruct (_ !! e); [|done].
    pose proof (terminates_forward log Hfresh e) as Ht.
    pose proof (forward_loop_no_raise fuel _ W1 e) as Hr.
    rewrite <- (forward_loop_mono _ _ e fuel Ht) in Ht by lia.
    destruct (forward_loop fuel _ e); [done|by destruct (Hr e0)|done].
  - destruct (_ !! e); [|done].
    pose proof (terminates_backward log Hfresh e) as Ht.
    pose proof (backward_loop_no_raise fuel _ W2 e) as Hr.
    rewrite <- (backward_loop_mono _ _ e fuel Ht) in Ht by lia.
    destruct (backward_loop fuel _ e); [done|by destruct (Hr e0)|done].
Qed.

Lemma resolution_terminates_witness :
  let log := [mkRecord (Some 1) (Some 2) replace; mkRecord None (Some 7) new;
              mkRecord (Some 2) (Some 3) replace; mkRecord (Some 3) None delete] in
  is_Ok (get_optimization_result 5 (records_of_log log) (Some 1) None) ∧
  is_Ok (get_original_entity 5 (records_of_log log) (Some 3) None).
Proof.
  apply (resolution_terminates
           [mkRecord (Some 1) (Some 2) replace; mkRecord None (Some 7) new;
            mkRecord (Some 2) (Some 3) replace; mkRecord (Some 3) None delete]
           5 (Some 1) None).
  - intros l1 r l2 Hlog Hr.
    destruct l1 as [|x1 [|x2 [|x3 [|x4 [|x5 l1]]]]]; simplify_eq/=;
      repeat first [apply Forall_nil_2 | apply Forall_cons_2]; vm_compute; congruence.
  - simpl. lia.
Defined.

(** ** Subgraph replacement *)

(** X6: a call of [_replace_subgraph] that raises [ValueError] has written
    nothing: graph, entities, store and bookkeeping are as before the call. *)
Theorem replace_subgraph_checks_before_writes graph ntr nr rtr (w : World) :
  is_ValueError (_replace_subgraph graph ntr nr rtr w).2 →
  (_replace_subgraph graph ntr nr rtr w).1 = w.
Proof. apply replace_subgraph_ValueError_unchanged. Qed.

Lemma replace_subgraph_checks_before_writes_witness :
  (_replace_subgraph None (Some [1]) None None w_PQ).1 = w_PQ.
Proof.
  apply (replace_subgraph_checks_before_writes None (Some [1]) None None w_PQ).
  vm_compute. exact I.
Defined.

Lemma add_edge_graph g u v :
  nodes (add_edge g u v) = nodes g ∧ results (add_edge g u v) = results g ∧
  ∀ e, e ∈ edges (add_edge g u v) ↔ e ∈ edges g ∨ e = (u, v).
Proof.
  unfold add_edge. case_decide as Hx; simpl.
  - split_and!; [done..|]. intros e. split; [tauto|]. by intros [?| ->].
  - split_and!; [done..|]. intros e. by rewrite elem_of_app, list_elem_of_singleton.
Qed.

Lemma add_node_graph g x :
  edges (add_node g x) = edges g ∧ results (add_node g x) = results g ∧
  ∀ n, n ∈ nodes (add_node g x) ↔ n ∈ nodes g ∨ n = x.
Proof.
  unfold add_node. case_decide as Hx; simpl.
  - split_and!; [done..|]. intros e. split; [tauto|]. by intros [?| ->].
  - split_and!; [done..|]. intros e. by rewrite elem_of_app, list_elem_of_singleton.
Qed.

Lemma foldl_add_edge_nodes es : ∀ g,
  nodes (foldl (λ g e, add_edge g e.1 e.2) g es) = nodes g ∧
  results (foldl (λ g e, add_edge g e.1 e.2) g es) = results g ∧
  ∀ e, e ∈ edges (foldl (λ g e, add_edge g e.1 e.2) g es) ↔ e ∈ edges g ∨ e ∈ es.
Proof.
  induction es as [|x es IH]; intros g; simpl.
  - split_and!; [done..|]. intros e. rewrite elem_of_nil. tauto.
  - destruct (IH (add_edge g x.1 x.2)) as (H1 & H2 & H3).
    destruct (add_edge_graph g x.1 x.2) as (G1 & G2 & G3).
    rewrite H1, H2, G1, G2. split_and!; [done..|].
    intros e. rewrite H3, G3, elem_of_cons. destruct x as [u v]. simpl. tauto.
Qed.

Lemma foldl_add_node_nodes ns : ∀ g,
  edges (foldl add_node g ns) = edges g ∧
  results (foldl add_node g ns) = results g ∧
  ∀ n, n ∈ nodes (foldl add_node g ns) ↔ n ∈ nodes g ∨ n ∈ ns.
Proof.
  induction ns as [|x ns IH]; intros g; simpl.
  - split_and!; [done..|]. intros n. rewrite elem_of_nil. tauto.
  - destruct (IH (add_node g x)) as (H1 & H2 & H3).
    destruct (add_node_graph g x) as (G1 & G2 & G3).
    rewrite H1, H2, G1, G2. split_and!; [done..|].
    intros n. rewrite H3, G3, elem_of_cons. tauto.
Qed.

Lemma foldl_remove_node_graph ntr : ∀ g,
  nodes (foldl remove_node g ntr) = filter (λ n, n ∉ ntr) (nodes g) ∧
  edges (foldl remove_node g ntr) = filter (λ e, (e.1 ∉ ntr) ∧ (e.2 ∉ ntr)) (edges g) ∧
  results (foldl remove_node g ntr) = results g.
Proof.
  induction ntr as [|n l IH]; intros g; simpl.
  - split_and!; [| |done]; symmetry; apply filter_all; intros;
      repeat split; apply not_elem_of_nil.
  - destruct (IH (remove_node g n)) as (H1 & H2 & H3). rewrite H1, H2, H3.
    unfold remove_node. simpl. rewrite !list_filter_filter. split_and!; [| |done].
    + apply list_filter_iff. intros x. rewrite not_elem_of_cons. tauto.
    + apply list_filter_iff. intros x. rewrite !not_elem_of_cons. tauto.
Qed.

(** The connection loop either meets an input without a producer and raises
    [KeyError], or adds the edge of every input. *)
Lemma connect_inputs_node (h : Heap) (m : gmap Key Node) (node : Node)
    (inps : list Node) : ∀ w : World,
  (Forall (λ inp, is_Some (m !! key (h inp))) inps ∧
   for_each inps (λ inp,
     match m !! key (h inp) with
     | None => raise KeyError
     | Some pred_node => modify_graph (λ g, add_edge g pred_node node)
     end) w =
   (with_graph (foldl (λ g e, add_edge g e.1 e.2) (w_graph w)
                  (omap (λ inp, (λ p, (p, node)) <$> m !! key (h inp)) inps)) w, Ok tt)) ∨
  (∃ inp, inp ∈ inps ∧ m !! key (h inp) = None ∧
     (for_each inps (λ inp,
        match m !! key (h inp) with
        | None => raise KeyError
        | Some pred_node => modify_graph (λ g, add_edge g pred_node node)
        end) w).2 = Raise KeyError).
Proof.
  induction inps as [|inp inps IH]; intros w; simpl.
  - left. split; [done|]. by destruct w.
  - unfold bind at 1 2. destruct (m !! key (h inp)) as [p|] eqn:E; simpl.
    + destruct (IH (with_graph (add_edge (w_graph w) p node) w))
        as [[HF ->]|(inp' & H1 & H2 & H3)].
      * left. split; [by constructor; [rewrite E|]|done].
      * right. exists inp'. split; [by right|done].
    + right. exists inp. split; [left|done].
Qed.

Lemma connect_inputs_all (h : Heap) (m : gmap Key Node) (ns : list Node) : ∀ w : World,
  (Forall (λ n, Forall (λ inp, is_Some (m !! key (h inp))) (inputs (h n))) ns ∧
   for_each ns (connect_inputs h m) w =
   (with_graph (foldl (λ g e, add_edge g e.1 e.2) (w_graph w) (input_edges h m ns)) w,
    Ok tt)) ∨
  (∃ n inp, n ∈ ns ∧ inp ∈ inputs (h n) ∧ m !! key (h inp) = None ∧
     (for_each ns (connect_inputs h m) w).2 = Raise KeyError).
Proof.
  induction ns as [|n ns IH]; intros w; simpl.
  - left. split; [done|]. by destruct w.
  - unfold bind at 1 2. unfold connect_inputs at 1 3.
    destruct (connect_inputs_node h m n (inputs (h n)) w) as [[HF ->]|(inp & H1 & H2 & H3)].
    + destruct (IH (with_graph (foldl (λ g e, add_edge g e.1 e.2) (w_graph w)
                      (omap (λ inp, (λ p, (p, n)) <$> m !! key (h inp)) (inputs (h n)))) w))
        as [[HF' ->]|(n' & inp & H1 & H2 & H3 & H4)].
      * left. split; [by constructor|]. unfold input_edges. simpl.
        rewrite foldl_app. by destruct w.
      * right. exists n', inp. split; [by right|done].
    + right. exists n, inp. split; [left|]. split; [done|]. split; [done|].
      destruct (for_each (inputs (h n)) _ w) as [w' [[]|e|]]; simpl in *; congruence.
Qed.

Lemma elem_of_input_edges (h : Heap) (idx : gmap Key Node) (ns : list Node) (e : Node * Node) :
  e ∈ input_edges h idx ns ↔
  e.2 ∈ ns ∧ ∃ inp, inp ∈ inputs (h e.2) ∧ idx !! key (h inp) = Some e.1.
Proof.
  unfold input_edges. rewrite list_elem_of_bind. split.
  - intros (node & (inp & Hinp & Hp)%list_elem_of_omap & Hnode).
    destruct (idx !! key (h inp)) as [p|] eqn:E; simplify_eq/=. eauto.
  - intros (Hnode & inp & Hinp & Hp). exists e.2. split; [|done].
    apply list_elem_of_omap. exists inp. split; [done|]. rewrite Hp. by destruct e.
Qed.

(** What the writes of lines 205-219 come to. *)
Lemma commit_cases h graph ntr fr aff m (w : World) :
  let g1 := foldl remove_node (w_graph w) ntr in
  match graph with
  | None => commit h graph ntr fr aff m w = (with_graph g1 w, Ok tt)
  | Some g' =>
      let g2 := foldl add_node g1 (iter_nodes g') in
      (Forall (λ n, Forall (λ inp, is_Some (m !! key (h inp))) (inputs (h n)))
              (iter_nodes g' ++ aff) ∧
       commit h graph ntr fr aff m w =
       (with_graph (set_results
                      (foldl (λ g e, add_edge g e.1 e.2) g2
                             (input_edges h m (iter_nodes g' ++ aff))) fr) w, Ok tt)) ∨
      (∃ n inp, n ∈ iter_nodes g' ++ aff ∧ inp ∈ inputs (h n) ∧ m !! key (h inp) = None ∧
                (commit h graph ntr fr aff m w).2 = Raise KeyError)
  end.
Proof.
  intros g1. unfold commit. destruct graph as [g'|].
  2: { unfold bind. by rewrite (for_each_modify_graph (λ x g, remove_node g x)). }
  set (g2 := foldl add_node g1 (iter_nodes g')).
  assert (∀ k : M World unit,
            (for_each ntr (λ node, modify_graph (λ g, remove_node g node)) ;;;
             for_each (iter_nodes g') (λ node, modify_graph (λ g, add_node g node)) ;;; k) w
            = k (with_graph g2 (with_graph g1 w))) as Hpre.
  { intros k. unfold bind.
    rewrite (for_each_modify_graph (λ x g, remove_node g x)).
    by rewrite (for_each_modify_graph (λ x g, add_node g x)). }
  rewrite !Hpre. unfold bind.
  destruct (connect_inputs_all h m (iter_nodes g' ++ aff)
              (with_graph g2 (with_graph g1 w))) as [[HF ->]|(n & inp & H1 & H2 & H3 & H4)].
  - left. split; [done|]. unfold modify_graph, modify. simpl. by destruct w.
  - right. exists n, inp. split_and!; [done..|].
    destruct (for_each (iter_nodes g' ++ aff) _ _) as [w' [[]|e|]]; simpl in *; congruence.
Qed.

(** X7: the outcomes of [_replace_subgraph]. A call returns, raises
    [ValueError] or raises [KeyError], and nothing else; it raises [KeyError]
    exactly when the three checks pass and some node of the replacement graph
    has an input whose key the merged index does not hold (line 216 looks the
    key up without a check before it). *)
Theorem replace_subgraph_outcomes graph ntr nr rtr (w : World) :
  let r := (_replace_subgraph graph ntr nr rtr w).2 in
  let nodes_to_remove := default [] ntr in
  let idx := merged_index (w_heap w) (w_graph w) graph nodes_to_remove in
  (r = Ok tt ∨ is_ValueError r ∨ r = Raise KeyError) ∧
  (r = Raise KeyError ↔
     ¬ replacement_node_removed graph nodes_to_remove ∧
     ¬ new_result_without_producer (w_heap w) idx (default [] nr) ∧
     ¬ affected_input_unresolved (w_heap w) idx (w_graph w) nodes_to_remove ∧
     replacement_input_unresolved (w_heap w) idx graph).
Proof.
  intros r nodes_to_remove idx. subst r. rewrite replace_subgraph_unfold.
  destruct (validate_cases (w_heap w) (w_graph w) graph nodes_to_remove (default [] nr))
    as [(E & H1 & H2 & H3)|[[msg E] Hc]]; fold nodes_to_remove; rewrite E; fold idx.
  2: { simpl. split; [right; by left|]. split; [done|]. tauto. }
  pose proof (commit_cases (w_heap w) graph nodes_to_remove
                (final_results_of (w_graph w) (default [] nr) (default [] rtr))
                (collect_affected (w_graph w) nodes_to_remove) idx w) as Hc.
  destruct graph as [g'|]; simpl in Hc.
  - destruct Hc as [[HF ->]|(n & inp & Hn & Hinp & Hm & ->)]; simpl.
    + split; [by left|]. split; [done|]. intros (_ & _ & _ & g & n & inp & [= <-] & Hn & Hi & Hm).
      apply Forall_app in HF as [HF _].
      apply (proj1 (Forall_forall _ _) HF) in Hn.
      apply (proj1 (Forall_forall _ _) Hn) in Hi. rewrite Hm in Hi. by destruct Hi.
    + split; [by right; right|]. split; [|done]. intros _. split_and!; [done..|].
      apply elem_of_app in Hn as [Hn|Hn]; [by exists g', n, inp|].
      destruct H3. exists n, inp. split; [by apply elem_of_collect_affected|done].
  - rewrite Hc. simpl. split; [by left|]. split; [done|].
    by intros (_ & _ & _ & g & n & inp & ? & _).
Qed.

(** X8: nodes and results after a call with a replacement graph that
    returns. The nodes are those that were not to be removed together with
    those of the replacement graph; [results] holds, without repetition, the
    old results outside [results_to_remove] together with [new_results]. *)
Theorem replace_subgraph_nodes_results g' ntr nr rtr (w : World) :
  (_replace_subgraph (Some g') ntr nr rtr w).2 = Ok tt →
  let gf := w_graph (_replace_subgraph (Some g') ntr nr rtr w).1 in
  (∀ n, n ∈ nodes gf ↔ (n ∈ nodes (w_graph w) ∧ n ∉ default [] ntr) ∨ n ∈ nodes g') ∧
  (∀ x, x ∈ results gf ↔
        (x ∈ results (w_graph w) ∧ x ∉ (Some <$> default [] rtr)) ∨
        x ∈ (Some <$> default [] nr)) ∧
  NoDup (results gf).
Proof.
  rewrite replace_subgraph_unfold.
  destruct (validate _ _ _ _ _) as [m|e|]; [|done..].
  pose proof (commit_cases (w_heap w) (Some g') (default [] ntr)
                (final_results_of (w_graph w) (default [] nr) (default [] rtr))
                (collect_affected (w_graph w) (default [] ntr)) m w) as Hc.
  simpl in Hc. destruct Hc as [[HF ->]|(n & inp & Hn & Hinp & Hm & ->)]; [|done].
  intros _. simpl.
  destruct (foldl_add_edge_nodes
              (input_edges (w_heap w) m
                 (iter_nodes g' ++ collect_affected (w_graph w) (default [] ntr)))
              (foldl add_node (foldl remove_node (w_graph w) (default [] ntr)) (iter_nodes g')))
    as (E1 & _ & _).
  destruct (foldl_add_node_nodes (iter_nodes g')
              (foldl remove_node (w_graph w) (default [] ntr))) as (_ & _ & E2).
  destruct (foldl_remove_node_graph (default [] ntr) (w_graph w)) as (E3 & _ & _).
  split_and!.
  - intros n. rewrite E1, E2, E3, list_elem_of_filter. unfold iter_nodes. tauto.
  - intros x. unfold final_results_of.
    rewrite elem_of_remove_dups, elem_of_app, elem_of_remove_dups, list_elem_of_filter. tauto.
  - unfold final_results_of. apply NoDup_remove_dups.
Qed.

Lemma replace_subgraph_nodes_results_witness :
  let gf := w_graph (_replace_subgraph (Some (mkGraph [3] [] [])) (Some [2]) (Some [3])
                                       (Some [2]) w_PQ).1 in
  (∀ n, n ∈ nodes gf ↔ (n ∈ nodes (w_graph w_PQ) ∧ n ∉ default [] (Some [2])) ∨ n ∈ [3]) ∧
  (∀ x, x ∈ results gf ↔
        (x ∈ results (w_graph w_PQ) ∧ x ∉ (Some <$> default [] (Some [2]))) ∨
        x ∈ (Some <$> default [] (Some [3]))) ∧
  NoDup (results gf).
Proof.
  apply (replace_subgraph_nodes_results (mkGraph [3] [] []) (Some [2]) (Some [3]) (Some [2])
           w_PQ).
  reflexivity.
Defined.

(** X9: edges after a call with a replacement graph that returns. An edge
    of the final graph is an old edge between nodes that stay, or leads to a
    replacement node or an affected successor from the producer that the
    merged index gives for one of its inputs; every such input has its edge.
    The edges of the replacement graph itself are not read. *)
Theorem replace_subgraph_edges g' ntr nr rtr (w : World) :
  (_replace_subgraph (Some g') ntr nr rtr w).2 = Ok tt →
  let gf := w_graph (_replace_subgraph (Some g') ntr nr rtr w).1 in
  let idx := merged_index (w_heap w) (w_graph w) (Some g') (default [] ntr) in
  ∀ u v, (u, v) ∈ edges gf ↔
    ((u, v) ∈ edges (w_graph w) ∧ (u ∉ default [] ntr) ∧ (v ∉ default [] ntr)) ∨
    ((v ∈ nodes g' ∨ affected_successor (w_graph w) (default [] ntr) v) ∧
     ∃ inp, inp ∈ inputs (w_heap w v) ∧ idx !! key (w_heap w inp) = Some u).
Proof.
  rewrite replace_subgraph_unfold.
  destruct (validate_cases (w_heap w) (w_graph w) (Some g') (default [] ntr) (default [] nr))
    as [(E & _)|[[msg E] _]]; rewrite E; [|done].
  pose proof (commit_cases (w_heap w) (Some g') (default [] ntr)
                (final_results_of (w_graph w) (default [] nr) (default [] rtr))
                (collect_affected (w_graph w) (default [] ntr))
                (merged_index (w_heap w) (w_graph w) (Some g') (default [] ntr)) w) as Hc.
  simpl in Hc. destruct Hc as [[HF ->]|(n & inp & Hn & Hinp & Hm & ->)]; [|done].
  intros _. simpl. intros u v.
  destruct (foldl_add_edge_nodes
              (input_edges (w_heap w)
                 (merged_index (w_heap w) (w_graph w) (Some g') (default [] ntr))
                 (iter_nodes g' ++ collect_affected (w_graph w) (default [] ntr)))
              (foldl add_node (foldl remove_node (w_graph w) (default [] ntr)) (iter_nodes g')))
    as (_ & _ & E1).
  destruct (foldl_add_node_nodes (iter_nodes g')
              (foldl remove_node (w_graph w) (default [] ntr))) as (E2 & _ & _).
  destruct (foldl_remove_node_graph (default [] ntr) (w_graph w)) as (_ & E3 & _).
  rewrite E1, E2, E3, list_elem_of_filter, elem_of_input_edges, elem_of_app,
    elem_of_collect_affected. simpl. unfold iter_nodes. tauto.
Qed.

Lemma replace_subgraph_edges_witness :
  let gf := w_graph (_replace_subgraph (Some (mkGraph [3] [] [])) (Some [2]) (Some [3])
                                       (Some [2]) w_PQ).1 in
  let idx := merged_index (w_heap w_PQ) (w_graph w_PQ) (Some (mkGraph [3] [] []))
                          (default [] (Some [2])) in
  (1, 3) ∈ edges gf ↔
    ((1, 3) ∈ edges (w_graph w_PQ) ∧ (1 ∉ default [] (Some [2])) ∧
     (3 ∉ default [] (Some [2]))) ∨
    ((3 ∈ [3] ∨ affected_successor (w_graph w_PQ) (default [] (Some [2])) 3) ∧
     ∃ inp, inp ∈ inputs (w_heap w_PQ 3) ∧ idx !! key (w_heap w_PQ inp) = Some 1).
Proof.
  intros gf idx.
  apply (replace_subgraph_edges (mkGraph [3] [] []) (Some [2]) (Some [3]) (Some [2]) w_PQ).
  reflexivity.
Defined.

(** X10: pure deletion. Without a replacement graph a call never raises
    [KeyError]: it raises [ValueError] or returns; when it returns, the nodes
    to remove and the edges at them are gone, no node or edge is added, and
    [results] is as it was, [results_to_remove] and all. *)
Theorem replace_subgraph_without_graph ntr nr rtr (w : World) :
  let r := _replace_subgraph None ntr nr rtr w in
  (r.2 = Ok tt ∨ is_ValueError r.2) ∧
  (r.2 = Ok tt →
   nodes (w_graph r.1) = filter (λ n, n ∉ default [] ntr) (nodes (w_graph w)) ∧
   edges (w_graph r.1) = filter (λ e, (e.1 ∉ default [] ntr) ∧ (e.2 ∉ default [] ntr))
                                (edges (w_graph w)) ∧
   results (w_graph r.1) = results (w_graph w) ∧
   w_heap r.1 = w_heap w ∧ w_records r.1 = w_records w).
Proof.
  intros r. subst r. rewrite replace_subgraph_unfold.
  destruct (validate_cases (w_heap w) (w_graph w) None (default [] ntr) (default [] nr))
    as [(E & _)|[[msg E] _]]; rewrite E; [|split; [by right|done]].
  pose proof (commit_cases (w_heap w) None (default [] ntr)
                (final_results_of (w_graph w) (default [] nr) (default [] rtr))
                (collect_affected (w_graph w) (default [] ntr))
                (merged_index (w_heap w) (w_graph w) None (default [] ntr)) w) as Hc.
  simpl in Hc. rewrite Hc. simpl. split; [by left|]. intros _.
  destruct (foldl_remove_node_graph (default [] ntr) (w_graph w)) as (E1 & E2 & E3).
  by rewrite E1, E2, E3.
Qed.

Lemma replace_subgraph_without_graph_witness :
  let r := _replace_subgraph None (Some [2]) None None w_PQ in
  nodes (w_graph r.1) = filter (λ n, n ∉ default [] (Some [2])) (nodes (w_graph w_PQ)) ∧
  edges (w_graph r.1) = filter (λ e, (e.1 ∉ default [] (Some [2])) ∧
                                     (e.2 ∉ default [] (Some [2])))
                               (edges (w_graph w_PQ)) ∧
  results (w_graph r.1) = results (w_graph w_PQ) ∧
  w_heap r.1 = w_heap w_PQ ∧ w_records r.1 = w_records w_PQ.
Proof.
  apply (proj2 (replace_subgraph_without_graph (Some [2]) None None w_PQ)).
  reflexivity.
Defined.

(** ** Collapsible predecessors *)

(** X11: what a returning call of [_add_collapsable_predecessor] has done.
    The predecessor resolves backward to an entity; the set under that
    entity now contains the node; every other entry of [_preds_to_remove] and
    the graph, the entities and the store are as before. *)
Theorem add_collapsable_predecessor_returns fuel node predecessor (w : World) :
  (_add_collapsable_predecessor fuel node predecessor w).2 = Ok tt →
  let w' := (_add_collapsable_predecessor fuel node predecessor w).1 in
  ∃ po s',
    get_original_entity fuel (w_records w) (Some predecessor) (Some predecessor)
      = Ok (Some po) ∧
    w_preds_to_remove w' !! po = Some s' ∧ node ∈ s' ∧
    (∀ k, k ≠ po → w_preds_to_remove w' !! k = w_preds_to_remove w !! k) ∧
    w_graph w' = w_graph w ∧ w_heap w' = w_heap w ∧ w_records w' = w_records w.
Proof.
  unfold _add_collapsable_predecessor, bind, get, lift_result.
  destruct (get_original_entity _ _ _ _) as [[po|]| |]; simpl; try done.
  2: { by destruct (w_preds_to_remove w !! predecessor). }
  destruct (w_preds_to_remove w !! predecessor) as [s0|]; simpl.
  - destruct (w_preds_to_remove w !! po) as [s|] eqn:Es; simpl; [|done].
    intros _. exists po, (set_add s node). rewrite lookup_insert_eq.
    split_and!; try done.
    + apply elem_of_set_add. by right.
    + intros k Hk. by rewrite lookup_insert_ne.
  - intros _. exists po, [node]. rewrite lookup_insert_eq.
    split_and!; try done.
    + left.
    + intros k Hk. by rewrite lookup_insert_ne.
Qed.

Lemma add_collapsable_predecessor_returns_witness :
  let w' := (_add_collapsable_predecessor 3 3 1 (w_marked [])).1 in
  ∃ po s',
    get_original_entity 3 (w_records (w_marked [])) (Some 1) (Some 1) = Ok (Some po) ∧
    w_preds_to_remove w' !! po = Some s' ∧ 3 ∈ s' ∧
    (∀ k, k ≠ po → w_preds_to_remove w' !! k = w_preds_to_remove (w_marked []) !! k) ∧
    w_graph w' = w_graph (w_marked []) ∧ w_heap w' = w_heap (w_marked []) ∧
    w_records w' = w_records (w_marked []).
Proof.
  apply (add_collapsable_predecessor_returns 3 3 1 (w_marked [])). reflexivity.
Defined.

Lemma map_result_elem {A B} (f : A → result B) (xs : list A) : ∀ ys y,
  map_result f xs = Ok ys → y ∈ ys → ∃ x, x ∈ xs ∧ f x = Ok y.
Proof.
  induction xs as [|x xs IH]; intros ys y; simpl.
  - intros [= <-] Hy. by apply elem_of_nil in Hy.
  - destruct (f x) as [b| |] eqn:E; simpl; [|done..].
    destruct (map_result f xs) as [bs| |]; simpl; [|done..].
    intros [= <-] [->|Hy]%elem_of_cons.
    + exists x. split; [left|done].
    + destruct (IH bs y eq_refl Hy) as (x' & Hx' & Hfx'). exists x'. split; [by right|done].
Qed.

Lemma collapsable_pair_Some fuel w pred p :
  collapsable_pair fuel w pred = Ok (Some p) → collapsable fuel w pred p.
Proof.
  unfold collapsable_pair, collapsable.
  destruct (get_original_entity _ _ _ _) as [po| |]; simpl; [|done..].
  destruct (get_optimization_result _ _ _ _) as [popt| |]; simpl; [|done..].
  case_decide as Hres; [done|].
  destruct po as [po|]; simpl; [|done].
  destruct (map_result _ _) as [l| |] eqn:El; simpl; [|done..].
  case_decide as Hall; [|done]. intros [= <-]. simpl.
  split_and!; [done|done|tauto|tauto|]. exists po. split; [done|].
  eapply Forall_impl; [exact Hall|]. intros s Hs. simpl in Hs.
  destruct (map_result_elem _ _ _ _ El Hs) as (a & Ha & Hfa). by exists a.
Qed.

Lemma collapsable_pairs_elem fuel w preds : ∀ pairs p,
  collapsable_pairs fuel w preds = Ok pairs → p ∈ pairs →
  ∃ pred, pred ∈ preds ∧ collapsable fuel w pred p.
Proof.
  induction preds as [|pred preds IH]; intros pairs p; simpl.
  - intros [= <-] Hp. by apply elem_of_nil in Hp.
  - destruct (collapsable_pair fuel w pred) as [o| |] eqn:E; simpl; [|done..].
    destruct (collapsable_pairs fuel w preds) as [ps| |]; simpl; [|done..].
    intros [= <-] Hp.
    assert (o = Some p ∨ p ∈ ps) as [->|Hps].
    { destruct o as [p'|]; [|by right].
      apply elem_of_cons in Hp as [->|?]; [by left|by right]. }
    + exists pred. split; [left|by apply collapsable_pair_Some].
    + destruct (IH ps p eq_refl Hps) as (pred' & H1 & H2). exists pred'.
      split; [by right|done].
Qed.

Lemma delete_pairs_records ps : ∀ w : World,
  w_records (foldl (λ w p, with_records (append_record (w_records w) (mkRecord p.1 None delete))
                             (with_graph (remove_node_val (w_graph w) p.2) w)) w ps) =
  foldl append_record (w_records w) ((λ p, mkRecord p.1 None delete) <$> ps).
Proof. induction ps as [|p ps IH]; intros w; simpl; [done|]. by rewrite IH. Qed.

Lemma foldl_append_deletes (ks : list Val) (k : Val) : ∀ s,
  k ∈ ks →
  _original_entity_to_records
    (foldl append_record s ((λ k, mkRecord k None delete) <$> ks)) !! k
  = Some (mkRecord k None delete).
Proof.
  induction ks as [|x ks IH] using rev_ind; intros s Hk; [by apply elem_of_nil in Hk|].
  rewrite fmap_app, foldl_app.
  change (foldl append_record ?a ((λ k, mkRecord k None delete) <$> [x]))
    with (append_record a (mkRecord x None delete)).
  rewrite append_record_orig. unfold fwd_key. simpl.
  case_decide as Hx; [congruence|].
  apply elem_of_app in Hk as [Hk|Hk%list_elem_of_singleton]; [by apply IH|congruence].
Qed.

(** X12: what [_remove_collapsable_predecessors] removes, and what the store
    says afterwards. A node leaves the graph only as the optimized form of a
    predecessor of the (resolved) node that passed lines 235-241: neither its
    original nor its optimized form is a result, and each of its current
    successors is the resolution of a node accounted for under its original.
    From then on that original resolves forward to [None], for every
    default. *)
Theorem remove_collapsable_predecessors_removes fuel node (w : World) (n : Node) :
  n ∈ nodes (w_graph w) →
  n ∉ nodes (w_graph (_remove_collapsable_predecessors fuel node w).1) →
  ∃ r pred po,
    get_optimization_result fuel (w_records w) (Some node) None = Ok r ∧
    pred ∈ predecessors (w_graph w) (py_or r node) ∧
    collapsable fuel w pred (Some po, Some n) ∧
    ∀ fuel' d, 0 < fuel' →
      get_optimization_result fuel'
        (w_records (_remove_collapsable_predecessors fuel node w).1) (Some po) d = Ok None.
Proof.
  intros Hn. rewrite remove_collapsable_predecessors_unfold.
  destruct (get_optimization_result fuel (w_records w) (Some node) None) as [r| |];
    simpl; [|done..].
  destruct (collapsable_pairs _ _ _) as [pairs| |] eqn:E; simpl; [|done..].
  rewrite for_each_delete_pair. simpl. intros Hgone.
  assert (∃ p, p ∈ pairs ∧ p.2 = Some n) as (p & Hp & Hp2).
  { destruct (decide (Forall (λ p : Val * Val, p.2 ≠ Some n) pairs)) as [HF|HF].
    - destruct (delete_pairs_keep pairs w n HF) as [Hkeep _]. destruct Hgone. by apply Hkeep.
    - apply not_Forall_Exists in HF; [|apply _].
      apply Exists_exists in HF as (p & Hp & Hnn). exists p. split; [done|].
      by destruct (decide (p.2 = Some n)). }
  destruct (collapsable_pairs_elem _ _ _ _ _ E Hp) as (pred & Hpred & Hc).
  pose proof Hc as (_ & _ & _ & _ & po & Hpo & _).
  exists r, pred, po. split; [done|]. split; [done|].
  split; [by destruct p as [p1 p2]; simpl in *; subst|].
  intros fuel' d Hfuel. rewrite delete_pairs_records.
  assert (_original_entity_to_records
            (foldl append_record (w_records w) ((λ p, mkRecord p.1 None delete) <$> pairs))
            !! Some po = Some (mkRecord (Some po) None delete)) as Hidx.
  { change ((λ p : Val * Val, mkRecord p.1 None delete) <$> pairs)
      with (((λ k, mkRecord k None delete) ∘ fst) <$> pairs).
    rewrite (list_fmap_compose fst (λ k, mkRecord k None delete)).
    apply foldl_append_deletes. apply list_elem_of_fmap. exists p. by rewrite Hpo. }
  unfold get_optimization_result. rewrite Hidx.
  destruct fuel' as [|fuel']; [lia|]. simpl. by rewrite Hidx.
Qed.

Lemma remove_collapsable_predecessors_removes_witness :
  ∃ r pred po,
    get_optimization_result 3 (w_records (w_marked [Some 2])) (Some 2) None = Ok r ∧
    pred ∈ predecessors (w_graph (w_marked [Some 2])) (py_or r 2) ∧
    collapsable 3 (w_marked [Some 2]) pred (Some po, Some 1) ∧
    ∀ fuel' d, 0 < fuel' →
      get_optimization_result fuel'
        (w_records (_remove_collapsable_predecessors 3 2 (w_marked [Some 2])).1) (Some po) d
      = Ok None.
Proof.
  apply (remove_collapsable_predecessors_removes 3 2 (w_marked [Some 2]) 1).
  - vm_compute. left.
  - vm_compute. by intros ?%list_elem_of_singleton.
Defined.

(** ** Nodes to remove in an eval rewrite *)

Lemma removed_pairs_elem fuel marked w preds : ∀ pairs p,
  removed_pairs fuel marked w preds = Ok pairs → p ∈ pairs →
  ∃ pred, pred ∈ preds ∧ removable fuel marked w pred p.
Proof.
  induction preds as [|pred preds IH]; intros pairs p; simpl.
  - intros [= <-] Hp. by apply elem_of_nil in Hp.
  - destruct (get_original_entity _ _ _ _) as [po| |] eqn:E1; simpl; [|done..].
    destruct (get_optimization_result _ _ _ _) as [popt| |] eqn:E2; simpl; [|done..].
    destruct (if decide (popt ∈ results (w_graph w) ∨ po ∈ results (w_graph w))
              then Ok false
              else all_marked fuel (w_records w) marked (successors (w_graph w) pred))
      as [b| |] eqn:Eb; simpl; [|done..].
    destruct (removed_pairs fuel marked w preds) as [ps| |]; simpl; [|done..].
    intros [= <-] Hp.
    assert ((b = true ∧ p = (po, popt)) ∨ p ∈ ps) as [[-> ->]|Hps].
    { destruct b; [|by right].
      apply elem_of_cons in Hp as [->|?]; [by left|by right]. }
    + exists pred. split; [left|]. case_decide as Hres; [done|].
      unfold removable. simpl. split_and!; [done|done|tauto|tauto|done].
    + destruct (IH ps p eq_refl Hps) as (pred' & H1 & H2). exists pred'.
      split; [by right|done].
Qed.

Lemma find_nodes_to_remove_unfold fuel node (s : list Val * World) :
  _find_nodes_to_remove fuel node s =
  match get_optimization_result fuel (w_records s.2) (Some node) None with
  | Ok r =>
      match removed_pairs fuel s.1 s.2 (predecessors (w_graph s.2) (py_or r node)) with
      | Ok pairs =>
          ((s.1, with_records
                   (foldl append_record (w_records s.2)
                          ((λ k, mkRecord k None delete) <$> pairs.*1)) s.2),
           Ok (foldl set_add [Some (py_or r node)] (pairs.*2)))
      | Raise e => (s, Raise e)
      | OutOfFuel => (s, OutOfFuel)
      end
  | Raise e => (s, Raise e)
  | OutOfFuel => (s, OutOfFuel)
  end.
Proof.
  unfold _find_nodes_to_remove. unfold bind at 1. unfold get at 1.
  unfold bind at 1. unfold lift_result at 1.
  destruct (get_optimization_result _ _ _ _) as [r| |]; [|done..].
  unfold bind at 1. unfold lift_result at 1.
  destruct (removed_pairs _ _ _ _) as [pairs| |]; [|done..].
  unfold bind at 1.
  rewrite (for_each_modify
             (λ p (s : list Val * World),
                (s.1, with_records (append_record (w_records s.2) (mkRecord p.1 None delete))
                        s.2))).
  unfold ret. f_equal. generalize (py_or r node). intros _. clear.
  destruct s as [marked w]. simpl. revert w.
  induction pairs as [|p pairs IH]; intros w; simpl; [by destruct w|].
  rewrite IH. by destruct w.
Qed.

(** X13: what [_find_nodes_to_remove] returns and does. The returned set
    holds the (resolved) node itself; any other member is the optimized form
    of a predecessor of that node that is not a result, in neither form, and
    whose successors are all marked, and after the call the original of that
    predecessor resolves forward to [None]. The call removes nothing: graph,
    entities, marks and bookkeeping are as before. *)
Theorem find_nodes_to_remove_returns fuel node (s s' : list Val * World)
    (removed : list Val) :
  _find_nodes_to_remove fuel node s = (s', Ok removed) →
  ∃ r, get_optimization_result fuel (w_records s.2) (Some node) None = Ok r ∧
    Some (py_or r node) ∈ removed ∧
    s'.1 = s.1 ∧ w_graph s'.2 = w_graph s.2 ∧ w_heap s'.2 = w_heap s.2 ∧
    w_preds_to_remove s'.2 = w_preds_to_remove s.2 ∧
    ∀ v, v ∈ removed → v ≠ Some (py_or r node) →
      ∃ pred po, pred ∈ predecessors (w_graph s.2) (py_or r node) ∧
        removable fuel s.1 s.2 pred (po, v) ∧
        ∀ fuel' d, 0 < fuel' → get_optimization_result fuel' (w_records s'.2) po d = Ok None.
Proof.
  rewrite find_nodes_to_remove_unfold.
  destruct (get_optimization_result _ _ _ _) as [r| |]; [|done..].
  destruct (removed_pairs _ _ _ _) as [pairs| |] eqn:E; [|done..].
  intros [= <- <-]. exists r. simpl. split_and!; try done.
  - apply elem_of_foldl_set_add. left. left.
  - intros v [Hv|Hv]%elem_of_foldl_set_add Hne.
    { by apply list_elem_of_singleton in Hv. }
    apply list_elem_of_fmap in Hv as ([po v'] & -> & Hp). simpl in *.
    destruct (removed_pairs_elem _ _ _ _ _ _ E Hp) as (pred & Hpred & Hrem).
    exists pred, po. split_and!; [done..|].
    intros fuel' d Hfuel.
    assert (_original_entity_to_records
              (foldl append_record (w_records s.2)
                     ((λ k, mkRecord k None delete) <$> pairs.*1))
              !! po = Some (mkRecord po None delete)) as Hidx.
    { apply foldl_append_deletes. apply list_elem_of_fmap. by exists (po, v'). }
    unfold get_optimization_result. rewrite Hidx.
    destruct fuel' as [|fuel']; [lia|]. simpl. by rewrite Hidx.
Qed.

Lemma find_nodes_to_remove_returns_witness :
  let s := ([Some 2], world_of (mkGraph [1; 2] [(1, 2)] [Some 2]) [(2, [1])]) in
  let s' := (_find_nodes_to_remove 3 2 s).1 in
  ∃ r, get_optimization_result 3 (w_records s.2) (Some 2) None = Ok r ∧
    Some (py_or r 2) ∈ [Some 2; Some 1] ∧
    s'.1 = s.1 ∧ w_graph s'.2 = w_graph s.2 ∧ w_heap s'.2 = w_heap s.2 ∧
    w_preds_to_remove s'.2 = w_preds_to_remove s.2 ∧
    ∀ v, v ∈ [Some 2; Some 1] → v ≠ Some (py_or r 2) →
      ∃ pred po, pred ∈ predecessors (w_graph s.2) (py_or r 2) ∧
        removable 3 s.1 s.2 pred (po, v) ∧
        ∀ fuel' d, 0 < fuel' → get_optimization_result fuel' (w_records s'.2) po d = Ok None.
Proof.
  apply (find_nodes_to_remove_returns 3 2
           ([Some 2], world_of (mkGraph [1; 2] [(1, 2)] [Some 2]) [(2, [1])])
           (_find_nodes_to_remove 3 2
              ([Some 2], world_of (mkGraph [1; 2] [(1, 2)] [Some 2]) [(2, [1])])).1
           [Some 2; Some 1]).
  reflexivity.
Defined.

(** ** Replacement of a single node *)

Lemma elem_of_successors g n s : s ∈ successors g n ↔ (n, s) ∈ edges g.
Proof.
  unfold successors. rewrite list_elem_of_fmap. split.
  - intros ([u v] & -> & [Hu Hin]%list_elem_of_filter). simpl in *. by subst.
  - intros H. exists (n, s). split; [done|]. by apply list_elem_of_filter.
Qed.

Lemma elem_of_predecessors g n p : p ∈ predecessors g n ↔ (p, n) ∈ edges g.
Proof.
  unfold predecessors. rewrite list_elem_of_fmap. split.
  - intros ([u v] & -> & [Hu Hin]%list_elem_of_filter). simpl in *. by subst.
  - intros H. exists (p, n). split; [done|]. by apply list_elem_of_filter.
Qed.

Lemma replace_node_unfold (original_node new_node : Node) (w : World) :
  _replace_node original_node new_node w =
  (with_graph
     (foldl (λ g succ, add_edge g new_node succ)
        (foldl (λ g pred, add_edge g pred new_node)
           (add_node (remove_node (w_graph w) original_node) new_node)
           (predecessors (w_graph w) original_node))
        (successors (w_graph w) original_node)) w, Ok tt).
Proof.
  unfold _replace_node.
  unfold bind at 1. unfold get at 1. unfold bind at 1. unfold modify_graph at 1.
  unfold modify at 1. unfold bind at 1. unfold modify_graph at 1. unfold modify at 1.
  unfold bind at 1.
  rewrite (for_each_modify_graph (λ pred g, add_edge g pred new_node)).
  rewrite (for_each_modify_graph (λ succ g, add_edge g new_node succ)). simpl.
  by destruct w.
Qed.

(** X14: [_replace_node] rewires and no more. The new node is in the graph
    and the old one, if it is another node, is not; other nodes stay; an edge
    of the final graph is an old edge away from the old node, or leads to the
    new node from a predecessor of the old one, or from the new node to a
    successor of the old one; [results] is not touched, so a replaced result
    stays listed under its old identity. *)
Theorem replace_node_rewires (original_node new_node : Node) (w : World) :
  let g := w_graph w in
  let g' := w_graph (_replace_node original_node new_node w).1 in
  new_node ∈ nodes g' ∧
  (original_node ≠ new_node → original_node ∉ nodes g') ∧
  (∀ n, n ≠ original_node → n ≠ new_node → (n ∈ nodes g' ↔ n ∈ nodes g)) ∧
  (∀ u v, (u, v) ∈ edges g' ↔
     ((u, v) ∈ edges g ∧ u ≠ original_node ∧ v ≠ original_node) ∨
     (v = new_node ∧ (u, original_node) ∈ edges g) ∨
     (u = new_node ∧ (original_node, v) ∈ edges g)) ∧
  results g' = results g.
Proof.
  intros g g'. subst g'. rewrite replace_node_unfold. simpl.
  fold g. set (g1 := add_node (remove_node g original_node) new_node).
  assert (∀ (ps : list Node) g0,
            foldl (λ g x, add_edge g x new_node) g0 ps =
            foldl (λ g e, add_edge g e.1 e.2) g0 ((λ p, (p, new_node)) <$> ps)) as Hp.
  { induction ps as [|p ps IH]; intros g0; simpl; [done|]. by rewrite IH. }
  assert (∀ (ss : list Node) g0,
            foldl (λ g x, add_edge g new_node x) g0 ss =
            foldl (λ g e, add_edge g e.1 e.2) g0 ((λ s, (new_node, s)) <$> ss)) as Hs.
  { induction ss as [|s ss IH]; intros g0; simpl; [done|]. by rewrite IH. }
  rewrite Hp, Hs.
  destruct (foldl_add_edge_nodes ((λ s, (new_node, s)) <$> successors g original_node)
              (foldl (λ g e, add_edge g e.1 e.2) g1
                 ((λ p, (p, new_node)) <$> predecessors g original_node)))
    as (N2 & R2 & E2).
  destruct (foldl_add_edge_nodes ((λ p, (p, new_node)) <$> predecessors g original_node) g1)
    as (N1 & R1 & E1).
  destruct (add_node_graph (remove_node g original_node) new_node) as (E0 & R0 & N0).
  fold g1 in E0, R0, N0.
  rewrite N2, N1, R2, R1, R0. split_and!.
  - apply N0. by right.
  - intros Hne [[Hn _]%list_elem_of_filter|Heq]%N0; [by apply Hn|done].
  - intros n H1 H2. rewrite N0. unfold remove_node. simpl. rewrite list_elem_of_filter.
    tauto.
  - intros u v. rewrite E2, E1, E0. unfold remove_node. simpl.
    rewrite list_elem_of_filter, !list_elem_of_fmap. simpl.
    setoid_rewrite elem_of_successors. setoid_rewrite elem_of_predecessors.
    split.
    + intros [[[[H1 H2] H3]|(p & [= -> ->] & Hp')]|(s & [= -> ->] & Hs')]; tauto.
    + intros [(H1 & H2 & H3)|[[-> H]|[-> H]]]; [tauto| |].
      * left. right. by exists u.
      * right. by exists v.
  - done.
Qed.

(** ** Operand dispatch *)

Section OperandDispatchMore.
Context {Inst : Type}.
Variable topological_iter : EntityGraph → list Node.
Variable isinstance_op_types : Op → bool.
Variable match_operand : Op → M (Inst * World) bool.
Variable apply_to_operand : Op → M (Inst * World) unit.

Lemma apply_loop_no_interest entities : ∀ visited optimized (s : list Call * (Inst * World)),
  Forall (λ entity, isinstance_op_types (op (w_heap s.2.2 entity)) = false) entities →
  apply_loop isinstance_op_types match_operand apply_to_operand entities visited optimized s
  = (s, Ok optimized).
Proof.
  induction entities as [|entity rest IH]; intros visited optimized s Hall; [done|].
  inversion Hall as [|?? Hent Hrest]; subst.
  simpl. unfold bind at 1. unfold get at 1. simpl.
  case_decide; [by apply IH|]. case_decide; [|by apply IH].
  rewrite Hent. by apply IH.
Qed.

(** X15: a rule without interest in the operands at hand does nothing. If
    no entity of the topological order has an operand of a registered type,
    [apply] calls neither [match_operand] nor [apply_to_operand], leaves the
    graph, the entities, the store and the rule instance as they were, and
    returns [False]. *)
Theorem apply_without_interest (s : Inst * World) :
  Forall (λ entity, isinstance_op_types (op (w_heap s.2 entity)) = false)
         (topological_iter (w_graph s.2)) →
  apply_traced topological_iter isinstance_op_types match_operand apply_to_operand ([], s)
    = (([], s), Ok false) ∧
  apply topological_iter isinstance_op_types match_operand apply_to_operand s = (s, Ok false).
Proof.
  intros Hall.
  assert (apply_traced topological_iter isinstance_op_types match_operand apply_to_operand
            ([], s) = (([], s), Ok false)) as E.
  { unfold apply_traced, bind, get. simpl. by apply apply_loop_no_interest. }
  split; [done|]. unfold apply. by rewrite E.
Qed.

Lemma calls_ok_match tr o :
  isinstance_op_types o = true → calls_ok isinstance_op_types tr → calls_ok isinstance_op_types (tr ++ [MatchCall o]).
Proof.
  intros Ho [H1 H2]. unfold calls_ok, match_ops, apply_ops. rewrite !omap_app. simpl.
  rewrite app_nil_r. split.
  - intros x Hx. apply elem_of_app. left. by apply H1.
  - intros x [Hx| ->%list_elem_of_singleton]%elem_of_app; [by apply H2|done].
Qed.

Lemma calls_ok_return tr o m :
  calls_ok isinstance_op_types tr → calls_ok isinstance_op_types (tr ++ [MatchReturn o m]).
Proof.
  intros [H1 H2]. unfold calls_ok, match_ops, apply_ops in *.
  rewrite !omap_app. simpl. by rewrite !app_nil_r.
Qed.

Lemma calls_ok_apply tr o :
  calls_ok isinstance_op_types (tr ++ [MatchCall o]) →
  calls_ok isinstance_op_types (((tr ++ [MatchCall o]) ++ [MatchReturn o true])
                                ++ [ApplyCall o]).
Proof.
  intros [H1 H2]. unfold calls_ok, match_ops, apply_ops in *.
  rewrite !omap_app in *. simpl in *. rewrite !app_nil_r in *. split; [|done].
  intros x [Hx| ->%list_elem_of_singleton]%elem_of_app; [by apply H1|].
  apply elem_of_app. right. left.
Qed.

Lemma apply_loop_calls entities : ∀ visited optimized (s : list Call * (Inst * World)),
  calls_ok isinstance_op_types s.1 →
  calls_ok isinstance_op_types (apply_loop isinstance_op_types match_operand apply_to_operand
                       entities visited optimized s).1.1.
Proof.
  induction entities as [|entity rest IH]; intros visited optimized [tr s] Hok; [done|].
  simpl. unfold bind at 1. unfold get at 1. simpl.
  set (o := op (w_heap s.2 entity)).
  case_decide as Hvis; [by apply IH|].
  case_decide as Hin; [|by apply IH].
  destruct (isinstance_op_types o) eqn:Hinst; [|by apply IH].
  unfold bind at 1. unfold log_call at 1. unfold modify at 1. simpl.
  unfold bind at 1.
  pose proof (lift_snd_trace (match_operand o) (tr ++ [MatchCall o], s)) as Htr.
  destruct (lift_snd (match_operand o) (tr ++ [MatchCall o], s)) as [[tr1 s1] [m| |]];
    simpl in Htr; subst tr1.
  2,3: simpl; by apply calls_ok_match.
  unfold bind at 1. unfold log_call at 1. unfold modify at 1. simpl.
  destruct m; [|apply IH; simpl; by apply calls_ok_return, calls_ok_match].
  unfold bind at 1. unfold log_call at 1. unfold modify at 1. simpl.
  unfold bind at 1.
  pose proof (lift_snd_trace (apply_to_operand o)
                (((tr ++ [MatchCall o]) ++ [MatchReturn o true]) ++ [ApplyCall o], s1))
    as Htr.
  destruct (lift_snd (apply_to_operand o)
              (((tr ++ [MatchCall o]) ++ [MatchReturn o true]) ++ [ApplyCall o], s1))
    as [[tr2 s2] [[]| |]]; simpl in Htr; subst tr2.
  2,3: simpl; by apply calls_ok_apply, calls_ok_match.
  apply IH; simpl. by apply calls_ok_apply, calls_ok_match.
Qed.

(** X16: the order of the calls inside [apply]. In every run, also one that
    ends in an exception, [apply_to_operand] is called only on an operand that
    [match_operand] was called on, and [match_operand] only on an operand
    whose type is registered for the rule. *)
Theorem apply_calls_in_order (s : Inst * World) :
  let tr := (apply_traced topological_iter isinstance_op_types match_operand
                          apply_to_operand ([], s)).1.1 in
  (∀ o, ApplyCall o ∈ tr → MatchCall o ∈ tr) ∧
  (∀ o, MatchCall o ∈ tr → isinstance_op_types o = true).
Proof.
  intros tr.
  assert (calls_ok isinstance_op_types tr) as [H1 H2].
  { subst tr. unfold apply_traced, bind, get. simpl. apply apply_loop_calls.
    split; intros o Ho; by apply elem_of_nil in Ho. }
  assert (∀ o, MatchCall o ∈ tr ↔ o ∈ match_ops tr) as Hm.
  { intros o. unfold match_ops. rewrite list_elem_of_omap. split.
    - intros H. by exists (MatchCall o).
    - intros (c & Hc & Hco). by destruct c; simplify_eq. }
  assert (∀ o, ApplyCall o ∈ tr ↔ o ∈ apply_ops tr) as Ha.
  { intros o. unfold apply_ops. rewrite list_elem_of_omap. split.
    - intros H. by exists (ApplyCall o).
    - intros (c & Hc & Hco). by destruct c; simplify_eq. }
  split; intros o; rewrite ?Hm, ?Ha; auto.
Qed.
End OperandDispatchMore.

Lemma apply_without_interest_witness :
  let s := (tt, w_PQ) in
  apply_traced (Inst:=unit) nodes (λ o, bool_decide (o = 9)) (λ _, ret true) (λ _, ret tt)
               ([], s) = (([], s), Ok false) ∧
  apply (Inst:=unit) nodes (λ o, bool_decide (o = 9)) (λ _, ret true) (λ _, ret tt) s
    = (s, Ok false).
Proof.
  apply (apply_without_interest (Inst:=unit) nodes (λ o, bool_decide (o = 9))
           (λ _, ret true) (λ _, ret tt) (tt, w_PQ)).
  repeat first [apply Forall_nil_2 | apply Forall_cons_2]; reflexivity.
Defined.

(** ** The repair of inputs and results *)

(** X17: the repair of inputs is idempotent. When the resolutions it asks
    for return, [_replace_inputs] returns, a second run returns as well, and
    the second run changes no attribute of any entity; neither run touches
    the graph, the store or the bookkeeping. *)
Theorem replace_inputs_idempotent fuel (w : World) :
  Forall (λ s, Forall (λ inp, is_Ok (get_optimization_result fuel (w_records w)
                                                             (Some inp) None))
                      (inputs (w_heap w s)))
         (visited_successors (w_graph w)) →
  ∃ w1 w2,
    _replace_inputs fuel w = (w1, Ok tt) ∧ _replace_inputs fuel w1 = (w2, Ok tt) ∧
    same_but_heap w w1 ∧ same_but_heap w1 w2 ∧
    ∀ s, key (w_heap w2 s) = key (w_heap w1 s) ∧ op (w_heap w2 s) = op (w_heap w1 s) ∧
         inputs (w_heap w2 s) = inputs (w_heap w1 s) ∧
         outputs (w_heap w2 s) = outputs (w_heap w1 s).
Proof.
  intros Hok.
  destruct (replace_inputs_spec fuel w Hok) as (w1 & E1 & S1 & R1).
  pose proof S1 as (Hg & Hr & Hp).
  assert (Forall (λ s, Forall (λ inp, is_Ok (get_optimization_result fuel (w_records w1)
                                                                     (Some inp) None))
                              (inputs (w_heap w1 s)))
                 (visited_successors (w_graph w1))) as Hok1.
  { rewrite Hg, Hr. apply Forall_forall. intros s Hs.
    destruct (R1 s) as (_ & _ & _ & ->). rewrite decide_True by done.
    apply Forall_fmap.
    eapply Forall_impl; [exact (proj1 (Forall_forall _ _) Hok s Hs)|].
    intros inp Hinp. simpl. by apply fwd_idemp. }
  destruct (replace_inputs_spec fuel w1 Hok1) as (w2 & E2 & S2 & R2).
  exists w1, w2. split_and!; [done..|]. intros s.
  destruct (R2 s) as (K & O & U & I). split_and!; [done|done| |done].
  rewrite I, Hg, Hr. clear I. case_decide as Hs; [|done].
  destruct (R1 s) as (_ & _ & _ & ->). rewrite decide_True by done.
  rewrite <- list_fmap_compose. apply Forall_fmap_ext_1.
  eapply Forall_impl; [exact (proj1 (Forall_forall _ _) Hok s Hs)|].
  intros inp Hinp. simpl. by apply fwd_idemp.
Qed.

Lemma replace_inputs_idempotent_witness :
  let w := mkWorld (mkGraph [5; 2] [(5, 2)] [Some 2]) (heap_of [(2, [1])])
             (records_of_log [mkRecord (Some 1) (Some 5) replace]) ∅ in
  ∃ w1 w2,
    _replace_inputs 3 w = (w1, Ok tt) ∧ _replace_inputs 3 w1 = (w2, Ok tt) ∧
    same_but_heap w w1 ∧ same_but_heap w1 w2 ∧
    ∀ s, key (w_heap w2 s) = key (w_heap w1 s) ∧ op (w_heap w2 s) = op (w_heap w1 s) ∧
         inputs (w_heap w2 s) = inputs (w_heap w1 s) ∧
         outputs (w_heap w2 s) = outputs (w_heap w1 s).
Proof.
  apply (replace_inputs_idempotent 3
           (mkWorld (mkGraph [5; 2] [(5, 2)] [Some 2]) (heap_of [(2, [1])])
              (records_of_log [mkRecord (Some 1) (Some 5) replace]) ∅)).
  vm_compute. repeat first [apply Forall_nil_2 | apply Forall_cons_2]; exact I.
Defined.

(** X18: a deleted result becomes [None]. When the forward chain of a result
    meets a delete record and the resolutions return, the recomputation of
    lines 366-371 puts [None] in [graph.results], in the place of that
    result; the list keeps its length. *)
Theorem recompute_results_deleted fuel (w : World) (i : nat) (n : Node) :
  Forall (λ r, is_Ok (get_optimization_result fuel (w_records w) r r)) (results (w_graph w)) →
  results (w_graph w) !! i = Some (Some n) →
  deleted_in_chain (_original_entity_to_records (w_records w)) (Some n) →
  (recompute_results fuel w).2 = Ok tt ∧
  results (w_graph (recompute_results fuel w).1) !! i = Some None ∧
  length (results (w_graph (recompute_results fuel w).1)) = length (results (w_graph w)).
Proof.
  intros Hok Hi Hdel. rewrite recompute_results_spec by done. simpl.
  split; [done|]. rewrite list_lookup_fmap, Hi, length_fmap. simpl. split; [|done].
  do 2 f_equal. unfold fwd_result.
  assert (is_Ok (get_optimization_result fuel (w_records w) (Some n) (Some n))) as Hn.
  { apply (proj1 (Forall_forall _ _) Hok). by eapply list_elem_of_lookup_2. }
  unfold get_optimization_result in *.
  destruct (_ !! Some n) as [r|] eqn:E; [|inversion Hdel; congruence].
  destruct (forward_loop_deleted _ _ Hdel) as [n0 Hn0].
  destruct (forward_loop fuel _ (Some n)) as [v| |] eqn:Ef; [|done..].
  pose proof (forward_loop_mono fuel (_original_entity_to_records (w_records w)) (Some n)
                (fuel `max` n0)) as Hm.
  rewrite Ef in Hm. rewrite Hn0 in Hm by lia. injection Hm as <-; [done|done|lia].
Qed.

Lemma recompute_results_deleted_witness :
  let w := mkWorld (mkGraph [2] [] [Some 2; Some 1]) (heap_of [])
             (records_of_log [mkRecord (Some 1) None delete]) ∅ in
  (recompute_results 3 w).2 = Ok tt ∧
  results (w_graph (recompute_results 3 w).1) !! 1 = Some None ∧
  length (results (w_graph (recompute_results 3 w).1)) = length (results (w_graph w)).
Proof.
  apply (recompute_results_deleted 3
           (mkWorld (mkGraph [2] [] [Some 2; Some 1]) (heap_of [])
              (records_of_log [mkRecord (Some 1) None delete]) ∅) 1 1).
  - vm_compute. repeat first [apply Forall_nil_2 | apply Forall_cons_2]; exact I.
  - reflexivity.
  - eapply chain_delete; [by vm_compute|done].
Defined.

(** ** Replacement by a new node in an eval rewrite *)

Example replace_with_new_node_pipeline :
  let r := _replace_with_new_node 3 3 4 ([], w_pipeline 3) in
  r.2 = Ok tt ∧ r.1.1 = [Some 3] ∧
  w_graph r.1.2 = mkGraph [1; 5; 4] [(1, 4); (4, 5)] [Some 5] ∧
  _records (w_records r.1.2) =
    [mkRecord (Some 2) None delete; mkRecord (Some 3) (Some 4) replace].
Proof. by vm_compute. Qed.

(** With another key for Q' the consumer R of Q loses its producer: the call
    raises, the graph is as before, and the store has P as deleted. *)
Example replace_with_new_node_pipeline_fails :
  let r := _replace_with_new_node 3 3 4 ([], w_pipeline 9) in
  r.2 = Raise (ValueError (MissingInput 3 5)) ∧ r.1.1 = [Some 3] ∧
  w_graph r.1.2 = w_graph (w_pipeline 9) ∧
  _records (w_records r.1.2) = [mkRecord (Some 2) None delete].
Proof. by vm_compute. Qed.


Lemma mark_node_unfold fuel node (s : list Val * World) :
  _mark_node fuel node s =
  match get_optimization_result fuel (w_records s.2) (Some node) (Some node) with
  | Ok r => ((set_add s.1 r, s.2), Ok tt)
  | Raise e => (s, Raise e)
  | OutOfFuel => (s, OutOfFuel)
  end.
Proof.
  unfold _mark_node, bind, get, lift_result.
  by destruct (get_optimization_result _ _ _ _).
Qed.

Lemma replace_with_new_node_unfold fuel o n (s : list Val * World) :
  _replace_with_new_node fuel o n s =
  match get_optimization_result fuel (w_records s.2) (Some o) (Some o) with
  | Ok rm =>
      match _find_nodes_to_remove fuel o (set_add s.1 rm, s.2) with
      | (s2, Ok removed) =>
          let in_results := bool_decide (Some o ∈ results (w_graph s2.2)) in
          match _replace_subgraph (Some (add_node (mkGraph [] [] []) n))
                  (Some (omap id removed)) (Some (if in_results then [n] else []))
                  (Some (if in_results then [o] else [])) s2.2 with
          | (w3, Ok _) =>
              ((s2.1, with_records
                        (append_record (w_records w3)
                           (mkRecord (Some o) (Some n) replace)) w3), Ok tt)
          | (w3, Raise e) => ((s2.1, w3), Raise e)
          | (w3, OutOfFuel) => ((s2.1, w3), OutOfFuel)
          end
      | (s2, Raise e) => (s2, Raise e)
      | (s2, OutOfFuel) => (s2, OutOfFuel)
      end
  | Raise e => (s, Raise e)
  | OutOfFuel => (s, OutOfFuel)
  end.
Proof.
  unfold _replace_with_new_node. unfold bind at 1. rewrite mark_node_unfold.
  destruct (get_optimization_result _ _ _ _) as [rm| |]; [|done..].
  unfold bind at 1.
  destruct (_find_nodes_to_remove fuel o (set_add s.1 rm, s.2)) as [s2 [removed| |]]; [|done..].
  unfold bind at 1. unfold get at 1. unfold bind at 1. unfold lift_snd at 1.
  destruct (_replace_subgraph _ _ _ _ s2.2) as [w3 [[]| |]]; done.
Qed.

Lemma records_foldl_append l : ∀ s,
  _records (foldl append_record s l) = _records s ++ l.
Proof.
  induction l as [|x l IH]; intros s; simpl; [by rewrite app_nil_r|].
  rewrite IH. simpl. by rewrite <- app_assoc.
Qed.

Lemma subgraph_of_new_node n : iter_nodes (add_node (mkGraph [] [] []) n) = [n].
Proof. done. Qed.



Lemma forward_loop_not_ValueError fuel idx : ∀ e, ¬ is_ValueError (forward_loop fuel idx e).
Proof.
  induction fuel as [|fuel IH]; intros e; simpl; [tauto|].
  destruct (idx !! e) as [r|]; [|tauto].
  destruct (record_type r); [apply IH|tauto..].
Qed.

Lemma backward_loop_not_ValueError fuel idx : ∀ e, ¬ is_ValueError (backward_loop fuel idx e).
Proof.
  induction fuel as [|fuel IH]; intros e; simpl; [tauto|].
  destruct (idx !! e) as [r|]; [|tauto].
  destruct (record_type r); [apply IH|tauto..].
Qed.

Lemma get_optimization_result_not_ValueError fuel recs e d :
  ¬ is_ValueError (get_optimization_result fuel recs e d).
Proof.
  unfold get_optimization_result.
  destruct (_ !! e); [apply forward_loop_not_ValueError|simpl; tauto].
Qed.

Lemma get_original_entity_not_ValueError fuel recs e d :
  ¬ is_ValueError (get_original_entity fuel recs e d).
Proof.
  unfold get_original_entity.
  destruct (_ !! e); [apply backward_loop_not_ValueError|simpl; tauto].
Qed.

Lemma all_marked_not_ValueError fuel recs marked succs :
  ¬ is_ValueError (all_marked fuel recs marked succs).
Proof.
  induction succs as [|x succs IH]; simpl; [tauto|].
  pose proof (get_optimization_result_not_ValueError fuel recs (Some x) (Some x)) as H.
  destruct (get_optimization_result fuel recs (Some x) (Some x)) as [r| |]; simpl;
    [|done..].
  case_decide; [done|simpl; tauto].
Qed.

Lemma removed_pairs_not_ValueError fuel marked w preds :
  ¬ is_ValueError (removed_pairs fuel marked w preds).
Proof.
  induction preds as [|p preds IH]; simpl; [tauto|].
  pose proof (get_original_entity_not_ValueError fuel (w_records w) (Some p) (Some p)) as H1.
  destruct (get_original_entity _ _ _ _) as [po| |]; simpl; [|done..].
  pose proof (get_optimization_result_not_ValueError fuel (w_records w) (Some p) (Some p))
    as H2.
  destruct (get_optimization_result _ _ _ _) as [pp| |]; simpl; [|done..].
  case_decide; simpl.
  - destruct (removed_pairs _ _ _ _); simpl in *; tauto.
  - pose proof (all_marked_not_ValueError fuel (w_records w) marked
                  (successors (w_graph w) p)) as H3.
    destruct (all_marked _ _ _ _) as [b| |]; simpl; [|done..].
    destruct (removed_pairs _ _ _ _); simpl in *; tauto.
Qed.

(** X20: a [ValueError] of [_replace_with_new_node] is one of
    [_replace_subgraph], which has then written nothing: the graph and the
    attributes of the entities are as before the call, and no replace record
    is written. The delete records filed by [_find_nodes_to_remove] before
    the replacement was tried stay in the log, which has grown by delete
    records only, and the node stays marked. *)
Theorem replace_with_new_node_ValueError fuel o n (s : list Val * World) :
  is_ValueError (_replace_with_new_node fuel o n s).2 →
  let s' := (_replace_with_new_node fuel o n s).1 in
  w_graph s'.2 = w_graph s.2 ∧ w_heap s'.2 = w_heap s.2 ∧
  w_preds_to_remove s'.2 = w_preds_to_remove s.2 ∧
  (∃ rm, get_optimization_result fuel (w_records s.2) (Some o) (Some o) = Ok rm ∧
         s'.1 = set_add s.1 rm) ∧
  ∃ ks, _records (w_records s'.2)
        = _records (w_records s.2) ++ ((λ k, mkRecord k None delete) <$> ks).
Proof.
  rewrite replace_with_new_node_unfold.
  pose proof (get_optimization_result_not_ValueError fuel (w_records s.2) (Some o) (Some o))
    as H0.
  destruct (get_optimization_result fuel (w_records s.2) (Some o) (Some o)) as [rm| |];
    [|done..].
  rewrite find_nodes_to_remove_unfold. simpl.
  pose proof (get_optimization_result_not_ValueError fuel (w_records s.2) (Some o) None)
    as H1.
  destruct (get_optimization_result fuel (w_records s.2) (Some o) None) as [r| |]; [|done..].
  pose proof (removed_pairs_not_ValueError fuel (set_add s.1 rm) s.2
                (predecessors (w_graph s.2) (py_or r o))) as H2.
  destruct (removed_pairs _ _ _ _) as [pairs| |]; [|done..].
  cbn [fst snd].
  match goal with
  | |- context [_replace_subgraph ?g ?a ?b ?c ?w] =>
      pose proof (replace_subgraph_ValueError_unchanged g a b c w) as Hun;
      destruct (_replace_subgraph g a b c w) as [w3 [[]| |]]
  end; [done| |done].
  intros HV. simpl in Hun. rewrite (Hun HV). simpl.
  split_and!; [done..| |].
  - by exists rm.
  - exists pairs.*1. apply records_foldl_append.
Qed.

Lemma replace_with_new_node_ValueError_witness :
  let s := ([], w_pipeline 9) in
  let s' := (_replace_with_new_node 3 3 4 s).1 in
  w_graph s'.2 = w_graph s.2 ∧ w_heap s'.2 = w_heap s.2 ∧
  w_preds_to_remove s'.2 = w_preds_to_remove s.2 ∧
  (∃ rm, get_optimization_result 3 (w_records s.2) (Some 3) (Some 3) = Ok rm ∧
         s'.1 = set_add s.1 rm) ∧
  ∃ ks, _records (w_records s'.2)
        = _records (w_records s.2) ++ ((λ k, mkRecord k None delete) <$> ks).
Proof.
  apply (replace_with_new_node_ValueError 3 3 4 ([], w_pipeline 9)).
  vm_compute. exact I.
Defined.

(** ** The pass: what [optimize] itself can raise *)









Section OptimizerMore.
Context {RuleType Inst : Type} `{EqDecision RuleType}.
Variable new_rule : RuleType → Inst.
Variable rule_apply : RuleType → M (Inst * World) bool.
Hypothesis rules_append : keeps_index_wf rule_apply.


End OptimizerMore.


(** ** Registration of operand classes *)

Section OperandRegistrationFacts.
Context {RuleType OpClass : Type} `{Countable RuleType} `{EqDecision OpClass}.
Variable subclasses : OpClass → list OpClass.
Variable mro : OpClass → list OpClass.

Lemma foldl_add_op_type (cls cls' : RuleType) (l : list OpClass) :
  ∀ d : gmap RuleType (list OpClass),
  default [] (foldl (add_op_type cls) d l !! cls') =
  if decide (cls' = cls) then foldl set_add (default [] (d !! cls)) l
  else default [] (d !! cls').
Proof.
  induction l as [|x l IH]; intros d; simpl.
  - by case_decide; subst.
  - rewrite IH. unfold add_op_type. case_decide as Hc.
    + by rewrite lookup_insert_eq.
    + by rewrite lookup_insert_ne.
Qed.

Lemma isinstance_true (c : OpClass) (op_types : list OpClass) :
  isinstance mro c op_types = true ↔ ∃ t, t ∈ op_types ∧ t ∈ mro c.
Proof.
  unfold isinstance. rewrite existsb_exists. split.
  - intros (t & Ht & Hm). exists t. split; [by apply list_elem_of_In|].
    by apply bool_decide_eq_true in Hm.
  - intros (t & Ht & Hm). exists t. split; [by apply list_elem_of_In|].
    by apply bool_decide_eq_true.
Qed.

(** The two facts of Python's class model that the registration rests on: a
    class is in the method resolution order of each of its direct
    subclasses, and the order of a class holds the order of every class in
    it. *)
Hypothesis mro_subclass : ∀ c d, d ∈ subclasses c → c ∈ mro d.
Hypothesis mro_trans : ∀ a b c, b ∈ mro a → c ∈ mro b → c ∈ mro a.

(** X22: what a registration changes. After [cls.register_operand(op_type)]
    a rule of class [cls] has interest in an operand exactly if it had
    before or [op_type] is the class of the operand or one of its ancestors,
    at any depth: the direct subclasses that lines 312-313 add change no
    answer of the [isinstance] test. The interest of every other rule class
    is as before. *)
Theorem register_operand_interest (cls cls' : RuleType) (op_type c : OpClass)
    (d : gmap RuleType (list OpClass)) :
  of_interest mro (register_operand subclasses cls op_type d) cls' c =
  of_interest mro d cls' c || (bool_decide (cls' = cls) && bool_decide (op_type ∈ mro c)).
Proof using mro_subclass mro_trans.
  unfold of_interest, register_operand. rewrite foldl_add_op_type.
  case_decide as Hc.
  - subst cls'. rewrite (bool_decide_eq_true_2 (cls = cls)) by done. simpl.
    unfold add_op_type. rewrite lookup_insert_eq. simpl.
    apply Bool.eq_iff_eq_true.
    rewrite orb_true_iff, !isinstance_true, bool_decide_eq_true. split.
    + intros (t & Ht & Hm).
      apply elem_of_foldl_set_add in Ht as [Ht|Ht].
      * apply elem_of_set_add in Ht as [Ht| ->]; [left; by exists t|by right].
      * right. eapply mro_trans; [exact Hm|]. by apply mro_subclass.
    + intros [(t & Ht & Hm)|Hm].
      * exists t. split; [|done]. apply elem_of_foldl_set_add. left.
        apply elem_of_set_add. by left.
      * exists op_type. split; [|done]. apply elem_of_foldl_set_add. left.
        apply elem_of_set_add. by right.
  - rewrite (bool_decide_eq_false_2 (cls' = cls)) by done. simpl.
    rewrite orb_false_r. unfold add_op_type. by rewrite lookup_insert_ne.
Qed.
End OperandRegistrationFacts.

Lemma register_operand_interest_witness :
  of_interest example_mro (register_operand example_subclasses 1%nat Ufunc ∅) 1%nat AddUfunc =
  of_interest example_mro (∅ : gmap nat (list ExampleClass)) 1%nat AddUfunc
  || (bool_decide (1%nat = 1%nat) && bool_decide (Ufunc ∈ example_mro AddUfunc)).
Proof.
  apply (register_operand_interest example_subclasses example_mro).
  - intros c d Hd. apply list_elem_of_In. apply list_elem_of_In in Hd.
    destruct c, d; simpl in *; intuition discriminate.
  - intros a b c Hb Hc. apply list_elem_of_In.
    apply list_elem_of_In in Hb. apply list_elem_of_In in Hc.
    destruct a, b, c; simpl in *; intuition discriminate.
Defined.

(** ** The extraction of expressions *)

Lemma xbind_Ok {S A B} (m : XM S A) (k : A → XM S B) s s' b :
  xbind m k s = (s', XOk b) ↔ ∃ s1 a, m s = (s1, XOk a) ∧ k a s1 = (s', XOk b).
Proof.
  unfold xbind. destruct (m s) as [s1 [a|e|]]; split; try done.
  - intros H. by exists s1, a.
  - by intros (? & ? & [= <- <-] & H).
  - by intros (? & ? & [=] & _).
  - by intros (? & ? & [=] & _).
Qed.

Lemma extends_refl s : extends s s.
Proof. by split_and!. Qed.

Lemma extends_trans s1 s2 s3 : extends s1 s2 → extends s2 s3 → extends s1 s3.
Proof.
  intros (A1 & A2 & A3 & A4) (B1 & B2 & B3 & B4). split_and!.
  - congruence.
  - auto.
  - lia.
  - auto.
Qed.

Lemma first_input_Ok n s s' inp :
  first_input n s = (s', XOk inp) →
  s' = s ∧ ∃ rest, inputs (w_heap (x_rule s).2 n) = inp :: rest.
Proof.
  unfold first_input, xbind, xget. simpl.
  destruct (inputs _) as [|i rest]; [done|].
  intros [= <- <-]. split; [done|]. by exists rest.
Qed.

Lemma of_result_Ok {A} (r : result A) (s s' : ExtractState) a :
  of_result r s = (s', XOk a) → s' = s ∧ r = Ok a.
Proof. unfold of_result. destruct r; intros [= <- <-]; done. Qed.

Lemma mark_Ok rfuel x s s' :
  mark rfuel x s = (s', XOk tt) →
  extends s s' ∧ _extract_result_cache s' = _extract_result_cache s ∧
  ∀ n, x = Tileable n →
    ∃ m, get_optimization_result rfuel (w_records (x_rule s).2) (Some n) (Some n) = Ok m ∧
         m ∈ (x_rule s').1.
Proof.
  destruct x as [| | |n]; simpl; try (intros [= <-]; split; [apply extends_refl|done]).
  unfold of_rule. rewrite mark_node_unfold.
  destruct (get_optimization_result _ _ _ _) as [m| |] eqn:E; [|done..].
  intros [= <-]. split_and!.
  - split_and!; simpl; [done| |done..]. intros m' Hm. apply elem_of_set_add. by left.
  - done.
  - intros n' [= <-]. exists m. split; [done|]. simpl. apply elem_of_set_add. by right.
Qed.

Lemma record_ok_no_record : record_ok no_record.
Proof. done. Qed.

Lemma record_ok_both t e v : record_ok (mkExtractRecord (Some t) (Some e) v).
Proof. split; discriminate. Qed.

Lemma cond_mark_Ok rfuel (t : option Node) x s s' :
  (if t is Some _ then mark rfuel x else xret tt) s = (s', XOk tt) →
  extends s s' ∧ _extract_result_cache s' = _extract_result_cache s ∧
  ∀ n, is_Some t → x = Tileable n →
    ∃ m, get_optimization_result rfuel (w_records (x_rule s).2) (Some n) (Some n) = Ok m ∧
         m ∈ (x_rule s').1.
Proof.
  destruct t as [t|].
  - intros (H1 & H2 & H3)%mark_Ok. split_and!; [done..|]. intros n _. apply H3.
  - intros [= <-]. split_and!; [apply extends_refl|done|]. by intros n [? [=]].
Qed.

Section ExtractionFacts.
Variable _is_select_dataframe_column : Node → bool.
Variable col_names : Node → string.
Variable isinstance_DataFrameUnaryUfunc : Node → bool.
Variable isinstance_DataFrameBinopUfunc : Node → bool.
Variable fill_value_or_level : Node → bool.
Variable func_name : Node → string.
Variable lhs rhs : Node → PyObj.
Variable gpu : Op → bool.
Variable op_outputs : Op → list Node.

Local Abbreviation extract :=
  (_extract_eval_expression _is_select_dataframe_column col_names
     isinstance_DataFrameUnaryUfunc isinstance_DataFrameBinopUfunc fill_value_or_level
     func_name lhs rhs).
Local Abbreviation column :=
  (column_of _is_select_dataframe_column isinstance_DataFrameUnaryUfunc
     isinstance_DataFrameBinopUfunc lhs rhs).
Local Abbreviation source :=
  (one_source _is_select_dataframe_column isinstance_DataFrameUnaryUfunc
     isinstance_DataFrameBinopUfunc lhs rhs).
Local Abbreviation sourced :=
  (cache_sourced _is_select_dataframe_column isinstance_DataFrameUnaryUfunc
     isinstance_DataFrameBinopUfunc lhs rhs).
Local Abbreviation post :=
  (extract_post _is_select_dataframe_column isinstance_DataFrameUnaryUfunc
     isinstance_DataFrameBinopUfunc lhs rhs).

(** What the branches of lines 199-209 give for an entity [n], before
    the record is put into the cache. *)
Local Abbreviation branch_post n s s' r :=
  (extends s s' ∧
   (cache_ok (_extract_result_cache s) →
    cache_ok (_extract_result_cache s') ∧ record_ok r ∧
    (sourced (w_heap (x_rule s).2) (_extract_result_cache s) →
     sourced (w_heap (x_rule s).2) (_extract_result_cache s') ∧
     source (w_heap (x_rule s).2) n r))).

Lemma source_no_record h n : source h n no_record.
Proof. by intros t df. Qed.

Lemma branch_post_no_record n s : branch_post n s s no_record.
Proof.
  split; [apply extends_refl|]. intros Hc. split_and!; [done..|].
  intros Hs. split; [done|apply source_no_record].
Qed.

Lemma extract_column_select_post n s s' r :
  _is_select_dataframe_column n = true →
  _extract_column_select col_names n s = (s', XOk r) →
  branch_post n s s' r.
Proof.
  intros Hsel. unfold _extract_column_select.
  intros (s1 & df & (-> & rest & Hin)%first_input_Ok & [= <- <-])%xbind_Ok.
  split; [apply extends_refl|]. intros Hc. split_and!; [done|apply record_ok_both|].
  intros Hs. split; [done|]. intros t df' [= <-] Hcol.
  inversion Hcol; subst; congruence.
Qed.

Section OpenRecursion.
Variable rfuel : nat.
Variable ext : PyObj → XM ExtractState EvalExtractRecord.
Hypothesis ext_post : ∀ x s s' r, ext x s = (s', XOk r) → post x s s' r.

Lemma extract_unary_post n s s' r :
  _is_select_dataframe_column n = false →
  isinstance_DataFrameUnaryUfunc n = true →
  _extract_unary func_name rfuel ext n s = (s', XOk r) →
  branch_post n s s' r.
Proof using ext_post.
  intros Hsel Hun. unfold _extract_unary.
  destruct (_func_name_to_builder !! func_name n) as [b|];
    [|intros [= <- <-]; apply branch_post_no_record].
  intros (s0 & a & (-> & rest & Hin)%first_input_Ok & H)%xbind_Ok.
  apply xbind_Ok in H as (s1 & ra & (Hext & _ & Hpost)%ext_post & H).
  simpl in Hpost. destruct (tileable ra) as [t|] eqn:Et.
  - apply xbind_Ok in H as (s2 & [] & (Hext2 & Hcache & _)%mark_Ok & H).
    apply xbind_Ok in H as (s3 & e & (-> & _)%of_result_Ok & [= <- <-]).
    split; [by eapply extends_trans|]. intros Hc.
    destruct (Hpost Hc) as (Hc1 & Hra & Hsrc). rewrite Hcache.
    split_and!; [done|apply record_ok_both|].
    intros Hs. destruct (Hsrc Hs) as [Hs1 Hsa]. split; [done|].
    intros t' df [= <-] Hcol. inversion Hcol; subst; try congruence.
    apply (Hsa t df); [done|]. congruence.
  - injection H as <- <-. split; [done|]. intros Hc.
    destruct (Hpost Hc) as (Hc1 & Hra & Hsrc). split_and!; [done..|].
    intros Hs. destruct (Hsrc Hs) as [Hs1 Hsa]. split; [done|apply source_no_record].
Qed.

Lemma extract_binary_post n s s' r :
  _is_select_dataframe_column n = false →
  isinstance_DataFrameUnaryUfunc n = false →
  isinstance_DataFrameBinopUfunc n = true →
  _extract_binary func_name lhs rhs rfuel ext n s = (s', XOk r) →
  branch_post n s s' r.
Proof using ext_post.
  intros Hsel Hun Hbin. unfold _extract_binary.
  destruct (_func_name_to_builder !! func_name n) as [b|];
    [|intros [= <- <-]; apply branch_post_no_record].
  intros (s1 & l & (Hx1 & _ & Hp1)%ext_post & H)%xbind_Ok.
  apply xbind_Ok in H as (s2 & [] & (Hx2 & Hc2 & _)%cond_mark_Ok & H).
  apply xbind_Ok in H as (s3 & r0 & (Hx3 & _ & Hp3)%ext_post & H).
  apply xbind_Ok in H as (s4 & [] & (Hx4 & Hc4 & _)%cond_mark_Ok & H).
  apply xbind_Ok in H as (s5 & s6 & [= <- <-] & H).
  assert (extends s s4) as Hx.
  { eapply extends_trans; [exact Hx1|]. eapply extends_trans; [exact Hx2|].
    by eapply extends_trans. }
  assert ((x_rule s2).2 = (x_rule s).2) as Hw2.
  { destruct Hx1 as [E1 _], Hx2 as [E2 _]. congruence. }
  assert ((x_rule s4).2 = (x_rule s).2) as Hw4 by apply Hx.
  simpl in Hp1, Hp3. rewrite Hw2, Hc2 in Hp3.
  assert (cache_ok (_extract_result_cache s) →
          cache_ok (_extract_result_cache s4) ∧ record_of (lhs n) l ∧ record_of (rhs n) r0 ∧
          (sourced (w_heap (x_rule s).2) (_extract_result_cache s) →
           sourced (w_heap (x_rule s).2) (_extract_result_cache s4) ∧
           sourced_of _is_select_dataframe_column isinstance_DataFrameUnaryUfunc
             isinstance_DataFrameBinopUfunc lhs rhs (w_heap (x_rule s).2) (lhs n) l ∧
           sourced_of _is_select_dataframe_column isinstance_DataFrameUnaryUfunc
             isinstance_DataFrameBinopUfunc lhs rhs (w_heap (x_rule s).2) (rhs n) r0))
    as Hall.
  { intros Hc. destruct (Hp1 Hc) as (Hc1 & Hl & Hs1).
    destruct (Hp3 Hc1) as (Hc3 & Hr & Hs3). rewrite Hc4.
    split_and!; [done..|]. intros Hs. destruct (Hs1 Hs) as [Hs1' Hsl].
    destruct (Hs3 Hs1') as [Hs3' Hsr]. done. }
  clear Hp1 Hp3.
  destruct (expr l) as [le|] eqn:El; cycle 1.
  { injection H as <- <-. split; [done|]. intros Hc.
    destruct (Hall Hc) as (Hc' & _ & _ & Hs). split_and!; [done..|].
    intros Hs0. destruct (Hs Hs0) as [Hs' _]. split; [done|apply source_no_record]. }
  destruct (expr r0) as [re|] eqn:Er; cycle 1.
  { injection H as <- <-. split; [done|]. intros Hc.
    destruct (Hall Hc) as (Hc' & _ & _ & Hs). split_and!; [done..|].
    intros Hs0. destruct (Hs Hs0) as [Hs' _]. split; [done|apply source_no_record]. }
  match type of H with
  | (if ?c then _ else _) _ = _ => destruct c eqn:Ekey
  end.
  { injection H as <- <-. split; [done|]. intros Hc.
    destruct (Hall Hc) as (Hc' & _ & _ & Hs). split_and!; [done..|].
    intros Hs0. destruct (Hs Hs0) as [Hs' _]. split; [done|apply source_no_record]. }
  apply xbind_Ok in H as (s7 & t & Ht & H).
  apply xbind_Ok in H as (s8 & e & (-> & _)%of_result_Ok & [= <- <-]).
  assert (s7 = s4 ∧ (tileable l = Some t ∨ (tileable l = None ∧ tileable r0 = Some t)))
    as [-> Ht'].
  { destruct (tileable l) as [tl|]; [injection Ht as <- <-; by split; [|left]|].
    destruct (tileable r0) as [tr|]; [injection Ht as <- <-; by split; [|right]|done]. }
  clear Ht. split; [done|]. intros Hc.
  destruct (Hall Hc) as (Hc' & Hl & Hr & Hs). split_and!; [done|apply record_ok_both|].
  intros Hs0. destruct (Hs Hs0) as (Hs' & Hsl & Hsr). split; [done|].
  intros t' df [= <-] Hcol. rewrite Hw4 in Ekey.
  inversion Hcol as [| |? a ? _ _ _ Ea Hca|? a ? _ _ _ Ea Hca]; subst; try congruence.
  - rewrite Ea in Hl, Hsl. simpl in Hl, Hsl.
    destruct Ht' as [Etl|[Etl _]].
    + by apply (Hsl t df).
    + apply Hl in Etl. congruence.
  - rewrite Ea in Hr, Hsr. simpl in Hr, Hsr.
    destruct (tileable r0) as [tr|] eqn:Etr; [|apply Hr in Etr; congruence].
    rewrite (Hsr tr df Etr Hca).
    destruct Ht' as [Etl|[_ Etl]]; [|congruence].
    rewrite Etl in Ekey. by apply bool_decide_eq_false, dec_stable in Ekey.
Qed.
End OpenRecursion.

Lemma extract_post_holds rfuel fuel : ∀ x s s' r,
  extract rfuel fuel x s = (s', XOk r) → post x s s' r.
Proof.
  induction fuel as [|fuel IH]; intros x s s' r; [done|].
  destruct x as [repr|v| |n]; simpl.
  - intros [= <- <-]. split; [apply extends_refl|]. split; [done|].
    intros Hc. split_and!; [done|split; [done|by eexists]|done].
  - unfold xbind, _next_var_id, xmodify, xget, xret. simpl. intros [= <- <-].
    split; [|split; [done|]].
    + split_and!; simpl; [done..|lia|done].
    + intros Hc. split_and!; [done|split; [done|by eexists]|done].
  - intros [= <- <-]. split; [apply extends_refl|]. split; [done|].
    intros Hc. split_and!; done.
  - unfold xbind at 1. unfold xget at 1.
    destruct (_extract_result_cache s !! n) as [rc|] eqn:Ec.
    + intros [= <- <-]. split; [apply extends_refl|]. split; [done|].
      intros Hc. split_and!; [done|by eapply Hc|]. intros Hs. split; [done|by eapply Hs].
    + intros (s1 & r1 & Hb & H)%xbind_Ok.
      unfold xbind, xmodify, xret in H. injection H as <- <-.
      assert (branch_post n s s1 r1) as (Hx & Hp).
      { destruct (_is_select_dataframe_column n) eqn:Hsel;
          [by eapply extract_column_select_post|].
        destruct (isinstance_DataFrameUnaryUfunc n) eqn:Hun;
          [by eapply extract_unary_post|].
        destruct (isinstance_DataFrameBinopUfunc n) eqn:Hbin;
          [|injection Hb as <- <-; apply branch_post_no_record].
        destruct (fill_value_or_level n);
          [injection Hb as <- <-; apply branch_post_no_record|].
        by eapply extract_binary_post. }
      split_and!.
      * destruct Hx as (X1 & X2 & X3 & X4). split_and!; simpl; [done..|].
        intros k rk Hk. rewrite lookup_insert_ne by congruence. by apply X4.
      * simpl. apply lookup_insert_eq.
      * intros Hc. destruct (Hp Hc) as (Hc1 & Hr1 & Hs). simpl. split_and!.
        -- intros k rk. destruct (decide (k = n)) as [->|Hk].
           ++ rewrite lookup_insert_eq. by intros [= <-].
           ++ rewrite lookup_insert_ne by done. apply Hc1.
        -- done.
        -- intros Hs0. destruct (Hs Hs0) as [Hs1 Hsn]. split; [|done].
           intros k rk. destruct (decide (k = n)) as [->|Hk].
           ++ rewrite lookup_insert_eq. by intros [= <-].
           ++ rewrite lookup_insert_ne by done. apply Hs1.
Qed.
(** X23: the cache makes a second extraction free. After a returning
    extraction of an entity, extracting it again returns the same record
    from the cache and does nothing else: no operand is marked, no variable
    id is taken, and no depth beyond the look-up is needed. *)
Theorem extraction_is_cached rfuel fuel n (s s' : ExtractState) r :
  extract rfuel fuel (Tileable n) s = (s', XOk r) →
  ∀ fuel', extract rfuel (S fuel') (Tileable n) s' = (s', XOk r).
Proof.
  intros (_ & Hc & _)%extract_post_holds fuel'. simpl in *.
  unfold xbind, xget. by rewrite Hc.
Qed.

(** X24: an extracted expression reads one dataframe. When the records in
    the cache have a tileable exactly if they have an expression, and their
    tileables have the key of every dataframe a column of which their
    entities select, every returning extraction, of whatever object, keeps
    both facts for the cache; and if the object is an entity, the tileable
    of the record returned, when there is one, has the key of every
    dataframe that the expression of the entity selects a column of (lines
    248-253 reject two operands whose dataframes differ in their keys). *)
Theorem extraction_one_dataframe rfuel fuel x (s s' : ExtractState) r :
  cache_ok (_extract_result_cache s) →
  sourced (w_heap (x_rule s).2) (_extract_result_cache s) →
  extract rfuel fuel x s = (s', XOk r) →
  cache_ok (_extract_result_cache s') ∧
  sourced (w_heap (x_rule s').2) (_extract_result_cache s') ∧
  ∀ n t df, x = Tileable n → tileable r = Some t →
    column (w_heap (x_rule s).2) n df →
    key (w_heap (x_rule s).2 df) = key (w_heap (x_rule s).2 t).
Proof.
  intros Hc Hs (Hx & _ & Hp)%extract_post_holds.
  destruct (Hp Hc) as (Hc' & _ & Hs'). destruct (Hs' Hs) as [Hs1 Hsn].
  destruct Hx as [-> _]. split_and!; [done..|].
  intros n t df -> Ht Hcol. by apply (Hsn t df).
Qed.

(** X25: [match_operand] returns [True] only with an input for the new
    node. When the records in the cache have a tileable exactly if they have
    an expression and [match_operand] returns [True], the operand is not on
    a GPU and the cache holds for its first output a record with an
    expression and with a tileable, the one [apply_to_operand] then reads as
    [in_tileable]. *)
Theorem match_operand_gives_input rfuel fuel o (s s' : ExtractState) :
  cache_ok (_extract_result_cache s) →
  match_operand _is_select_dataframe_column col_names isinstance_DataFrameUnaryUfunc
    isinstance_DataFrameBinopUfunc fill_value_or_level func_name lhs rhs gpu op_outputs
    rfuel fuel o s = (s', XOk true) →
  gpu o = false ∧
  ∃ output rest r t e,
    op_outputs o = output :: rest ∧
    _extract_result_cache s' !! output = Some r ∧
    tileable r = Some t ∧ expr r = Some e.
Proof.
  intros Hc. unfold match_operand. destruct (gpu o); [done|].
  destruct (op_outputs o) as [|output rest]; [done|].
  intros (s1 & r & (_ & Hcached & Hp)%extract_post_holds & [= <- Hm])%xbind_Ok.
  destruct (Hp Hc) as (_ & Hr & _). simpl in *.
  apply bool_decide_eq_true in Hm.
  destruct (expr r) as [e|] eqn:Ee; [|done].
  destruct (tileable r) as [t|] eqn:Et; [|apply Hr in Et; congruence].
  split; [done|]. by exists output, rest, r, t, e.
Qed.

(** X26: an operation on two scalars ends the extraction with
    [StopIteration]. For a binary operation without fill value and level
    whose function has a builder and whose operands are both scalars, each
    operand gives an expression and no tileable, the tests of lines 246-253
    let them pass, and [next] at line 257 finds no tileable; the exception
    is not caught, and nothing is cached for the entity. *)
Theorem extract_binary_of_scalars rfuel fuel n (s : ExtractState) :
  _extract_result_cache s !! n = None →
  _is_select_dataframe_column n = false →
  isinstance_DataFrameUnaryUfunc n = false →
  isinstance_DataFrameBinopUfunc n = true →
  fill_value_or_level n = false →
  is_Some (_func_name_to_builder !! func_name n) →
  is_scalar (lhs n) → is_scalar (rhs n) →
  (extract rfuel (S (S fuel)) (Tileable n) s).2 = XRaise StopIteration ∧
  _extract_result_cache (extract rfuel (S (S fuel)) (Tileable n) s).1 !! n = None.
Proof.
  intros Hc Hsel Hun Hbin Hfill [b Hb] Hl Hr.
  change (extract rfuel (S (S fuel)) (Tileable n) s)
    with (xbind xget (λ s0, match _extract_result_cache s0 !! n with
            | Some r => xret r
            | None =>
                xbind (if _is_select_dataframe_column n
                       then _extract_column_select col_names n
                       else if isinstance_DataFrameUnaryUfunc n
                            then _extract_unary func_name rfuel (extract rfuel (S fuel)) n
                            else if isinstance_DataFrameBinopUfunc n
                                 then if fill_value_or_level n then xret no_record
                                      else _extract_binary func_name lhs rhs rfuel
                                             (extract rfuel (S fuel)) n
                                 else xret no_record)
                  (λ result,
                     xbind (xmodify (λ s1, with_cache (<[n:=result]>
                                                          (_extract_result_cache s1)) s1))
                       (λ _, xret result))
            end) s).
  unfold xbind at 1. unfold xget at 1. rewrite Hc, Hsel, Hun, Hbin, Hfill.
  unfold _extract_binary. rewrite Hb.
  destruct (lhs n) as [lr|lv| |]; try done; destruct (rhs n) as [rr|rv| |]; try done;
    unfold xbind, xret, xget, xmodify, _next_var_id, mark; simpl; by rewrite Hc.
Qed.

(** X27: a scalar is a new variable at each extraction. Scalars are not
    cached: the extraction of a scalar that is no literal takes the next id
    of the class counter and binds the scalar to the name made from it, so
    two extractions, of one scalar or of two, the later from a state whose
    counter is not behind, give different names. *)
Theorem scalar_variables_are_fresh rfuel fuel1 fuel2 v1 v2
    (s1 s1' s2 s2' : ExtractState) r1 r2 :
  extract rfuel fuel1 (Scalar v1) s1 = (s1', XOk r1) →
  _var_counter s1' ≤ _var_counter s2 →
  extract rfuel fuel2 (Scalar v2) s2 = (s2', XOk r2) →
  ∃ name1 name2, name1 ≠ name2 ∧
    r1 = mkExtractRecord None (Some ("@" +:+ name1)) (Some {[name1 := v1]}) ∧
    r2 = mkExtractRecord None (Some ("@" +:+ name2)) (Some {[name2 := v2]}) ∧
    _var_counter s2' = S (_var_counter s2).
Proof.
  destruct fuel1 as [|fuel1]; [done|]. destruct fuel2 as [|fuel2]; [done|]. simpl.
  unfold xbind, _next_var_id, xmodify, xget, xret. simpl.
  intros [= <- <-] Hle [= <- <-]. simpl in *.
  eexists _, _. split; [|done].
  intros Heq%(inj (String.app _))%(inj pretty). lia.
Qed.

(** X28: operands are marked before the operation is accepted. In the
    extraction of a binary operation that is not answered from the cache,
    an operand that is an entity and whose own record has a tileable is
    marked (its forward resolution is in [_marked_nodes] afterwards),
    whatever the record of the operation itself: also when the operation is
    then rejected because the other operand has no expression or reads a
    dataframe with another key. *)
Theorem operands_marked_before_decision rfuel fuel n a (s s' : ExtractState) r ra :
  extract rfuel (S fuel) (Tileable n) s = (s', XOk r) →
  _extract_result_cache s !! n = None →
  _is_select_dataframe_column n = false →
  isinstance_DataFrameUnaryUfunc n = false →
  isinstance_DataFrameBinopUfunc n = true →
  fill_value_or_level n = false →
  is_Some (_func_name_to_builder !! func_name n) →
  lhs n = Tileable a ∨ rhs n = Tileable a →
  a ≠ n →
  _extract_result_cache s' !! a = Some ra →
  is_Some (tileable ra) →
  ∃ m, get_optimization_result rfuel (w_records (x_rule s).2) (Some a) (Some a) = Ok m ∧
       m ∈ (x_rule s').1.
Proof.
  intros H Hc Hsel Hun Hbin Hfill [b Hb] Ha Hne Hra Ht.
  change (extract rfuel (S fuel) (Tileable n) s)
    with (xbind xget (λ s0, match _extract_result_cache s0 !! n with
            | Some r => xret r
            | None =>
                xbind (if _is_select_dataframe_column n
                       then _extract_column_select col_names n
                       else if isinstance_DataFrameUnaryUfunc n
                            then _extract_unary func_name rfuel (extract rfuel fuel) n
                            else if isinstance_DataFrameBinopUfunc n
                                 then if fill_value_or_level n then xret no_record
                                      else _extract_binary func_name lhs rhs rfuel
                                             (extract rfuel fuel) n
                                 else xret no_record)
                  (λ result,
                     xbind (xmodify (λ s1, with_cache (<[n:=result]>
                                                          (_extract_result_cache s1)) s1))
                       (λ _, xret result))
            end) s) in H.
  unfold xbind at 1 in H. unfold xget at 1 in H. rewrite Hc, Hsel, Hun, Hbin, Hfill in H.
  apply xbind_Ok in H as (s5 & r' & H & H').
  unfold xbind, xmodify, xret in H'. injection H' as <- <-.
  simpl in Hra. rewrite lookup_insert_ne in Hra by done.
  unfold _extract_binary in H. rewrite Hb in H.
  apply xbind_Ok in H as (s1 & l & Hl & H).
  apply xbind_Ok in H as (s2 & [] & (Hx2 & Hc2 & Hm2)%cond_mark_Ok & H).
  apply xbind_Ok in H as (s3 & r0 & Hr & H).
  apply xbind_Ok in H as (s4 & [] & (Hx4 & Hc4 & Hm4)%cond_mark_Ok & H).
  apply xbind_Ok in H as (s6 & s7 & [= <- <-] & H).
  assert (s5 = s4) as ->.
  { destruct (expr l); [|by injection H as <- <-].
    destruct (expr r0); [|by injection H as <- <-].
    match type of H with
    | (if ?c then _ else _) _ = _ => destruct c
    end; [by injection H as <- <-|].
    apply xbind_Ok in H as (s8 & t & Ht' & H).
    apply xbind_Ok in H as (s9 & e & (-> & _)%of_result_Ok & [= <- <-]).
    destruct (tileable l); [by injection Ht' as <- <-|].
    destruct (tileable r0); [by injection Ht' as <- <-|done]. }
  clear H. simpl.
  apply extract_post_holds in Hl as (Hx1 & Hcl & _).
  apply extract_post_holds in Hr as (Hx3 & Hcr & _).
  assert ((x_rule s3).2 = (x_rule s).2) as Hw3.
  { destruct Hx1 as [E1 _], Hx2 as [E2 _], Hx3 as [E3 _]. congruence. }
  destruct Ha as [Ea|Ea].
  - rewrite Ea in Hcl, Hm2. simpl in Hcl.
    assert (ra = l) as ->.
    { destruct Hx2 as (_ & _ & _ & X2), Hx3 as (_ & _ & _ & X3), Hx4 as (_ & _ & _ & X4).
      apply X2, X3, X4 in Hcl. congruence. }
    destruct (Hm2 a Ht eq_refl) as (m & Hm & Hin).
    exists m. destruct Hx1 as [E1 _]. rewrite <- E1. split; [done|].
    destruct Hx3 as (_ & M3 & _), Hx4 as (_ & M4 & _). auto.
  - rewrite Ea in Hcr, Hm4. simpl in Hcr.
    assert (ra = r0) as ->.
    { destruct Hx4 as (_ & _ & _ & X4). apply X4 in Hcr. congruence. }
    destruct (Hm4 a Ht eq_refl) as (m & Hm & Hin).
    exists m. rewrite <- Hw3. done.
Qed.
End ExtractionFacts.

Lemma extraction_is_cached_witness :
  let s' := (x_extract 3 5 (Tileable 4) x_state).1 in
  x_extract 3 1 (Tileable 4) s'
  = (s', XOk (mkExtractRecord (Some 1) (Some "(`a`) + (`b`)") (Some ∅))).
Proof.
  intros s'. unfold x_extract.
  apply (extraction_is_cached x_is_select x_col_names x_is_unary x_is_binop (λ _, false)
           x_func_name x_lhs x_rhs 3 5 4 x_state).
  reflexivity.
Defined.

Lemma extraction_one_dataframe_witness :
  let extract := _extract_eval_expression x_is_select x_col_names x_is_unary x_is_binop
                   (λ _, false) x_func_name x_lhs x_rhs 3 5 in
  let s' := (extract (Tileable 7) x_state_twins).1 in
  (extract (Tileable 7) x_state_twins).2
    = XOk (mkExtractRecord (Some 1) (Some "(`a`) + (`b`)") (Some ∅)) ∧
  column_of x_is_select x_is_unary x_is_binop x_lhs x_rhs x_heap_twins 7 5 ∧
  key (x_heap_twins 5) = key (x_heap_twins 1) ∧
  cache_ok (_extract_result_cache s') ∧
  cache_sourced x_is_select x_is_unary x_is_binop x_lhs x_rhs
                (w_heap (x_rule s').2) (_extract_result_cache s').
Proof.
  intros extract s'.
  assert (column_of x_is_select x_is_unary x_is_binop x_lhs x_rhs x_heap_twins 7 5) as Hcol.
  { eapply column_rhs; [reflexivity..|]. eapply column_here; reflexivity. }
  destruct (extraction_one_dataframe x_is_select x_col_names x_is_unary x_is_binop
              (λ _, false) x_func_name x_lhs x_rhs 3 5 (Tileable 7) x_state_twins s'
              (mkExtractRecord (Some 1) (Some "(`a`) + (`b`)") (Some ∅)))
    as (Hc & Hs & Hkey).
  - intros k r. simpl. by rewrite lookup_empty.
  - intros k r. simpl. by rewrite lookup_empty.
  - reflexivity.
  - split_and!; [reflexivity|exact Hcol| |exact Hc|exact Hs].
    exact (Hkey 7 1 5 eq_refl eq_refl Hcol).
Defined.

Lemma match_operand_gives_input_witness :
  let s' := (match_operand x_is_select x_col_names x_is_unary x_is_binop (λ _, false)
               x_func_name x_lhs x_rhs (λ _, false) (λ o, [o]) 3 5 8 x_state).1 in
  (λ _ : Op, false) 8 = false ∧
  ∃ output rest r t e,
    (λ o : Op, [o]) 8 = output :: rest ∧
    _extract_result_cache s' !! output = Some r ∧
    tileable r = Some t ∧ expr r = Some e.
Proof.
  apply (match_operand_gives_input x_is_select x_col_names x_is_unary x_is_binop (λ _, false)
           x_func_name x_lhs x_rhs (λ _, false) (λ o, [o]) 3 5 8 x_state).
  - intros k r. simpl. by rewrite lookup_empty.
  - reflexivity.
Defined.

Lemma extract_binary_of_scalars_witness :
  (x_extract 3 2 (Tileable 10) x_state).2 = XRaise StopIteration ∧
  _extract_result_cache (x_extract 3 2 (Tileable 10) x_state).1 !! 10 = None.
Proof.
  unfold x_extract.
  apply (extract_binary_of_scalars x_is_select x_col_names x_is_unary x_is_binop (λ _, false)
           x_func_name x_lhs x_rhs 3 0 10 x_state); try reflexivity.
  by eexists.
Defined.

Lemma scalar_variables_are_fresh_witness :
  ∃ name1 name2, name1 ≠ name2 ∧
    mkExtractRecord None (Some "@__eval_scalar_var1") (Some {[ "__eval_scalar_var1" := 42 ]})
    = mkExtractRecord None (Some ("@" +:+ name1)) (Some {[name1 := 42]}) ∧
    mkExtractRecord None (Some "@__eval_scalar_var2") (Some {[ "__eval_scalar_var2" := 42 ]})
    = mkExtractRecord None (Some ("@" +:+ name2)) (Some {[name2 := 42]}) ∧
    _var_counter (x_extract 3 1 (Scalar 42) (x_extract 3 1 (Scalar 42) x_state).1).1
    = S (_var_counter (x_extract 3 1 (Scalar 42) x_state).1).
Proof.
  apply (scalar_variables_are_fresh x_is_select x_col_names x_is_unary x_is_binop (λ _, false)
           x_func_name x_lhs x_rhs 3 1 1 42 42 x_state
           (x_extract 3 1 (Scalar 42) x_state).1
           (x_extract 3 1 (Scalar 42) x_state).1
           (x_extract 3 1 (Scalar 42) (x_extract 3 1 (Scalar 42) x_state).1).1).
  - reflexivity.
  - reflexivity.
  - reflexivity.
Defined.

Lemma operands_marked_before_decision_witness :
  let s' := (x_extract 3 5 (Tileable 7) x_state).1 in
  ∃ m, get_optimization_result 3 (w_records (x_rule x_state).2) (Some 6) (Some 6) = Ok m ∧
       m ∈ (x_rule s').1.
Proof.
  apply (operands_marked_before_decision x_is_select x_col_names x_is_unary x_is_binop
           (λ _, false) x_func_name x_lhs x_rhs 3 4 7 6 x_state
           (x_extract 3 5 (Tileable 7) x_state).1 no_record
           (mkExtractRecord (Some 5) (Some "`b`") None)); try reflexivity.
  - by eexists.
  - by right.
  - lia.
  - by eexists.
Defined.
